(** * text-translator: the recursive translation engine and its markup codec

    A shallow embedding of the client component [TranslationSystem]
    (functions [translateText], [translateNestedJson], [processTranslations],
    [preprocessText], [postprocessText]) and of the server route
    [app/api/translate/route.ts] ([POST]), followed by the properties the
    specification states about them; then the handlers and the controls
    of the component ([handleFileUpload], [handleDrop], the selector, the
    input area and the button), the variant of the route that asks for
    credentials, and further properties of the code: the codec on
    marked-up strings, the client over the route, the handlers, a run
    with a provider that changes nothing, the language of the requests.

    Conventions of the embedding.
    - A JavaScript string is a [string]; its code units are the characters
      of the [string] (code units below 256), so the line terminators that
      the regular-expression dot refuses are line feed and carriage return.
    - A parsed JSON value is a [json]; an object is the list of its entries
      in [Object.entries] order, with pairwise distinct keys ([wf_json]);
      [JSON.parse] defines every key as an own property, ["__proto__"]
      included.  The objects that the code builds from [{}] by
      assignments are written with [Obj.assign]: the assignment to
      ["__proto__"] runs the setter of [Object.prototype] and adds no
      property.
    - Numbers are never inspected by the program; they are integers here.
    - The identifiers of the uuid source are the values of a function
      [uuidv4] of the number of identifiers drawn before; an object keyed
      by identifiers lists them in the order in which they were added.
    - The asynchronous functions are run to completion one after the other:
      a promise is the computation that produces its outcome.  The state
      shared by these computations is the [world]: the position in the
      stream of identifiers drawn from [uuidv4] and the log of the
      requests sent with [fetch].
    - The code starts the items of [Promise.all] together, so the requests
      of two items of an array can come in any order; here the items are
      run one after the other, from left to right.  The properties below
      are stated on the requests that are sent and on their number, not
      on the order of the requests of different items.
    - [console.error] and [console.log] are not modelled.
    - The component changes by events.  The end of the read of a file and
      the end of a run are events of their own ([step]), so that the
      selector, the input area and the files are used while a run is
      under way; [handleFileUpload], [handleDrop] and [clickTranslate]
      take a read and a run together with their ends, for the properties
      of one upload and of one run. *)

From Stdlib Require Import String Ascii List ZArith Lia Bool Arith.
From Stdlib Require Import DecimalString DecimalNat.
Import ListNotations.
Local Open Scope string_scope.

(** ** JSON values *)

#[warnings="-register-all"]
Inductive json : Type :=
| JNull
| JBool (b : bool)
| JNum (n : Z)
| JStr (s : string)
| JArr (items : list json)
| JObj (entries : list (string * json)).

(** ** JavaScript objects used as records: [o[k] = v] and [o[k]] *)

Module Obj.

Definition t (A : Type) := list (string * A).

(** Writing the own property [k] of [o]: overwrite it in place when it
    exists, else add it after the existing ones.  This is what [o[k] = v]
    does for every key but ["__proto__"]. *)
Fixpoint set {A} (k : string) (v : A) (o : t A) : t A :=
  match o with
  | [] => [(k, v)]
  | (k', v') :: o' =>
      if String.eqb k k' then (k, v) :: o' else (k', v') :: set k v o'
  end.

(** [o[k] = v] on an object [o] that was created by the literal [{}].
    For the key ["__proto__"] the assignment finds the accessor of
    [Object.prototype] and runs its setter: [v] becomes the prototype of
    [o] when it is an object or [null], nothing happens when it is
    another value, and in both cases [o] gets no property.  The
    prototype is not part of an [Obj.t]: [Object.entries] and
    [JSON.stringify] read own properties only, and the inherited
    properties that an assignment can meet here are writable data
    properties, which do not stand in the way of an own one.  (An object
    is assigned ["__proto__"] at most once here, since the keys of a
    parsed object are distinct, so the accessor is still inherited when
    it is.) *)
Definition assign {A} (k : string) (v : A) (o : t A) : t A :=
  if String.eqb k "__proto__" then o else set k v o.

(** The entries other than those under ["__proto__"]: what is left of
    a sequence of assignments to distinct keys. *)
Definition own {A} (o : t A) : t A :=
  filter (fun e => negb (String.eqb (fst e) "__proto__")) o.

(** [o[k]], [None] standing for [undefined]. *)
Fixpoint get {A} (k : string) (o : t A) : option A :=
  match o with
  | [] => None
  | (k', v') :: o' => if String.eqb k k' then Some v' else get k o'
  end.

Definition keys {A} (o : t A) : list string := map fst o.

End Obj.

(** ** Strings *)

Module Str.

(** [strip_prefix p s]: the rest of [s] after its prefix [p], if [s]
    starts with [p]. *)
Fixpoint strip_prefix (p s : string) : option string :=
  match p with
  | EmptyString => Some s
  | String a p' =>
      match s with
      | EmptyString => None
      | String b s' => if Ascii.eqb a b then strip_prefix p' s' else None
      end
  end.

(** [split_first pat s]: the text before and after the first occurrence
    of [pat] in [s]. *)
Fixpoint split_first (pat s : string) : option (string * string) :=
  match strip_prefix pat s with
  | Some after => Some (EmptyString, after)
  | None =>
      match s with
      | EmptyString => None
      | String c s' =>
          match split_first pat s' with
          | Some (before, after) => Some (String c before, after)
          | None => None
          end
      end
  end.

(** The replacement text of [String.prototype.replace] when the pattern
    is a string and the replacement is a string (the abstract operation
    GetSubstitution with no captures): [$$] is a dollar sign, [$&] the
    matched text, [$`] the text before the match, [$'] the text after
    it; any other dollar sign stands for itself. *)
Fixpoint get_substitution (matched before after repl : string) : string :=
  match repl with
  | EmptyString => EmptyString
  | String c r =>
      if Ascii.eqb c "$" then
        match r with
        | EmptyString => String c EmptyString
        | String d r' =>
            if Ascii.eqb d "$" then
              String "$" (get_substitution matched before after r')
            else if Ascii.eqb d "&" then
              matched ++ get_substitution matched before after r'
            else if Ascii.eqb d "`" then
              before ++ get_substitution matched before after r'
            else if Ascii.eqb d "'" then
              after ++ get_substitution matched before after r'
            else String c (get_substitution matched before after r)
        end
      else String c (get_substitution matched before after r)
  end.

(** [s.replace(pat, repl)] with a string pattern: only the first
    occurrence is replaced; without an occurrence [s] is returned. *)
Definition replace_first (pat repl s : string) : string :=
  match split_first pat s with
  | Some (before, after) =>
      before ++ get_substitution pat before after repl ++ after
  | None => s
  end.

(** The decimal numeral of an array index, as [Object.entries] names it. *)
Definition of_nat (n : nat) : string :=
  NilEmpty.string_of_uint (Nat.to_uint n).

(** The one-character strings of [s], the values that [Object.entries]
    lists for a string. *)
Fixpoint chars (s : string) : list string :=
  match s with
  | EmptyString => []
  | String c s' => String c EmptyString :: chars s'
  end.

End Str.

(** ** The regular expressions of [preprocessText]

    The four patterns are sequences of literal texts and lazy capture
    groups [(.*?)]; [match_here] is the backtracking matcher anchored at
    the start of its subject. *)

Module Regex.

Inductive item : Type :=
| Lit (s : string)
| LazyDots.

Definition t := list item.

(** The characters that [.] does not match. *)
Definition is_line_terminator (c : ascii) : bool :=
  Ascii.eqb c "010" || Ascii.eqb c "013".

(** [match_here re s]: the captures and the number of characters
    consumed by the match of [re] at the start of [s].  A lazy group
    first tries to take nothing, then one more character at a time. *)
Fixpoint match_here (re : t) (s : string) {struct re}
  : option (list string * nat) :=
  match re with
  | [] => Some ([], 0)
  | Lit l :: re' =>
      match Str.strip_prefix l s with
      | Some rest =>
          match match_here re' rest with
          | Some (caps, n) => Some (caps, String.length l + n)
          | None => None
          end
      | None => None
      end
  | LazyDots :: re' =>
      (fix lazy (s : string) (taken : string) {struct s}
         : option (list string * nat) :=
         match match_here re' s with
         | Some (caps, n) => Some (taken :: caps, String.length taken + n)
         | None =>
             match s with
             | EmptyString => None
             | String c s' =>
                 if is_line_terminator c then None
                 else lazy s' (taken ++ String c EmptyString)
             end
         end) s EmptyString
  end.

(** [/<b>(.*?)<\/b>/] *)
Definition bold : t := [Lit "<b>"; LazyDots; Lit "</b>"].
(** [/<i>(.*?)<\/i>/] *)
Definition italic : t := [Lit "<i>"; LazyDots; Lit "</i>"].
(** The double quote character. *)
Definition dquote : ascii := "034"%char.
(** [/<a href="(.*?)">(.*?)<\/a>/] *)
Definition link : t :=
  [Lit ("<a href=" ++ String dquote EmptyString); LazyDots;
   Lit (String dquote ">"); LazyDots; Lit "</a>"].
(** [/\${(.*?)}/] *)
Definition interpolation : t := [Lit "${"; LazyDots; Lit "}"].

End Regex.

(** ** Outcomes and the world *)

(** What a [throw] carries: an [Error] with its message, or some other
    value (one for which [instanceof Error] is false). *)
Inductive exn : Type :=
| JsError (message : string)
| NonError.

(** The answer of the server to one request, in the protocol of the route:
    a response that is not [ok] carries [{ message }], an [ok] response
    carries [{ translatedText }] (interface [TranslationResponse]). *)
Inductive response : Type :=
| Failure (status : nat) (message : string)
| Success (translatedText : string).

(** The outcome of [fetch]: the promise rejects (the server was not
    reached) or resolves to a response. *)
Inductive fetch_outcome : Type :=
| Rejected (e : exn)
| Resolved (r : response).

(** One logged request: the [text] and [targetLanguage] of its body. *)
Record request : Type := mkRequest { req_text : string; req_lang : string }.

Record world : Type := mkWorld {
  next_id : nat;               (* identifiers drawn from [uuidv4] so far *)
  requests : list request      (* requests sent, the latest first *)
}.

Inductive outcome (A : Type) : Type :=
| Ok (a : A)
| Throw (e : exn)
| Exhausted.                   (* the recursion allowance ran out *)
Arguments Ok {A} a.
Arguments Throw {A} e.
Arguments Exhausted {A}.

Definition M (A : Type) : Type := world -> outcome A * world.

Definition ret {A} (a : A) : M A := fun w => (Ok a, w).

Definition throw {A} (e : exn) : M A := fun w => (Throw e, w).

Definition bind {A B} (m : M A) (k : A -> M B) : M B :=
  fun w =>
    match m w with
    | (Ok a, w') => k a w'
    | (Throw e, w') => (Throw e, w')
    | (Exhausted, w') => (Exhausted, w')
    end.

(** [try { body } catch (error) { handler error }]; running out of the
    recursion allowance is not an exception, and is not caught. *)
Definition try_catch {A} (body : M A) (handler : exn -> M A) : M A :=
  fun w =>
    match body w with
    | (Throw e, w') => handler e w'
    | r => r
    end.

Notation "x <- m ;; k" := (bind m (fun x => k))
  (at level 61, m at next level, right associativity).
Notation "' pat <- m ;; k" := (bind m (fun x => match x with pat => k end))
  (at level 61, pat pattern, m at next level, right associativity).

(** [Promise.all] over computations that have all been started: each one
    runs, here one after the other, also after one of them has failed;
    the result is the list of their values, or the first failure. *)
Fixpoint promise_all {A} (ps : list (M A)) : M (list A) :=
  match ps with
  | [] => ret []
  | p :: ps' =>
      fun w =>
        match p w with
        | (Ok a, w') => (l <- promise_all ps' ;; ret (a :: l)) w'
        | (Throw e, w') => (Throw e, snd (promise_all ps' w'))
        | (Exhausted, w') => (Exhausted, w')
        end
  end.

(** ** The client component *)

Definition placeholders := Obj.t string.

Section Client.

(** [uuidv4 n] is the [n]-th identifier that the uuid source hands out. *)
Variable uuidv4 : nat -> string.

(** [fetch log text lang] is what [fetch("/api/translate", ...)] yields
    for the body [{ text, targetLanguage }] when [log] holds the requests
    sent before. *)
Variable fetch : list request -> string -> string -> fetch_outcome.

(** *** preprocessText *)

(** [`{{${id}}}`] *)
Definition delimited (id : string) : string := "{{" ++ id ++ "}}".

(** The common part of the four replacer callbacks: draw an identifier,
    record the fragment under it, return the delimited identifier.  (An
    identifier of the uuid library is never ["__proto__"], so
    [placeholders[id] = fragment] writes an own property.) *)
Definition stash (fragment : string) (ph : placeholders)
  : M (string * placeholders) :=
  fun w =>
    let id := uuidv4 (next_id w) in
    (Ok (delimited id, Obj.set id fragment ph),
     mkWorld (S (next_id w)) (requests w)).

(** [s.replace(re /g, replacer)]: the subject is scanned from left to
    right; [skip] counts the characters that still belong to the match
    found last.  [rebuild] is the fragment the replacer records, made
    from the captures. *)
Fixpoint replace_all (re : Regex.t) (rebuild : list string -> string)
    (s : string) (skip : nat) (ph : placeholders) {struct s}
  : M (string * placeholders) :=
  match s with
  | EmptyString =>
      match Regex.match_here re EmptyString with
      | Some (caps, _) => stash (rebuild caps) ph
      | None => ret (EmptyString, ph)
      end
  | String c s' =>
      match skip with
      | S k => replace_all re rebuild s' k ph
      | O =>
          match Regex.match_here re s with
          | Some (caps, n) =>
              '(token, ph1) <- stash (rebuild caps) ph ;;
              match n with
              | O =>
                  '(rest, ph2) <- replace_all re rebuild s' 0 ph1 ;;
                  ret (token ++ String c rest, ph2)
              | S k =>
                  '(rest, ph2) <- replace_all re rebuild s' k ph1 ;;
                  ret (token ++ rest, ph2)
              end
          | None =>
              '(rest, ph1) <- replace_all re rebuild s' 0 ph ;;
              ret (String c rest, ph1)
          end
      end
  end.

Definition capture (i : nat) (caps : list string) : string :=
  nth i caps EmptyString.

Definition preprocessText (text : string) : M (string * placeholders) :=
  let ph := [] in
  let processedText := text in
  (* Replace bold text *)
  '(processedText, ph) <-
    replace_all Regex.bold
      (fun caps => "<b>" ++ capture 0 caps ++ "</b>")
      processedText 0 ph ;;
  (* Replace italic text *)
  '(processedText, ph) <-
    replace_all Regex.italic
      (fun caps => "<i>" ++ capture 0 caps ++ "</i>")
      processedText 0 ph ;;
  (* Replace links *)
  '(processedText, ph) <-
    replace_all Regex.link
      (fun caps =>
         "<a href=" ++ String Regex.dquote (capture 0 caps)
         ++ String Regex.dquote ">" ++ capture 1 caps ++ "</a>")
      processedText 0 ph ;;
  (* Replace variable placeholders *)
  '(processedText, ph) <-
    replace_all Regex.interpolation
      (fun caps => "${" ++ capture 0 caps ++ "}")
      processedText 0 ph ;;
  ret (processedText, ph).

(** *** postprocessText *)

Definition postprocessText (text : string) (ph : placeholders) : string :=
  fold_left
    (fun processedText '(id, content) =>
       Str.replace_first (delimited id) content processedText)
    ph text.

(** *** translateText *)

(** [await fetch("/api/translate", ...)]: the request is logged, then
    the promise settles. *)
Definition send (text lang : string) : M response :=
  fun w =>
    let w' := mkWorld (next_id w) (mkRequest text lang :: requests w) in
    match fetch (requests w) text lang with
    | Rejected e => (Throw e, w')
    | Resolved r => (Ok r, w')
    end.

Definition translateText (text targetLanguage : string) : M string :=
  if String.eqb text "" || String.eqb targetLanguage "" then
    throw (JsError "Both text and targetLanguage are required.")
  else
    try_catch
      (r <- send text targetLanguage ;;
       match r with
       | Failure _ message =>
           throw (JsError ("Translation failed: " ++ message))
       | Success translatedText => ret translatedText
       end)
      (fun error =>
         match error with
         | JsError _ => throw error
         | NonError =>
             throw (JsError "An unexpected error occurred during translation")
         end).

(** *** translateNestedJson *)

(** The entries of a list under their indices, from index [i] on. *)
Fixpoint indexed (i : nat) (items : list json) : list (string * json) :=
  match items with
  | [] => []
  | x :: items' => (Str.of_nat i, x) :: indexed (S i) items'
  end.

(** [Object.entries(data)]: the entries of an object, the indexed items
    of an array, the indexed characters of a string, nothing for a number
    or a boolean; [null] makes it throw a TypeError (with the message that
    the engine gives it). *)
Definition Object_entries (data : json) : M (list (string * json)) :=
  match data with
  | JNull => throw (JsError "Cannot convert undefined or null to object")
  | JBool _ | JNum _ => ret []
  | JStr s => ret (indexed 0 (map JStr (Str.chars s)))
  | JArr items => ret (indexed 0 items)
  | JObj entries => ret entries
  end.

(** [typeof v === "object" && v !== null] *)
Definition is_object (v : json) : bool :=
  match v with
  | JArr _ | JObj _ => true
  | _ => false
  end.

(** The body of the [for] loop of [translateNestedJson] for one entry;
    [self] is the recursive call. *)
Definition translate_entry (self : json -> M json) (targetLanguage : string)
    (key : string) (value : json) (translatedData : Obj.t json)
  : M (Obj.t json) :=
  try_catch
    (if String.eqb key "original" then
       (* Preserve the original text *)
       ret (Obj.assign key value translatedData)
     else
       match String.eqb key "translated", value with
       | true, JStr s =>
           (* Translate only the "translated" field *)
           '(text, ph) <- preprocessText s ;;
           if negb (String.eqb text "") then
             translatedText <- translateText text targetLanguage ;;
             ret (Obj.assign key (JStr (postprocessText translatedText ph))
                    translatedData)
           else
             ret (Obj.assign key value translatedData)
       | _, JArr items =>
           items' <- promise_all
                       (map (fun item =>
                               if is_object item then self item
                               else ret item) items) ;;
           ret (Obj.assign key (JArr items') translatedData)
       | _, JObj _ =>
           value' <- self value ;;
           ret (Obj.assign key value' translatedData)
       | _, _ =>
           (* Copy other types as-is *)
           ret (Obj.assign key value translatedData)
       end)
    (fun _ =>
       (* Preserve original value on error *)
       ret (Obj.assign key value translatedData)).

(** [for (const [key, value] of entries) { body }] *)
Fixpoint for_entries (body : string -> json -> Obj.t json -> M (Obj.t json))
    (entries : list (string * json)) (translatedData : Obj.t json)
  : M (Obj.t json) :=
  match entries with
  | [] => ret translatedData
  | (key, value) :: rest =>
      translatedData' <- body key value translatedData ;;
      for_entries body rest translatedData'
  end.

(** [translateNestedJson], with an allowance [fuel] on the depth of the
    recursion ([Translate] below provides as much as the input needs). *)
Fixpoint translateNestedJson (fuel : nat) (data : json)
    (targetLanguage : string) {struct fuel} : M json :=
  match fuel with
  | O => fun w => (Exhausted, w)
  | S fuel' =>
      entries <- Object_entries data ;;
      translatedData <-
        for_entries
          (translate_entry
             (fun item => translateNestedJson fuel' item targetLanguage)
             targetLanguage)
          entries [] ;;
      ret (JObj translatedData)
  end.

End Client.

(** The nesting depth of a value: what the recursion of
    [translateNestedJson] needs below its first call. *)
Fixpoint json_depth (d : json) : nat :=
  match d with
  | JArr items =>
      S (fold_right (fun x acc => Nat.max (json_depth x) acc) 0 items)
  | JObj entries =>
      S (fold_right (fun e acc => Nat.max (json_depth (snd e)) acc) 0 entries)
  | _ => 0
  end.

Section Page.

Variable uuidv4 : nat -> string.
Variable fetch : list request -> string -> string -> fetch_outcome.

(** [Translate]: the call [translateNestedJson(data, targetLanguage)] of
    [processTranslations]. *)
Definition Translate (data : json) (targetLanguage : string) : M json :=
  translateNestedJson uuidv4 fetch (S (json_depth data)) data targetLanguage.

(** The outcome of [JSON.parse(inputJson)]. *)
Inductive parse_outcome : Type :=
| SyntaxError (message : string)
| Parsed (data : json).

Definition JSON_parse (p : parse_outcome) : M json :=
  match p with
  | SyntaxError message => throw (JsError message)
  | Parsed data => ret data
  end.

(** The state of the component that [processTranslations] writes.
    [outputJson] is [None] for the empty text and [Some d] for the text
    [JSON.stringify(d, null, 2)]. *)
Record page : Type := mkPage {
  outputJson : option json;
  error : option string;
  isProcessing : bool
}.

Definition processTranslations (inputJson : parse_outcome)
    (targetLanguage : string) (st : page) (w : world) : page * world :=
  (* setIsProcessing(true); setError(null); *)
  let st := mkPage (outputJson st) None true in
  match (data <- JSON_parse inputJson ;; Translate data targetLanguage) w with
  | (Ok translatedData, w') =>
      (mkPage (Some translatedData) (error st) false, w')
  | (Throw (JsError message), w') =>
      (mkPage None (Some ("Error processing translations: " ++ message))
         false, w')
  | (Throw NonError, w') =>
      (mkPage (outputJson st) (error st) false, w')
  | (Exhausted, w') => (st, w')
  end.

End Page.

(** ** The server route [POST] of [app/api/translate/route.ts] *)

Section Route.

(** [process.env.GOOGLE_CLOUD_PROJECT_ID], [None] when it is not set. *)
Variable GOOGLE_CLOUD_PROJECT_ID : option string.

(** The outcome of [translationClient.translateText(request)]: the call
    fails, or answers with its list of translations ([None] when the
    response or its list is missing; a missing text is the empty one). *)
Inductive client_outcome : Type :=
| ClientFails
| ClientAnswers (translations : option (list string)).

(** The provider's client, applied to [parent], [contents[0]] and
    [targetLanguageCode]. *)
Variable translationClient : string -> string -> string -> client_outcome.

(** The handler from its first check on, for the two strings that the
    destructuring of the body has given ([POST_request] below is the
    handler with its first statement). *)
Definition POST (text targetLanguage : string) : response :=
  if String.eqb text "" || String.eqb targetLanguage "" then
    Failure 400 "Both text and targetLanguage are required."
  else
    let location := "global" in
    match GOOGLE_CLOUD_PROJECT_ID with
    | None => Failure 500 "Google Cloud Project ID is not configured."
    | Some projectId =>
        if String.eqb projectId "" then
          Failure 500 "Google Cloud Project ID is not configured."
        else
          match translationClient
                  ("projects/" ++ projectId ++ "/locations/" ++ location)
                  text targetLanguage with
          | ClientFails => Failure 500 "An error occurred during translation."
          | ClientAnswers None | ClientAnswers (Some []) =>
              Failure 500 "Translation API returned an empty response."
          | ClientAnswers (Some (translatedText :: _)) =>
              if String.eqb translatedText "" then
                Failure 500 "Translated text is empty."
              else Success translatedText
          end
    end.

(** What the first statement of the handler,
    [const { text, targetLanguage } = await req.json()], makes of the
    body of a request: [req.json()] rejects (the body is not JSON); or it
    gives [null], and the destructuring throws; or the destructuring
    gives the two properties, [None] standing for one that the body does
    not have, or has as [null] (a body that is not an object has
    neither).  A property that
    is there is a string, as in every body that the page sends. *)
Inductive request_body : Type :=
| NotJson
| JsonNull
| Json (text targetLanguage : option string).


(** The whole handler: the first statement is inside the [try], so what
    it throws is answered by the [catch]; [POST] above is the rest of the
    handler. *)
Definition POST_request (body : request_body) : response :=
  match body with
  | NotJson | JsonNull => Failure 500 "An error occurred during translation."
  | Json text targetLanguage =>
      POST (match text with Some s => s | None => "" end)
           (match targetLanguage with Some s => s | None => "" end)
  end.

(** [fetch] when the page talks to this route; the body that the page
    sends is [JSON.stringify({ text, targetLanguage })]. *)
Definition fetch_route (log : list request) (text targetLanguage : string)
  : fetch_outcome :=
  Resolved (POST text targetLanguage).

End Route.

(** ** Sample identifiers and providers for the examples *)

Definition sample_uuid (n : nat) : string :=
  nth n ["110ec58a-a0f2-4ac4-8393-c866d813b8d1";
         "7d444840-9dc0-41d1-b245-5ffdce74fad2";
         "e902893a-9d22-4c7e-a7b8-d6e313b71d9f";
         "1b9d6bcd-bbfd-4b2d-9b5d-ab8dfbbd4bed"]
      "9b1deb4d-3b7d-4bad-9bdd-2b0d7b3dcb6d".

(** A provider that echoes the text it is given. *)
Definition echo (log : list request) (text lang : string) : fetch_outcome :=
  Resolved (Success text).

Definition w0 : world := mkWorld 0 [].

(** ** Vocabulary of the properties *)

(** [occurs c s]: the character [c] occurs in [s]. *)
Fixpoint occurs (c : ascii) (s : string) : bool :=
  match s with
  | EmptyString => false
  | String d s' => Ascii.eqb c d || occurs c s'
  end.

(** The characters of a version-4 identifier: lower-case hexadecimal
    digits and the hyphen. *)
Definition uuid_char (c : ascii) : bool :=
  let n := nat_of_ascii c in
  (Nat.leb 48 n && Nat.leb n 57) || (Nat.leb 97 n && Nat.leb n 102)
  || Nat.eqb n 45.

Fixpoint all_chars (p : ascii -> bool) (s : string) : bool :=
  match s with
  | EmptyString => true
  | String c s' => p c && all_chars p s'
  end.

(** [is_uuid s]: [s] has the form of the identifiers that [uuidv4] returns,
    36 characters that are hexadecimal digits or hyphens. *)
Definition is_uuid (s : string) : bool :=
  Nat.eqb (String.length s) 36 && all_chars uuid_char s.

(** Keys pairwise distinct. *)
Fixpoint distinct (ks : list string) : bool :=
  match ks with
  | [] => true
  | k :: ks' => negb (existsb (String.eqb k) ks') && distinct ks'
  end.

(** [wf_json d]: every object of [d] has pairwise distinct keys, as every
    value produced by [JSON.parse] has. *)
Fixpoint wf_json (d : json) : bool :=
  match d with
  | JArr items => forallb wf_json items
  | JObj entries =>
      distinct (map fst entries) && forallb (fun e => wf_json (snd e)) entries
  | _ => true
  end.

(** [flat_arrays d]: no array that the traversal of [d] reaches has an
    array among its items (values under ["original"] are not traversed). *)
Fixpoint flat_arrays (d : json) : bool :=
  match d with
  | JObj entries =>
      forallb
        (fun e =>
           String.eqb (fst e) "original" ||
           match snd e with
           | JArr items =>
               forallb
                 (fun item =>
                    match item with
                    | JArr _ => false
                    | JObj _ => flat_arrays item
                    | _ => true
                    end) items
           | JObj _ => flat_arrays (snd e)
           | _ => true
           end) entries
  | _ => true
  end.

(** [no_proto d]: no object that the traversal of [d] reaches has a
    property named ["__proto__"] (values under ["original"] are not
    traversed; the arrays among the items of an array are those that
    [flat_arrays] excludes). *)
Fixpoint no_proto (d : json) : bool :=
  match d with
  | JObj entries =>
      forallb
        (fun e =>
           negb (String.eqb (fst e) "__proto__") &&
           (String.eqb (fst e) "original" ||
            match snd e with
            | JArr items =>
                forallb
                  (fun item =>
                     match item with
                     | JObj _ => no_proto item
                     | _ => true
                     end) items
            | JObj _ => no_proto (snd e)
            | _ => true
            end)) entries
  | _ => true
  end.

(** [similar leaf a b]: [a] and [b] have the same structure (the same
    keys in the same order in every object, the same number of items in
    every array, the same scalars), except that two strings stored under
    the key ["translated"] need only be related by [leaf]. *)
Fixpoint similar (leaf : string -> string -> bool) (a b : json) {struct a}
  : bool :=
  match a, b with
  | JNull, JNull => true
  | JBool x, JBool y => Bool.eqb x y
  | JNum x, JNum y => Z.eqb x y
  | JStr x, JStr y => String.eqb x y
  | JArr xs, JArr ys =>
      (fix items (xs ys : list json) {struct xs} : bool :=
         match xs, ys with
         | [], [] => true
         | x :: xs', y :: ys' => similar leaf x y && items xs' ys'
         | _, _ => false
         end) xs ys
  | JObj es, JObj fs =>
      (fix entries (es fs : list (string * json)) {struct es} : bool :=
         match es, fs with
         | [], [] => true
         | (k, x) :: es', (k', y) :: fs' =>
             String.eqb k k' &&
             match String.eqb k "translated", x, y with
             | true, JStr s, JStr s' => leaf s s'
             | _, _, _ => similar leaf x y
             end && entries es' fs'
         | _, _ => false
         end) es fs
  | _, _ => false
  end.

(** The relation that [similar] puts on the values stored under the key
    [k] of two objects. *)
Definition similar_value (leaf : string -> string -> bool) (k : string)
    (x y : json) : bool :=
  match String.eqb k "translated", x, y with
  | true, JStr s, JStr s' => leaf s s'
  | _, _, _ => similar leaf x y
  end.

(** Same shape: the content of the ["translated"] strings is free. *)
Definition same_shape : json -> json -> bool := similar (fun _ _ => true).

(** The array index that a property name denotes, if it is the decimal
    numeral of one. *)
Definition array_index (k : string) : option nat :=
  match NilEmpty.uint_of_string k with
  | Some u =>
      let i := Nat.of_uint u in
      if String.eqb (Str.of_nat i) k then Some i else None
  | None => None
  end.

(** [v[k]] for a property name [k]: the property of an object, the item
    of an array; [None] stands for [undefined]. *)
Definition js_get (k : string) (v : json) : option json :=
  match v with
  | JObj entries => Obj.get k entries
  | JArr items =>
      match array_index k with
      | Some i => nth_error items i
      | None => None
      end
  | _ => None
  end.

(** The value at a position, given as the path of property names that
    lead to it. *)
Fixpoint get_path (p : list string) (v : json) : option json :=
  match p with
  | [] => Some v
  | k :: p' =>
      match js_get k v with
      | Some v' => get_path p' v'
      | None => None
      end
  end.

(** The value that one turn of the loop of [translateNestedJson] stores
    under its key. *)
Definition entry_value (uuidv4 : nat -> string)
    (fetch : list request -> string -> string -> fetch_outcome)
    (self : json -> M json) (targetLanguage key : string) (value : json)
  : M json :=
  try_catch
    (if String.eqb key "original" then ret value
     else
       match String.eqb key "translated", value with
       | true, JStr s =>
           '(text, ph) <- preprocessText uuidv4 s ;;
           if negb (String.eqb text "") then
             translatedText <- translateText fetch text targetLanguage ;;
             ret (JStr (postprocessText translatedText ph))
           else ret value
       | _, JArr items =>
           items' <- promise_all
                       (map (fun item =>
                               if is_object item then self item
                               else ret item) items) ;;
           ret (JArr items')
       | _, JObj _ => self value
       | _, _ => ret value
       end)
    (fun _ => ret value).

(** A request with a text and a language. *)
Definition request_ok (q : request) : Prop :=
  req_text q <> "" /\ req_lang q <> "".

(** [sends_ok w w']: from [w] to [w'] requests were only added to the log,
    each of them with a text and a language. *)
Definition sends_ok (w w' : world) : Prop :=
  exists new,
    requests w' = (new ++ requests w)%list /\ Forall request_ok new.

(** [quiet m]: whatever its outcome, [m] only sends such requests. *)
Definition quiet {A} (m : M A) : Prop :=
  forall w r w', m w = (r, w') -> sends_ok w w'.

(** [entries_run val es w out w']: running [val] on the entries [es] one
    after the other from the world [w] gives the values of [out], under
    the same keys in the same order, and ends in [w']. *)
Inductive entries_run (val : string -> json -> M json)
  : list (string * json) -> world -> list (string * json) -> world -> Prop :=
| run_nil (w : world) : entries_run val [] w [] w
| run_cons (k : string) (v v' : json) (es out : list (string * json))
    (w w1 w2 : world) :
    val k v w = (Ok v', w1) ->
    entries_run val es w1 out w2 ->
    entries_run val ((k, v) :: es) w ((k, v') :: out) w2.

(** The same for the items of an array. *)
Inductive items_run (f : json -> M json)
  : list json -> world -> list json -> world -> Prop :=
| items_nil (w : world) : items_run f [] w [] w
| items_cons (x x' : json) (xs xs' : list json) (w w1 w2 : world) :
    f x w = (Ok x', w1) ->
    items_run f xs w1 xs' w2 ->
    items_run f (x :: xs) w (x' :: xs') w2.

(** What [translateNestedJson] does with one item of an array. *)
Definition translate_item (self : json -> M json) (item : json) : M json :=
  if is_object item then self item else ret item.

(** [never_translated s]: wherever the string [s] is encoded, either its
    safe text is empty or [translateText] does not return for it. *)
Definition never_translated (uuidv4 : nat -> string)
    (fetch : list request -> string -> string -> fetch_outcome)
    (lang s : string) : Prop :=
  forall w t ph wa tt wb,
    preprocessText uuidv4 s w = (Ok (t, ph), wa) ->
    t <> "" ->
    translateText fetch t lang wa <> (Ok tt, wb).

(** [attempt uuidv4 fetch lang lo hi s s']: [s'] is what the string [s]
    becomes by an attempt of its own, made in the course of a run that
    leads from the world [lo] to the world [hi].  The string is encoded
    in a world [wx] that the run has reached; when its safe text is
    empty, [s'] is [s]; else [translateText] is called on the safe text,
    and [s'] is the decoded translation when it returns one, [s] itself
    when it throws. *)
Definition attempt (uuidv4 : nat -> string)
    (fetch : list request -> string -> string -> fetch_outcome)
    (lang : string) (lo hi : world) (s s' : string) : Prop :=
  exists wx t ph wa,
    sends_ok lo wx
    /\ preprocessText uuidv4 s wx = (Ok (t, ph), wa)
    /\ ((t = "" /\ s' = s /\ sends_ok wa hi)
        \/ (t <> ""
            /\ exists r wb,
                 translateText fetch t lang wa = (r, wb)
                 /\ sends_ok wb hi
                 /\ s' = match r with
                         | Ok translated => postprocessText translated ph
                         | Throw _ => s
                         | Exhausted => s
                         end)).

(** [anchored keeps p v]: the position [p] is that of a value [v] stored
    under the key ["original"], or of a string that [keeps] accepts stored
    under the key ["translated"]. *)
Definition anchored (keeps : string -> Prop) (p : list string) (v : json)
  : Prop :=
  p <> [] /\
  (last p "" = "original"
   \/ (last p "" = "translated" /\ exists s, v = JStr s /\ keeps s)).

(** An empty component state. *)
Definition page0 : page := mkPage None None false.

(** A provider's client that is never reached in the examples. *)
Definition no_client (parent text lang : string) : client_outcome :=
  ClientFails.

(** A provider that cannot be reached for the text ["Hello"]; it answers
    every other text with the text itself after the language between
    brackets. *)
Definition flaky (log : list request) (text lang : string) : fetch_outcome :=
  if String.eqb text "Hello" then Rejected (JsError "Failed to fetch")
  else Resolved (Success ("[" ++ lang ++ "] " ++ text)).

(** ** Marked-up strings

    The strings on which the codec is studied: a sequence of segments,
    each of them a piece of plain text, one of the four kinds of fragment
    that [preprocessText] extracts, or (in the safe text) a delimited
    identifier. *)

Inductive seg : Type :=
| Plain (t : string)
| Bold (c : string)
| Italic (c : string)
| Link (href c : string)
| Interp (c : string)
| Tok (id : string).

Definition render_seg (x : seg) : string :=
  match x with
  | Plain t => t
  | Bold c => "<b>" ++ c ++ "</b>"
  | Italic c => "<i>" ++ c ++ "</i>"
  | Link href c =>
      "<a href=" ++ String Regex.dquote href
      ++ String Regex.dquote ">" ++ c ++ "</a>"
  | Interp c => "${" ++ c ++ "}"
  | Tok id => delimited id
  end.

Fixpoint render (segs : list seg) : string :=
  match segs with
  | [] => EmptyString
  | x :: segs' => render_seg x ++ render segs'
  end.

(** The characters of plain text: any but [<], [$] and [{]. *)
Definition text_char (c : ascii) : bool :=
  negb (Ascii.eqb c "<" || Ascii.eqb c "$" || Ascii.eqb c "{").

(** The characters inside a fragment: those of plain text but [}], the
    double quote and the line terminators. *)
Definition inner_char (c : ascii) : bool :=
  text_char c
  && negb (Ascii.eqb c "}" || Ascii.eqb c Regex.dquote
           || Regex.is_line_terminator c).

(** [marked_up x]: a segment of a marked-up string, with plain text
    outside and inside its fragments (so no fragment holds another). *)
Definition marked_up (x : seg) : bool :=
  match x with
  | Plain t => all_chars text_char t
  | Bold c | Italic c | Interp c => all_chars inner_char c
  | Link href c => all_chars inner_char href && all_chars inner_char c
  | Tok _ => false
  end.

Definition is_fragment (x : seg) : bool :=
  match x with
  | Bold _ | Italic _ | Link _ _ | Interp _ => true
  | _ => false
  end.

(** The fragments of a marked-up string. *)
Definition fragments (segs : list seg) : list seg := filter is_fragment segs.

(** [fresh_ids uuidv4 n k]: the [k] identifiers handed out from the
    [n]-th on are well formed and pairwise different. *)
Definition fresh_ids (uuidv4 : nat -> string) (n k : nat) : bool :=
  forallb is_uuid (map uuidv4 (seq n k))
  && distinct (map uuidv4 (seq n k)).

(** [inert a b s]: wherever the character [a] occurs in [s], it is
    followed in [s] by a character other than [b]; so a text that begins
    with [a] and [b] starts nowhere in [s], whatever follows [s]. *)
Fixpoint inert (a b : ascii) (s : string) : bool :=
  match s with
  | EmptyString => true
  | String c s' =>
      (negb (Ascii.eqb c a)
       || match s' with
          | EmptyString => false
          | String d _ => negb (Ascii.eqb d b)
          end)
      && inert a b s'
  end.

(** The loop of a lazy group of [Regex.match_here], by its name. *)
Definition lazy_from (re' : Regex.t)
  : string -> string -> option (list string * nat) :=
  fix lazy (s taken : string) {struct s} : option (list string * nat) :=
    match Regex.match_here re' s with
    | Some (caps, n) => Some (taken :: caps, String.length taken + n)
    | None =>
        match s with
        | EmptyString => None
        | String c s' =>
            if Regex.is_line_terminator c then None
            else lazy s' (taken ++ String c EmptyString)
        end
    end.

(** One pass of the encoder on segments: the segments of the kind that
    the pass extracts become delimited identifiers, drawn from the [n]-th
    on; the pairs are what the pass records. *)
Fixpoint tokenize (kind : seg -> bool) (uuidv4 : nat -> string) (n : nat)
    (segs : list seg) : list seg * list (string * seg) :=
  match segs with
  | [] => ([], [])
  | x :: segs' =>
      if kind x then
        let '(out, pairs) := tokenize kind uuidv4 (S n) segs' in
        (Tok (uuidv4 n) :: out, (uuidv4 n, x) :: pairs)
      else
        let '(out, pairs) := tokenize kind uuidv4 n segs' in
        (x :: out, pairs)
  end.

(** [o[id] = fragment] for each recorded pair, in order. *)
Definition record_all (pairs : list (string * seg)) (ph : placeholders)
  : placeholders :=
  fold_left (fun ph p => Obj.set (fst p) (render_seg (snd p)) ph) pairs ph.

(** Replace the first segment [Tok id] by [x]. *)
Fixpoint restore (id : string) (x : seg) (segs : list seg) : list seg :=
  match segs with
  | [] => []
  | Tok id' :: segs' =>
      if String.eqb id id' then x :: segs' else Tok id' :: restore id x segs'
  | y :: segs' => y :: restore id x segs'
  end.

Definition is_bold (x : seg) : bool :=
  match x with Bold _ => true | _ => false end.
Definition is_italic (x : seg) : bool :=
  match x with Italic _ => true | _ => false end.
Definition is_link (x : seg) : bool :=
  match x with Link _ _ => true | _ => false end.
Definition is_interp (x : seg) : bool :=
  match x with Interp _ => true | _ => false end.

(** The identifiers of the delimited identifiers of a safe text. *)
Fixpoint tok_ids (segs : list seg) : list string :=
  match segs with
  | [] => []
  | Tok id :: segs' => id :: tok_ids segs'
  | _ :: segs' => tok_ids segs'
  end.

(** The segments of a safe text: those of a marked-up string, and
    well-formed delimited identifiers. *)
Definition safe_seg (x : seg) : bool :=
  match x with
  | Tok id => is_uuid id
  | _ => marked_up x
  end.

(** [restore] for each recorded pair, in order. *)
Definition restore_all (pairs : list (string * seg)) (segs : list seg)
  : list seg :=
  fold_left (fun cur p => restore (fst p) (snd p) cur) pairs segs.

(** The four passes of [preprocessText] on segments: the safe text and
    the pairs recorded, when the identifiers are drawn from the [n]-th
    on. *)
Definition encode_segments (uuidv4 : nat -> string) (n : nat)
    (segs : list seg) : list seg * list (string * seg) :=
  let t1 := tokenize is_bold uuidv4 n segs in
  let P1 := snd t1 in
  let t2 := tokenize is_italic uuidv4 (n + List.length P1) (fst t1) in
  let P2 := (P1 ++ snd t2)%list in
  let t3 := tokenize is_link uuidv4 (n + List.length P2) (fst t2) in
  let P3 := (P2 ++ snd t3)%list in
  let t4 := tokenize is_interp uuidv4 (n + List.length P3) (fst t3) in
  (fst t4, (P3 ++ snd t4)%list).

(** [agree pairs cur orig]: the safe text [cur] is [orig] with some of its
    segments replaced by the delimited identifiers under which [pairs]
    holds them. *)
Definition agree (pairs : list (string * seg)) (cur orig : list seg) : Prop :=
  Forall2 (fun c o => c = o \/ exists id, c = Tok id /\ In (id, o) pairs)
    cur orig.

(** [stage uuidv4 n0 orig cur pairs]: what holds of the safe text [cur]
    and of the pairs recorded so far, between two passes of the encoder
    on the marked-up string [orig], when the identifiers are drawn from
    the [n0]-th on. *)
Definition stage (uuidv4 : nat -> string) (n0 : nat) (orig cur : list seg)
    (pairs : list (string * seg)) : Prop :=
  forallb safe_seg cur = true
  /\ agree pairs cur orig
  /\ (forall id, In id (tok_ids cur) -> In id (map fst pairs))
  /\ NoDup (tok_ids cur)
  /\ map fst pairs = map uuidv4 (seq n0 (List.length pairs))
  /\ forallb (fun p => marked_up (snd p)) pairs = true
  /\ List.length pairs + List.length (fragments cur)
     = List.length (fragments orig).

(** ** The handlers and the controls of the component *)

(** A file as the handlers see it: its [type], and the text that
    [readAsText] reads from it ([None] when the reader fails). *)
Record file : Type := mkFile {
  file_type : string;
  file_text : option string
}.



(** The state of [TranslationSystem]: the text of the input area, the
    selected language, and the part that [processTranslations] writes. *)
Record component : Type := mkComponent {
  inputJson : string;
  targetLanguage : string;
  view : page
}.

Definition setInputJson (s : string) (c : component) : component :=
  mkComponent s (targetLanguage c) (view c).


Definition setError (e : option string) (c : component) : component :=
  mkComponent (inputJson c) (targetLanguage c)
    (mkPage (outputJson (view c)) e (isProcessing (view c))).

(** The initial values of the [useState] calls. *)
Definition component0 : component := mkComponent "" "es" page0.

Section Component.

Variable uuidv4 : nat -> string.
Variable fetch : list request -> string -> string -> fetch_outcome.

(** [JSON.parse] on a text. *)
Variable parse : string -> parse_outcome.

(** [handleFileUpload], with the completion of the read ([onload] or
    [onerror]) taken in the same step; [files] is [event.target.files]. *)
Definition handleFileUpload (files : list file) (c : component)
  : component :=
  match files with
  | [] => setError (Some "No file selected") c
  | file :: _ =>
      if negb (String.eqb (file_type file) "application/json") then
        setError (Some "Please upload a JSON file") c
      else
        match file_text file with
        | Some content =>
            match parse content with
            | Parsed _ => setError None (setInputJson content c)
            | SyntaxError _ =>
                setInputJson "" (setError (Some "Invalid JSON file") c)
            end
        | None => setInputJson "" (setError (Some "Error reading file") c)
        end
  end.


(** [handleDrop]; [files] is [event.dataTransfer.files] and [attached]
    tells whether [fileInputRef.current] is set. *)
Definition handleDrop (files : list file) (attached : bool) (c : component)
  : component :=
  match files with
  | file :: _ =>
      if String.eqb (file_type file) "application/json" then
        if attached then handleFileUpload files c else c
      else setError (Some "Please drop a JSON file") c
  | [] => setError (Some "Please drop a JSON file") c
  end.

(** A click on the Translate button, which is disabled when
    [!inputJson || isProcessing]. *)
Definition clickTranslate (c : component) (w : world) : component * world :=
  if String.eqb (inputJson c) "" || isProcessing (view c) then (c, w)
  else
    let (p, w') :=
      processTranslations uuidv4 fetch (parse (inputJson c))
        (targetLanguage c) (view c) w in
    (mkComponent (inputJson c) (targetLanguage c) p, w').

(** *** The component over time

    The handlers above take an upload with the end of the read, and a
    click with the end of the run.  In the component the read and the
    run are asynchronous: other events may come before they end.  Below,
    the end of a read and the end of a run are events of their own. *)

(** The part of [handleFileUpload] that runs at once: the file is
    refused, or [readAsText] is started. *)
Definition uploadStarted (files : list file) (c : component) : component :=
  match files with
  | [] => setError (Some "No file selected") c
  | file :: _ =>
      if negb (String.eqb (file_type file) "application/json") then
        setError (Some "Please upload a JSON file") c
      else c
  end.

(** [reader.onload], for the text [content]. *)
Definition readerLoaded (content : string) (c : component) : component :=
  match parse content with
  | Parsed _ => setError None (setInputJson content c)
  | SyntaxError _ => setInputJson "" (setError (Some "Invalid JSON file") c)
  end.

(** [reader.onerror] *)
Definition readerFailed (c : component) : component :=
  setInputJson "" (setError (Some "Error reading file") c).


(** The start of [processTranslations]:
    [setIsProcessing(true); setError(null)]. *)
Definition startTranslations (c : component) : component :=
  mkComponent (inputJson c) (targetLanguage c)
    (mkPage (outputJson (view c)) None true).

(** The end of the run that a click has started with the input
    [input] and the language [lang] (the values that the handler closed
    over): the branch of [processTranslations] that the outcome selects,
    then [setIsProcessing(false)], on the component as it is by then. *)
Definition settleTranslations (input lang : string) (c : component)
    (w : world) : component * world :=
  match (data <- JSON_parse (parse input) ;;
         Translate uuidv4 fetch data lang) w with
  | (Ok translatedData, w') =>
      (mkComponent (inputJson c) (targetLanguage c)
         (mkPage (Some translatedData) (error (view c)) false), w')
  | (Throw (JsError message), w') =>
      (mkComponent (inputJson c) (targetLanguage c)
         (mkPage None (Some ("Error processing translations: " ++ message))
            false), w')
  | (Throw NonError, w') =>
      (mkComponent (inputJson c) (targetLanguage c)
         (mkPage (outputJson (view c)) (error (view c)) false), w')
  | (Exhausted, w') => (c, w')
  end.





End Component.

(** A reader of three texts, for the examples. *)
Definition sample_parse (s : string) : parse_outcome :=
  if String.eqb s "{}" then Parsed (JObj [])
  else if String.eqb s "[1,2]" then Parsed (JArr [JNum 1; JNum 2])
  else if String.eqb s "null" then Parsed JNull
  else SyntaxError "Unexpected token".

(** ** The variant of the route that also asks for credentials *)

(** Its answers: a failure may carry the message of the error caught. *)
Inductive response_v2 : Type :=
| Failure_v2 (status : nat) (message : string) (detail : option string)
| Success_v2 (translatedText : string).

(** The outcome of its call of the provider's client: the call throws,
    or answers with a response whose [translations] is missing or a
    list. *)
Inductive client_outcome_v2 : Type :=
| ClientThrows (e : exn)
| ClientReturns (translations : option (list string)).

Section RouteV2.

Variable GOOGLE_CLOUD_PROJECT_ID : option string.
Variable GOOGLE_APPLICATION_CREDENTIALS : option string.

(** The client, applied to [parent], [contents[0]], [sourceLanguageCode]
    and [targetLanguageCode]. *)
Variable translationClient :
  string -> string -> string -> string -> client_outcome_v2.

(** The message of the TypeError that reading [translations[0]] of a
    response without [translations] throws. *)
Variable type_error : string.

(** [!v] for an environment variable. *)
Definition unset (v : option string) : bool :=
  match v with
  | None => true
  | Some s => String.eqb s ""
  end.

(** [POST] of the variant; [sourceLanguage] is [None] when the body has
    no such property; the result is [None] when the handler returns
    nothing. *)
Definition POST_v2 (text targetLanguage : string)
    (sourceLanguage : option string) : option response_v2 :=
  let sourceLanguage :=
    match sourceLanguage with
    | Some l => l
    | None => "en"
    end in
  if String.eqb text "" || String.eqb targetLanguage "" then
    Some (Failure_v2 400 "Both 'text' and 'targetLanguage' are required."
            None)
  else
    match GOOGLE_CLOUD_PROJECT_ID with
    | Some projectId =>
        if unset GOOGLE_APPLICATION_CREDENTIALS || String.eqb projectId ""
        then Some (Failure_v2 500 "Missing Google Cloud configuration." None)
        else
          match translationClient
                  ("projects/" ++ projectId ++ "/locations/global")
                  text sourceLanguage targetLanguage with
          | ClientThrows (JsError message) =>
              Some (Failure_v2 500 "Error translating text" (Some message))
          | ClientThrows NonError => None
          | ClientReturns None =>
              Some (Failure_v2 500 "Error translating text"
                      (Some type_error))
          | ClientReturns (Some []) =>
              Some (Failure_v2 500
                      "Translation API returned an empty response." None)
          | ClientReturns (Some (translatedText :: _)) =>
              if String.eqb translatedText "" then
                Some (Failure_v2 500
                        "Translation API returned an empty response." None)
              else Some (Success_v2 translatedText)
          end
    | None => Some (Failure_v2 500 "Missing Google Cloud configuration." None)
    end.

End RouteV2.

(** What the route sees of an outcome of the variant's client. *)
Definition forget (o : client_outcome_v2) : client_outcome :=
  match o with
  | ClientThrows _ => ClientFails
  | ClientReturns translations => ClientAnswers translations
  end.

(** ** Vocabulary of the properties of a whole run *)

(** [every_translated P d]: every string that the traversal of [d] meets
    under a key ["translated"] satisfies [P] (values under ["original"]
    are not traversed). *)
Fixpoint every_translated (P : string -> Prop) (d : json) : Prop :=
  match d with
  | JArr items =>
      (fix all (l : list json) : Prop :=
         match l with
         | [] => True
         | x :: l' => every_translated P x /\ all l'
         end) items
  | JObj entries =>
      (fix all (l : list (string * json)) : Prop :=
         match l with
         | [] => True
         | (k, v) :: l' =>
             (if String.eqb k "original" then True
              else
                match String.eqb k "translated", v with
                | true, JStr s => P s
                | _, _ => every_translated P v
                end)
             /\ all l'
         end) entries
  | _ => True
  end.

(** What [every_translated] asks of the value [v] stored under [k]. *)
Definition translated_entry (P : string -> Prop) (k : string) (v : json)
  : Prop :=
  if String.eqb k "original" then True
  else
    match String.eqb k "translated", v with
    | true, JStr s => P s
    | _, _ => every_translated P v
    end.

(** [marked_string K s]: [s] is a marked-up string with at most [K]
    fragments. *)
Definition marked_string (K : nat) (s : string) : Prop :=
  exists segs,
    forallb marked_up segs = true
    /\ List.length (fragments segs) <= K
    /\ s = render segs.

(** [echoes fetch lang]: a translation that the provider gives for the
    language [lang] is the text it was sent. *)
Definition echoes
    (fetch : list request -> string -> string -> fetch_outcome)
    (lang : string) : Prop :=
  forall log text t, fetch log text lang = Resolved (Success t) -> t = text.

(** [sends_in lang w w']: from [w] to [w'] requests were only added to
    the log, each of them for the language [lang]. *)
Definition sends_in (lang : string) (w w' : world) : Prop :=
  exists new,
    requests w' = (new ++ requests w)%list
    /\ Forall (fun q => req_lang q = lang) new.

(** [speaks lang m]: whatever its outcome, [m] only sends requests for
    the language [lang]. *)
Definition speaks {A} (lang : string) (m : M A) : Prop :=
  forall w r w', m w = (r, w') -> sends_in lang w w'.

(** [to_translate d]: the strings that a run on the object [d] has to
    translate, in the order of the document: the strings that are not
    empty, stored under a key ["translated"], outside the values stored
    under ["original"]; the objects among the items of an array are
    searched (an array among them would be too: [flat_arrays] excludes
    them). *)
Fixpoint to_translate (d : json) : list string :=
  match d with
  | JObj entries =>
      flat_map
        (fun e =>
           if String.eqb (fst e) "original" then []
           else
             match String.eqb (fst e) "translated", snd e with
             | true, JStr s => if String.eqb s "" then [] else [s]
             | _, JArr items =>
                 flat_map
                   (fun item =>
                      match item with
                      | JObj _ => to_translate item
                      | _ => []
                      end) items
             | _, JObj _ => to_translate (snd e)
             | _, _ => []
             end) entries
  | _ => []
  end.

(** The part of [to_translate] for the value [v] stored under [k]. *)
Definition entry_strings (k : string) (v : json) : list string :=
  if String.eqb k "original" then []
  else
    match String.eqb k "translated", v with
    | true, JStr s => if String.eqb s "" then [] else [s]
    | _, JArr items =>
        flat_map
          (fun item =>
             match item with
             | JObj _ => to_translate item
             | _ => []
             end) items
    | _, JObj _ => to_translate v
    | _, _ => []
    end.

(** [sends_exactly n m]: [m] returns, and sends exactly [n] requests. *)
Definition sends_exactly {A} (n : nat) (m : M A) : Prop :=
  forall w, exists a new w',
    m w = (Ok a, w')
    /\ requests w' = (new ++ requests w)%list
    /\ List.length new = n.

(** * Properties *)

(** ** Strings and objects *)

Lemma append_nil_r (s : string) : s ++ "" = s.
Proof. induction s as [|c s IH]; simpl; [reflexivity | now rewrite IH]. Qed.

Lemma append_assoc (a b c : string) : (a ++ b) ++ c = a ++ (b ++ c).
Proof. induction a as [|x a IH]; simpl; [reflexivity | now rewrite IH]. Qed.

Lemma strip_prefix_app (p s : string) : Str.strip_prefix p (p ++ s) = Some s.
Proof.
  induction p as [|a p IH]; simpl; [reflexivity|].
  now rewrite Ascii.eqb_refl.
Qed.

Lemma strip_prefix_sound (p s r : string) :
  Str.strip_prefix p s = Some r -> s = p ++ r.
Proof.
  revert s; induction p as [|a p IH]; intros s; simpl.
  - now intros [= ->].
  - destruct s as [|b s]; [discriminate|].
    destruct (Ascii.eqb a b) eqn:E; [|discriminate].
    apply Ascii.eqb_eq in E; subst b.
    intros H; now rewrite (IH _ H).
Qed.

Lemma split_first_here (p s : string) :
  Str.split_first p (p ++ s) = Some ("", s).
Proof.
  destruct (p ++ s) eqn:E; simpl; rewrite <- E, strip_prefix_app; reflexivity.
Qed.

Lemma split_first_sound (p s before after : string) :
  Str.split_first p s = Some (before, after) -> s = before ++ p ++ after.
Proof.
  revert before; induction s as [|c s IH]; intros before; simpl.
  - destruct (Str.strip_prefix p "") eqn:E; [|discriminate].
    intros [= <- <-]. now apply strip_prefix_sound in E.
  - destruct (Str.strip_prefix p (String c s)) eqn:E.
    + intros [= <- <-]. now apply strip_prefix_sound in E.
    + destruct (Str.split_first p s) as [[b a]|]; [|discriminate].
      intros [= <- <-]. simpl. now rewrite (IH b eq_refl).
Qed.

Lemma occurs_app (c : ascii) (a b : string) :
  occurs c (a ++ b) = occurs c a || occurs c b.
Proof.
  induction a as [|x a IH]; simpl; [reflexivity|].
  now rewrite IH, orb_assoc.
Qed.

(** A replacement text without a dollar sign is inserted as it is. *)
Lemma get_substitution_plain (m b a repl : string) :
  occurs "$" repl = false -> Str.get_substitution m b a repl = repl.
Proof.
  induction repl as [|c r IH]; cbn [Str.get_substitution occurs];
    [reflexivity|].
  intros H. apply orb_false_iff in H as [Hc Hr].
  rewrite Ascii.eqb_sym, Hc. now rewrite IH.
Qed.

Lemma obj_set_fresh {A} (k : string) (v : A) (o : Obj.t A) :
  ~ In k (Obj.keys o) -> Obj.set k v o = (o ++ [(k, v)])%list.
Proof.
  induction o as [|[k' v'] o IH]; simpl; [reflexivity|].
  intros H. destruct (String.eqb k k') eqn:E.
  - apply String.eqb_eq in E. exfalso; apply H; left; now symmetry.
  - rewrite IH; [reflexivity|]. intros Hin; apply H; now right.
Qed.

(** ** Assignments and the key ["__proto__"] *)

Lemma assign_own {A} (k : string) (v : A) (o : Obj.t A) :
  k <> "__proto__" -> Obj.assign k v o = Obj.set k v o.
Proof.
  intros H. unfold Obj.assign. apply String.eqb_neq in H. now rewrite H.
Qed.

Lemma own_all {A} (o : Obj.t A) :
  ~ In "__proto__" (Obj.keys o) -> Obj.own o = o.
Proof.
  unfold Obj.own, Obj.keys.
  induction o as [|[k v] o IH]; cbn [map fst In filter]; [reflexivity|].
  intros H. destruct (String.eqb k "__proto__") eqn:E; cbn [negb].
  - apply String.eqb_eq in E. subst k. exfalso. apply H. now left.
  - rewrite IH; [reflexivity|]. intros Hin. apply H. now right.
Qed.

Lemma get_own {A} (k : string) (o : Obj.t A) :
  k <> "__proto__" -> Obj.get k (Obj.own o) = Obj.get k o.
Proof.
  intros Hk. unfold Obj.own.
  induction o as [|[k' v] o IH]; cbn [filter fst Obj.get]; [reflexivity|].
  destruct (String.eqb k' "__proto__") eqn:E; cbn [negb Obj.get].
  - apply String.eqb_eq in E. subst k'.
    apply String.eqb_neq in Hk. now rewrite Hk.
  - now rewrite IH.
Qed.

Lemma own_keys {A} (o : Obj.t A) :
  ~ In "__proto__" (Obj.keys (Obj.own o)).
Proof.
  unfold Obj.own, Obj.keys. rewrite in_map_iff. intros ((k & v) & E & Hin).
  cbn [fst] in E. subst k. apply filter_In in Hin as [_ Hin].
  cbn [fst] in Hin. discriminate Hin.
Qed.

Lemma distinct_NoDup (ks : list string) : distinct ks = true <-> NoDup ks.
Proof.
  induction ks as [|k ks IH]; simpl.
  - split; [constructor | reflexivity].
  - rewrite andb_true_iff, negb_true_iff, IH. split.
    + intros [Hn Hd]. constructor; [|assumption].
      intros Hin. assert (existsb (String.eqb k) ks = true) as E.
      { apply existsb_exists. exists k. split; [assumption|apply String.eqb_refl]. }
      congruence.
    + intros H; inversion H as [|? ? Hn Hd]; subst. split; [|assumption].
      destruct (existsb (String.eqb k) ks) eqn:E; [|reflexivity].
      apply existsb_exists in E as [x [Hx Ex]]. apply String.eqb_eq in Ex.
      subst x. contradiction.
Qed.

(** ** The identifiers *)

Lemma uuid_char_plain (c : ascii) :
  uuid_char c = true -> Ascii.eqb "<" c = false /\ Ascii.eqb "$" c = false.
Proof.
  destruct c as [[] [] [] [] [] [] [] []]; vm_compute; intros H;
    first [discriminate H | split; reflexivity].
Qed.

Lemma is_uuid_plain (id : string) :
  is_uuid id = true -> occurs "<" id = false /\ occurs "$" id = false.
Proof.
  unfold is_uuid. rewrite andb_true_iff. intros [_ H].
  induction id as [|c id IH]; cbn [all_chars occurs] in *; [now split|].
  apply andb_true_iff in H as [Hc Hid].
  destruct (uuid_char_plain c Hc) as [-> ->].
  destruct (IH Hid) as [-> ->]. now split.
Qed.

Lemma delimited_plain (id : string) :
  is_uuid id = true ->
  occurs "<" (delimited id) = false /\ occurs "$" (delimited id) = false.
Proof.
  intros H. destruct (is_uuid_plain id H) as [H1 H2].
  unfold delimited. rewrite !occurs_app, H1, H2. now split.
Qed.

(** ** The markup codec *)

Section Codec.

Variable uuidv4 : nat -> string.

(** A pattern that starts with a character absent from the subject
    matches nowhere: the pass returns the subject and records nothing. *)
Lemma replace_all_absent (c : ascii) (l : string) (re : Regex.t)
    (rebuild : list string -> string) (s : string) (ph : placeholders)
    (w : world) :
  occurs c s = false ->
  replace_all uuidv4 (Regex.Lit (String c l) :: re) rebuild s 0 ph w
  = (Ok (s, ph), w).
Proof.
  revert w; induction s as [|d s IH]; intros w H;
    cbn [replace_all Regex.match_here Str.strip_prefix occurs] in *.
  - reflexivity.
  - apply orb_false_iff in H as [Hc Hs].
    rewrite Hc. unfold bind. rewrite (IH w Hs). reflexivity.
Qed.

(** The italic, hyperlink and interpolation passes leave a text without
    [<] and [$] as it is. *)
Lemma later_passes_inert (s : string) (ph : placeholders) (w : world) :
  occurs "<" s = false -> occurs "$" s = false ->
  (* italic *)
  replace_all uuidv4 Regex.italic
    (fun caps => "<i>" ++ capture 0 caps ++ "</i>") s 0 ph w = (Ok (s, ph), w)
  /\ replace_all uuidv4 Regex.link
    (fun caps =>
       "<a href=" ++ String Regex.dquote (capture 0 caps)
       ++ String Regex.dquote ">" ++ capture 1 caps ++ "</a>") s 0 ph w
     = (Ok (s, ph), w)
  /\ replace_all uuidv4 Regex.interpolation
    (fun caps => "${" ++ capture 0 caps ++ "}") s 0 ph w = (Ok (s, ph), w).
Proof.
  intros H1 H2. repeat split.
  - apply (replace_all_absent "<"); assumption.
  - apply (replace_all_absent "<"); assumption.
  - apply (replace_all_absent "$"); assumption.
Qed.

End Codec.

(** C9.  Non-greedy bold matching: on ["<b>a</b>x<b>c</b>"] the encoder
    records exactly two fragments, ["<b>a</b>"] and ["<b>c</b>"], each
    under its own identifier, and the safe text is the two delimited
    identifiers with ["x"] between them.  The identifiers are the next two
    that the uuid source hands out, well formed and different. *)
Theorem preprocess_two_bold_fragments (uuidv4 : nat -> string) (w : world) :
  is_uuid (uuidv4 (next_id w)) = true ->
  is_uuid (uuidv4 (S (next_id w))) = true ->
  uuidv4 (next_id w) <> uuidv4 (S (next_id w)) ->
  preprocessText uuidv4 "<b>a</b>x<b>c</b>" w
  = (Ok (delimited (uuidv4 (next_id w)) ++ "x"
         ++ delimited (uuidv4 (S (next_id w))),
         [(uuidv4 (next_id w), "<b>a</b>");
          (uuidv4 (S (next_id w)), "<b>c</b>")]),
     mkWorld (S (S (next_id w))) (requests w)).
Proof.
  intros U1 U2 Hne.
  destruct (delimited_plain _ U1) as [A1 B1].
  destruct (delimited_plain _ U2) as [A2 B2].
  set (id1 := uuidv4 (next_id w)) in *.
  set (id2 := uuidv4 (S (next_id w))) in *.
  set (safe := delimited id1 ++ "x" ++ delimited id2).
  assert (occurs "<" safe = false /\ occurs "$" safe = false) as [HA HB].
  { unfold safe. rewrite !occurs_app, A1, A2, B1, B2. now split. }
  assert (Obj.set id2 "<b>c</b>" [(id1, "<b>a</b>")]
          = [(id1, "<b>a</b>"); (id2, "<b>c</b>")]) as Hset.
  { cbn [Obj.set]. destruct (String.eqb id2 id1) eqn:E; [|reflexivity].
    apply String.eqb_eq in E. congruence. }
  unfold preprocessText.
  assert (replace_all uuidv4 Regex.bold
            (fun caps => "<b>" ++ capture 0 caps ++ "</b>")
            "<b>a</b>x<b>c</b>" 0 [] w
          = (Ok (safe, Obj.set id2 "<b>c</b>" [(id1, "<b>a</b>")]),
             mkWorld (S (S (next_id w))) (requests w))) as Hbold.
  { unfold safe. rewrite <- (append_nil_r (delimited id2)).
    unfold id1, id2. cbv. reflexivity. }
  unfold bind at 1. rewrite Hbold, Hset.
  destruct (later_passes_inert uuidv4 safe
              [(id1, "<b>a</b>"); (id2, "<b>c</b>")]
              (mkWorld (S (S (next_id w))) (requests w)) HA HB)
    as [Hi [Hl Hv]].
  unfold bind. rewrite Hi, Hl, Hv. reflexivity.
Qed.

Lemma preprocess_two_bold_fragments_witness :
  preprocessText sample_uuid "<b>a</b>x<b>c</b>" w0
  = (Ok ("{{110ec58a-a0f2-4ac4-8393-c866d813b8d1}}x{{7d444840-9dc0-41d1-b245-5ffdce74fad2}}",
         [("110ec58a-a0f2-4ac4-8393-c866d813b8d1", "<b>a</b>");
          ("7d444840-9dc0-41d1-b245-5ffdce74fad2", "<b>c</b>")]),
     mkWorld 2 []).
Proof.
  apply (preprocess_two_bold_fragments sample_uuid w0);
    [reflexivity | reflexivity | discriminate].
Defined.

(** A text without [<] and [$] holds no fragment: it is its own safe text
    and nothing is recorded. *)
Lemma preprocess_plain (uuidv4 : nat -> string) (s : string) (w : world) :
  occurs "<" s = false -> occurs "$" s = false ->
  preprocessText uuidv4 s w = (Ok (s, []), w).
Proof.
  intros HA HB. unfold preprocessText.
  assert (replace_all uuidv4 Regex.bold
            (fun caps => "<b>" ++ capture 0 caps ++ "</b>") s 0 [] w
          = (Ok (s, []), w)) as Hbold
    by (apply (replace_all_absent uuidv4 "<"); assumption).
  unfold bind at 1. rewrite Hbold.
  destruct (later_passes_inert uuidv4 s [] w HA HB) as [Hi [Hl Hv]].
  unfold bind. rewrite Hi, Hl, Hv. reflexivity.
Qed.

(** [postprocessText] handles the pairs one after the other, each on the
    text that the pairs before it have produced. *)
Lemma postprocess_cons (text id content : string) (ph : placeholders) :
  postprocessText text ((id, content) :: ph)
  = postprocessText (Str.replace_first (delimited id) content text) ph.
Proof. reflexivity. Qed.

(** A pair whose delimited identifier does not occur changes nothing (and
    nothing is thrown: [postprocessText] is a total function). *)
Lemma postprocess_missing_token (text id content : string) :
  Str.split_first (delimited id) text = None ->
  postprocessText text [(id, content)] = text.
Proof.
  intros H. cbn [postprocessText fold_left]. unfold Str.replace_first.
  now rewrite H.
Qed.

(** [split_first] finds the first occurrence: the pattern starts at no
    earlier position. *)
Lemma split_first_earliest (p s before after : string) :
  Str.split_first p s = Some (before, after) ->
  forall b1 c b2, before = b1 ++ String c b2 ->
  Str.strip_prefix p (String c b2 ++ p ++ after) = None.
Proof.
  revert before; induction s as [|x s IH]; intros before;
    cbn [Str.split_first].
  - destruct (Str.strip_prefix p ""); [|discriminate].
    intros [= <- <-] b1 c b2 E. destruct b1; discriminate.
  - destruct (Str.strip_prefix p (String x s)) eqn:E.
    + intros [= <- <-] b1 c b2 E'. destruct b1; discriminate.
    + destruct (Str.split_first p s) as [[b a]|] eqn:Es; [|discriminate].
      intros [= <- <-] b1 c b2 E'.
      destruct b1 as [|y b1]; cbn [append] in E'.
      * injection E' as Hx Hb. subst x b.
        rewrite (split_first_sound _ _ _ _ Es) in E. exact E.
      * injection E' as Hx Hb. subst x b. now apply (IH _ eq_refl b1).
Qed.

(** With a fragment that holds no dollar sign, one pair replaces the first
    occurrence of its delimited identifier by the fragment and nothing
    else. *)
Lemma postprocess_first_occurrence (text id content before after : string) :
  Str.split_first (delimited id) text = Some (before, after) ->
  occurs "$" content = false ->
  postprocessText text [(id, content)] = before ++ content ++ after.
Proof.
  intros H Hc. cbn [postprocessText fold_left]. unfold Str.replace_first.
  now rewrite H, get_substitution_plain.
Qed.

Lemma postprocess_expands_dollar_aux (id : string) :
  postprocessText (delimited id) [(id, "<b>$$</b>")] = "<b>$</b>".
Proof.
  cbn [postprocessText fold_left]. unfold Str.replace_first.
  rewrite <- (append_nil_r (delimited id)) at 2.
  rewrite split_first_here. reflexivity.
Qed.

(** C5.  Decoding one pair.  When the delimited identifier does not occur
    in the text, the text is returned as it is; when it occurs and the
    fragment holds no dollar sign, its first occurrence (the delimited
    identifier starts nowhere before it), and only that, is replaced by
    the fragment.  But a fragment is used as a replacement
    pattern: with the fragment ["<b>$$</b>"] the delimited identifier is
    replaced by ["<b>$</b>"], not by the fragment. *)
Theorem postprocess_expands_dollar (id text content : string) :
  (postprocessText (delimited id) [(id, "<b>$$</b>")] = "<b>$</b>"
   /\ "<b>$</b>" <> "<b>$$</b>")
  /\ (Str.split_first (delimited id) text = None ->
      postprocessText text [(id, content)] = text)
  /\ (forall before after,
        Str.split_first (delimited id) text = Some (before, after) ->
        occurs "$" content = false ->
        text = before ++ delimited id ++ after
        /\ (forall b1 c b2, before = b1 ++ String c b2 ->
            Str.strip_prefix (delimited id)
              (String c b2 ++ delimited id ++ after) = None)
        /\ postprocessText text [(id, content)] = before ++ content ++ after).
Proof.
  split; [split; [apply postprocess_expands_dollar_aux | discriminate]|].
  split; [apply postprocess_missing_token|].
  intros before after H Hc. split; [|split].
  - now apply split_first_sound.
  - now apply (split_first_earliest _ text).
  - now apply postprocess_first_occurrence.
Qed.

(** C4.  Encoding ["<b>$$</b>"] and decoding the safe text as it is does
    not give the string back: the result is ["<b>$</b>"]. *)
Theorem roundtrip_loses_dollar (uuidv4 : nat -> string) (w : world) :
  is_uuid (uuidv4 (next_id w)) = true ->
  exists text ph w',
    preprocessText uuidv4 "<b>$$</b>" w = (Ok (text, ph), w')
    /\ postprocessText text ph = "<b>$</b>"
    /\ postprocessText text ph <> "<b>$$</b>".
Proof.
  intros U. destruct (delimited_plain _ U) as [HA HB].
  set (id := uuidv4 (next_id w)) in *.
  exists (delimited id), [(id, "<b>$$</b>")],
    (mkWorld (S (next_id w)) (requests w)).
  split; [|split; [apply postprocess_expands_dollar_aux
                  |rewrite postprocess_expands_dollar_aux; discriminate]].
  unfold preprocessText.
  assert (replace_all uuidv4 Regex.bold
            (fun caps => "<b>" ++ capture 0 caps ++ "</b>")
            "<b>$$</b>" 0 [] w
          = (Ok (delimited id, [(id, "<b>$$</b>")]),
             mkWorld (S (next_id w)) (requests w))) as Hbold.
  { rewrite <- (append_nil_r (delimited id)). unfold id. cbv. reflexivity. }
  unfold bind at 1. rewrite Hbold.
  destruct (later_passes_inert uuidv4 (delimited id) [(id, "<b>$$</b>")]
              (mkWorld (S (next_id w)) (requests w)) HA HB) as [Hi [Hl Hv]].
  unfold bind. rewrite Hi, Hl, Hv. reflexivity.
Qed.

(** Two more strings that do not come back: the pairs are restored in the
    order in which they were recorded, so an identifier that a later pass
    has captured inside a fragment is still there at the end. *)
Example roundtrip_keeps_nested_token :
  (let '(r, _) := preprocessText sample_uuid "<i><b>x</b></i>" w0 in
   match r with
   | Ok (text, ph) => postprocessText text ph
   | _ => ""
   end) = "<i>{{110ec58a-a0f2-4ac4-8393-c866d813b8d1}}</i>".
Proof. reflexivity. Qed.

Example roundtrip_keeps_token_after_dollar :
  (let '(r, _) := preprocessText sample_uuid "$<b>x</b>}" w0 in
   match r with
   | Ok (text, ph) => postprocessText text ph
   | _ => ""
   end) = "${{110ec58a-a0f2-4ac4-8393-c866d813b8d1}}}".
Proof. reflexivity. Qed.

Lemma roundtrip_loses_dollar_witness :
  exists text ph w',
    preprocessText sample_uuid "<b>$$</b>" w0 = (Ok (text, ph), w')
    /\ postprocessText text ph = "<b>$</b>"
    /\ postprocessText text ph <> "<b>$$</b>".
Proof. apply (roundtrip_loses_dollar sample_uuid w0). reflexivity. Defined.

(** ** The translation client *)

(** A call of [translateText] sends at most one request, and none without
    a text or a language. *)
Lemma translateText_log (fetch : list request -> string -> string -> fetch_outcome)
    (text lang : string) (w : world) (r : outcome string) (w' : world) :
  translateText fetch text lang w = (r, w') ->
  requests w' = requests w
  \/ (requests w' = mkRequest text lang :: requests w
      /\ text <> "" /\ lang <> "").
Proof.
  unfold translateText.
  destruct (String.eqb text "") eqn:Et; cbn [orb].
  - intros [= <- <-]. now left.
  - destruct (String.eqb lang "") eqn:El.
    + intros [= <- <-]. now left.
    + apply String.eqb_neq in Et, El.
      unfold try_catch, bind, send, throw, ret.
      destruct (fetch (requests w) text lang) as [[m|]|[st m|t]];
        intros [= <- <-]; right; cbn [requests]; auto.
Qed.

(** ** The tree translator: one entry *)

Section Entry.

Variable uuidv4 : nat -> string.
Variable fetch : list request -> string -> string -> fetch_outcome.
Variable lang : string.

(** A pass of the encoder always completes, and sends nothing. *)
Lemma replace_all_ok (re : Regex.t) (rebuild : list string -> string)
    (s : string) (skip : nat) (ph : placeholders) (w : world) :
  exists t ph' w',
    replace_all uuidv4 re rebuild s skip ph w = (Ok (t, ph'), w')
    /\ requests w' = requests w.
Proof.
  revert skip ph w; induction s as [|c s IH]; intros skip ph w;
    cbn [replace_all].
  - destruct (Regex.match_here re "") as [[caps n]|].
    + unfold stash. eauto.
    + unfold ret. eauto.
  - destruct skip as [|k]; [|apply IH].
    destruct (Regex.match_here re (String c s)) as [[caps n]|].
    + unfold bind, stash.
      destruct n as [|k];
        [destruct (IH 0 (Obj.set (uuidv4 (next_id w)) (rebuild caps) ph)
                     (mkWorld (S (next_id w)) (requests w)))
           as (t & ph' & w' & E & R)
        |destruct (IH k (Obj.set (uuidv4 (next_id w)) (rebuild caps) ph)
                     (mkWorld (S (next_id w)) (requests w)))
           as (t & ph' & w' & E & R)];
        rewrite E; unfold ret; eauto.
    + unfold bind. destruct (IH 0 ph w) as (t & ph' & w' & E & R).
      rewrite E. unfold ret. eauto.
Qed.

Lemma preprocess_ok (s : string) (w : world) :
  exists t ph w',
    preprocessText uuidv4 s w = (Ok (t, ph), w')
    /\ requests w' = requests w.
Proof.
  unfold preprocessText.
  destruct (replace_all_ok Regex.bold
              (fun caps => "<b>" ++ capture 0 caps ++ "</b>") s 0 [] w)
    as (t1 & p1 & w1 & E1 & R1).
  unfold bind at 1. rewrite E1.
  destruct (replace_all_ok Regex.italic
              (fun caps => "<i>" ++ capture 0 caps ++ "</i>") t1 0 p1 w1)
    as (t2 & p2 & w2 & E2 & R2).
  unfold bind at 1. rewrite E2.
  destruct (replace_all_ok Regex.link
              (fun caps =>
                 "<a href=" ++ String Regex.dquote (capture 0 caps)
                 ++ String Regex.dquote ">" ++ capture 1 caps ++ "</a>")
              t2 0 p2 w2)
    as (t3 & p3 & w3 & E3 & R3).
  unfold bind at 1. rewrite E3.
  destruct (replace_all_ok Regex.interpolation
              (fun caps => "${" ++ capture 0 caps ++ "}") t3 0 p3 w3)
    as (t4 & p4 & w4 & E4 & R4).
  unfold bind at 1. rewrite E4.
  exists t4, p4, w4. split; [reflexivity | congruence].
Qed.

(** The empty string is its own safe text. *)
Lemma preprocess_empty (w : world) :
  preprocessText uuidv4 "" w = (Ok ("", []), w).
Proof. reflexivity. Qed.

(** [translateText] returns or throws. *)
Lemma translateText_settles (text : string) (w : world) :
  (exists t w', translateText fetch text lang w = (Ok t, w'))
  \/ (exists e w', translateText fetch text lang w = (Throw e, w')).
Proof.
  unfold translateText.
  destruct (String.eqb text "" || String.eqb lang "").
  - right. unfold throw. eauto.
  - unfold try_catch, bind, send, throw, ret.
    destruct (fetch (requests w) text lang) as [[m|]|[st m|t]]; eauto.
Qed.

(** One turn of the loop stores [entry_value] under the key. *)
Lemma translate_entry_value (self : json -> M json) (k : string) (v : json)
    (td : Obj.t json) (w : world) :
  translate_entry uuidv4 fetch self lang k v td w
  = match entry_value uuidv4 fetch self lang k v w with
    | (Ok v', w') => (Ok (Obj.assign k v' td), w')
    | (Throw e, w') => (Throw e, w')
    | (Exhausted, w') => (Exhausted, w')
    end.
Proof.
  unfold translate_entry, entry_value, try_catch.
  destruct (String.eqb k "original"); [reflexivity|].
  destruct (String.eqb k "translated"), v; try reflexivity; unfold bind, ret.
  - destruct (preprocessText uuidv4 s w) as [[[text ph]|e|] w1];
      try reflexivity.
    destruct (negb (String.eqb text "")); [|reflexivity].
    destruct (translateText fetch text lang w1) as [[t|e|] w2]; reflexivity.
  - destruct (promise_all _ w) as [[a|e|] w1]; reflexivity.
  - destruct (self (JObj entries) w) as [[a|e|] w1]; reflexivity.
  - destruct (promise_all _ w) as [[a|e|] w1]; reflexivity.
  - destruct (self (JObj entries) w) as [[a|e|] w1]; reflexivity.
Qed.

End Entry.
Section Loop.

Variable uuidv4 : nat -> string.
Variable fetch : list request -> string -> string -> fetch_outcome.
Variable lang : string.
Variable self : json -> M json.

Local Abbreviation value_of := (entry_value uuidv4 fetch self lang).
Local Abbreviation body := (translate_entry uuidv4 fetch self lang).

(** The ways in which one turn of the loop arrives at the value it stores:
    the input value is kept; or a ["translated"] string was encoded to a
    non-empty text, translated and decoded; or an array was mapped item by
    item; or an object was translated by the recursive call. *)
Lemma entry_value_cases (k : string) (v v' : json) (w w1 : world) :
  value_of k v w = (Ok v', w1) ->
  v' = v
  \/ (exists s t ph wa tt,
        k = "translated" /\ v = JStr s
        /\ preprocessText uuidv4 s w = (Ok (t, ph), wa)
        /\ t <> ""
        /\ translateText fetch t lang wa = (Ok tt, w1)
        /\ v' = JStr (postprocessText tt ph))
  \/ (exists items items',
        k <> "original" /\ v = JArr items /\ v' = JArr items'
        /\ promise_all (map (translate_item self) items) w = (Ok items', w1))
  \/ (exists es,
        k <> "original" /\ v = JObj es /\ self v w = (Ok v', w1)).
Proof.
  unfold entry_value.
  destruct (String.eqb k "original") eqn:Eo.
  { unfold try_catch, ret. intros [= <- <-]. now left. }
  apply String.eqb_neq in Eo.
  assert (forall items,
             try_catch
               (items' <- promise_all
                            (map (fun item =>
                                    if is_object item then self item
                                    else ret item) items) ;;
                ret (JArr items'))
               (fun _ => ret (JArr items)) w = (Ok v', w1) ->
             v' = JArr items
             \/ exists items',
                 v' = JArr items'
                 /\ promise_all (map (translate_item self) items) w
                    = (Ok items', w1)) as Harr.
  { intros items. unfold try_catch, bind, ret.
    change (fun item : json =>
              if is_object item then self item else fun w0 => (Ok item, w0))
      with (translate_item self).
    destruct (promise_all (map (translate_item self) items) w)
      as [[a|e|] wb]; intros [= <- <-]; eauto. }
  assert (forall es,
             try_catch (self (JObj es)) (fun _ => ret (JObj es)) w
             = (Ok v', w1) ->
             v' = JObj es \/ self (JObj es) w = (Ok v', w1)) as Hobj.
  { intros es. unfold try_catch, ret.
    destruct (self (JObj es) w) as [[a|e|] wb]; intros [= <- <-]; eauto. }
  destruct (String.eqb k "translated") eqn:Et, v;
    try (unfold try_catch, ret; intros [= <- <-]; now left).
  - (* a string under "translated" *)
    apply String.eqb_eq in Et. unfold try_catch, bind, ret.
    destruct (preprocessText uuidv4 s w) as [[[t ph]|e|] wa] eqn:Ep;
      try (intros [= <- <-]; now left); try discriminate.
    destruct (String.eqb t "") eqn:Ee; cbn [negb].
    + intros [= <- <-]. now left.
    + apply String.eqb_neq in Ee.
      destruct (translateText fetch t lang wa) as [[tt|e|] wb] eqn:Ett;
        try discriminate; intros [= <- <-].
      * right; left. exists s, t, ph, wa, tt. auto 7.
      * now left.
  - intros H. destruct (Harr _ H) as [->|[items' [-> Hp]]];
      [now left | right; right; left; eauto 7].
  - intros H. destruct (Hobj _ H) as [->|Hs];
      [now left | right; right; right; eauto].
  - intros H. destruct (Harr _ H) as [->|[items' [-> Hp]]];
      [now left | right; right; left; eauto 7].
  - intros H. destruct (Hobj _ H) as [->|Hs];
      [now left | right; right; right; eauto].
Qed.

(** The loop body never throws: whatever goes wrong inside is caught. *)
Lemma entry_value_caught (k : string) (v : json) (w : world) :
  forall e w', value_of k v w <> (Throw e, w').
Proof.
  intros e w'. unfold entry_value, try_catch.
  destruct (_ w) as [[a|e'|] wb]; unfold ret; discriminate.
Qed.

Lemma promise_all_run (f : json -> M json) (items items' : list json)
    (w w' : world) :
  promise_all (map f items) w = (Ok items', w') <->
  items_run f items w items' w'.
Proof.
  revert items' w w'; induction items as [|x xs IH]; intros items' w w';
    cbn [map promise_all].
  - unfold ret. split.
    + intros [= <- <-]. constructor.
    + inversion 1; subst. reflexivity.
  - split.
    + destruct (f x w) as [[x'|e|] w1] eqn:Ex; try discriminate.
      unfold bind, ret.
      destruct (promise_all (map f xs) w1) as [[l|e|] w2] eqn:El;
        try discriminate.
      intros [= <- <-]. econstructor; [eassumption|]. now apply IH.
    + inversion 1 as [|? ? ? ? ? w1 ? Hx Hxs]; subst.
      rewrite Hx. unfold bind, ret. apply IH in Hxs. now rewrite Hxs.
Qed.

(** The keys of the values that the turns compute are those of the
    entries. *)
Lemma entries_run_keys (es out : list (string * json)) (w w' : world) :
  entries_run value_of es w out w' -> map fst out = map fst es.
Proof.
  induction 1 as [|k v v' es out w w1 w2 Hv Hrun IH]; [reflexivity|].
  cbn [map fst]. now rewrite IH.
Qed.

(** On an object with distinct keys, none of which is in [td] yet, the
    loop appends to [td] the values of the entries, but for an entry
    under ["__proto__"], whose turn runs like the others and leaves no
    property. *)
Lemma for_entries_run (es : list (string * json)) :
  forall (td out : Obj.t json) (w w' : world),
    NoDup (map fst es) ->
    (forall k, In k (map fst es) -> ~ In k (Obj.keys td)) ->
    for_entries body es td w = (Ok out, w') ->
    exists out',
      out = (td ++ Obj.own out')%list /\ entries_run value_of es w out' w'.
Proof.
  induction es as [|[k v] es IH]; intros td out w w' Hnd Hfresh;
    cbn [for_entries].
  - unfold ret. intros [= <- <-]. exists []. split.
    + cbn. now rewrite app_nil_r.
    + constructor.
  - unfold bind. rewrite translate_entry_value.
    destruct (value_of k v w) as [[v1|e|] w1] eqn:Ev; try discriminate.
    intros H. inversion Hnd as [|? ? Hk Hnd']; subst.
    unfold Obj.assign in H.
    destruct (String.eqb k "__proto__") eqn:Ep.
    + apply IH in H; [|assumption|].
      * destruct H as (out' & -> & Hrun). exists ((k, v1) :: out').
        split; [|econstructor; eassumption].
        unfold Obj.own. cbn [filter fst]. now rewrite Ep.
      * intros k' Hin. apply Hfresh. now right.
    + rewrite obj_set_fresh in H by (apply Hfresh; now left).
      apply IH in H; [|assumption|].
      * destruct H as (out' & -> & Hrun). exists ((k, v1) :: out'). split.
        -- unfold Obj.own. cbn [filter fst]. rewrite Ep. cbn [negb].
           now rewrite <- app_assoc.
        -- econstructor; eassumption.
      * intros k' Hin. unfold Obj.keys. rewrite map_app, in_app_iff.
        intros [Hin'|[<-|[]]].
        -- apply (Hfresh k'); [now right | exact Hin'].
        -- contradiction.
Qed.

(** With no entry under ["__proto__"], the loop appends the values of
    all the entries. *)
Lemma for_entries_run_own (es : list (string * json)) :
  forall (td out : Obj.t json) (w w' : world),
    NoDup (map fst es) ->
    ~ In "__proto__" (map fst es) ->
    (forall k, In k (map fst es) -> ~ In k (Obj.keys td)) ->
    for_entries body es td w = (Ok out, w') ->
    exists out', out = (td ++ out')%list /\ entries_run value_of es w out' w'.
Proof.
  intros td out w w' Hnd Hproto Hfresh H.
  apply for_entries_run in H; [|assumption..].
  destruct H as (out' & -> & Hrun). exists out'. split; [|exact Hrun].
  rewrite own_all; [reflexivity|].
  unfold Obj.keys. now rewrite (entries_run_keys _ _ _ _ Hrun).
Qed.

(** The loop completes when each of its turns does. *)
Lemma for_entries_total (es : list (string * json)) :
  (forall k v w, In (k, v) es -> exists v' w', value_of k v w = (Ok v', w')) ->
  forall td w, exists out w', for_entries body es td w = (Ok out, w').
Proof.
  induction es as [|[k v] es IH]; intros Hval td w; cbn [for_entries].
  - unfold ret. eauto.
  - unfold bind. rewrite translate_entry_value.
    destruct (Hval k v w (or_introl eq_refl)) as (v' & w1 & ->).
    apply IH. intros k' v0 w2 Hin. apply Hval. now right.
Qed.

(** The output of the loop has a value for each key that has one in the
    input, and it is the value that the turn for this key computed. *)
Lemma entries_run_get (es out : list (string * json)) (w w' : world)
    (k : string) (v : json) :
  entries_run value_of es w out w' ->
  Obj.get k es = Some v ->
  exists v' wa wb, value_of k v wa = (Ok v', wb) /\ Obj.get k out = Some v'.
Proof.
  induction 1 as [|k0 v0 v0' es out w w1 w2 Hv Hrun IH]; cbn [Obj.get].
  - discriminate.
  - destruct (String.eqb k k0) eqn:E.
    + apply String.eqb_eq in E; subst k0. intros [= <-]. eauto.
    + exact IH.
Qed.

End Loop.

(** ** The tree translator: the recursion *)

Lemma depth_item (x : json) (items : list json) :
  In x items -> json_depth x < json_depth (JArr items).
Proof.
  cbn [json_depth]. induction items as [|y ys IH]; cbn [In fold_right].
  - contradiction.
  - intros [->|H]; [lia | specialize (IH H); lia].
Qed.

Lemma depth_entry (k : string) (v : json) (es : list (string * json)) :
  In (k, v) es -> json_depth v < json_depth (JObj es).
Proof.
  cbn [json_depth]. induction es as [|e es IH]; cbn [In fold_right].
  - contradiction.
  - intros [->|H]; [cbn [snd]; lia | specialize (IH H); lia].
Qed.

Lemma indexed_in (items : list json) :
  forall i k v, In (k, v) (indexed i items) -> In v items.
Proof.
  induction items as [|x xs IH]; intros i k v; cbn [indexed In].
  - contradiction.
  - intros [[= _ <-]|H]; [now left | right; eapply IH; eassumption].
Qed.

(** [Object.entries] succeeds on everything but [null]; the values it
    lists are parts of its argument, or strings. *)
Lemma Object_entries_ok (d : json) :
  d <> JNull ->
  exists es,
    Object_entries d = ret es
    /\ forall k v, In (k, v) es ->
         json_depth v < json_depth d \/ is_object v = false.
Proof.
  intros Hd. destruct d as [|b|n|s|items|es]; cbn [Object_entries].
  - contradiction.
  - exists []. split; [reflexivity | contradiction].
  - exists []. split; [reflexivity | contradiction].
  - eexists. split; [reflexivity|]. intros k v H. right.
    apply indexed_in, in_map_iff in H as [c [<- _]]. reflexivity.
  - eexists. split; [reflexivity|]. intros k v H. left.
    apply depth_item. eapply indexed_in; eassumption.
  - eexists. split; [reflexivity|]. intros k v H. left.
    eapply depth_entry; eassumption.
Qed.

Section Recursion.

Variable uuidv4 : nat -> string.
Variable fetch : list request -> string -> string -> fetch_outcome.
Variable lang : string.

Local Abbreviation tr := (fun fuel d => translateNestedJson uuidv4 fetch fuel d lang).

Lemma promise_all_total (f : json -> M json) (items : list json) :
  (forall x w, In x items -> exists x' w', f x w = (Ok x', w')) ->
  forall w, exists items' w', promise_all (map f items) w = (Ok items', w').
Proof.
  induction items as [|x xs IH]; intros Hf w; cbn [map promise_all].
  - unfold ret. eauto.
  - destruct (Hf x w (or_introl eq_refl)) as (x' & w1 & ->).
    destruct (IH (fun y w2 H => Hf y w2 (or_intror H)) w1)
      as (l & w2 & E).
    unfold bind, ret. rewrite E. eauto.
Qed.

(** One turn of the loop completes when the recursive calls that it may
    make do. *)
Lemma entry_value_total (self : json -> M json) (k : string) (v : json) :
  (forall x w, is_object x = true ->
     x = v \/ (exists items, v = JArr items /\ In x items) ->
     exists x' w', self x w = (Ok x', w')) ->
  forall w, exists v' w',
    entry_value uuidv4 fetch self lang k v w = (Ok v', w').
Proof.
  intros Hself w.
  assert (forall (b : M json),
             (forall wb, b w <> (Exhausted, wb)) ->
             exists v' w', try_catch b (fun _ => ret v) w = (Ok v', w'))
    as Hcatch.
  { intros b Hb. unfold try_catch, ret.
    destruct (b w) as [[a|e|] wb] eqn:E; eauto.
    exfalso; eapply Hb; reflexivity. }
  assert (forall items, v = JArr items ->
             exists items' w',
               promise_all
                 (map (fun item =>
                         if is_object item then self item else ret item)
                    items) w = (Ok items', w')) as Harr.
  { intros items ->. apply promise_all_total. intros x w1 Hin.
    destruct (is_object x) eqn:Ex; [|unfold ret; eauto].
    apply Hself; [assumption | right; eauto]. }
  unfold entry_value. apply Hcatch. intros wb.
  destruct (String.eqb k "original"); [unfold ret; discriminate|].
  destruct (String.eqb k "translated"), v; try (unfold ret; discriminate).
  - destruct (preprocess_ok uuidv4 s w) as (t & ph & w1 & E & _).
    unfold bind. rewrite E.
    destruct (negb (String.eqb t "")); [|unfold ret; discriminate].
    destruct (translateText_settles fetch lang t w1)
      as [(tt & w2 & ->)|(e & w2 & ->)]; unfold ret; discriminate.
  - destruct (Harr _ eq_refl) as (items' & w1 & E).
    unfold bind. rewrite E. unfold ret. discriminate.
  - destruct (Hself (JObj entries) w eq_refl (or_introl eq_refl))
      as (x' & w1 & ->). discriminate.
  - destruct (Harr _ eq_refl) as (items' & w1 & E).
    unfold bind. rewrite E. unfold ret. discriminate.
  - destruct (Hself (JObj entries) w eq_refl (or_introl eq_refl))
      as (x' & w1 & ->). discriminate.
Qed.

(** [translateNestedJson] returns an object for every value but [null],
    as soon as the allowance exceeds the depth of the value. *)
Lemma translate_total (fuel : nat) :
  forall d w, json_depth d < fuel -> d <> JNull ->
    exists out w', tr fuel d w = (Ok (JObj out), w').
Proof.
  induction fuel as [|fuel IH]; intros d w Hfuel Hd; [lia|].
  cbn [translateNestedJson].
  destruct (Object_entries_ok d Hd) as (es & -> & Hes).
  unfold bind at 1, ret at 1.
  destruct (for_entries_total uuidv4 fetch lang
              (fun item => tr fuel item) es) with (td := @nil (string * json))
                                                  (w := w)
    as (out & w' & E).
  - intros k v w1 Hin. apply entry_value_total. intros x w2 Hx Hrel.
    assert (json_depth x < fuel /\ x <> JNull) as [Hlt Hnn].
    { split; [|intros ->; discriminate].
      destruct (Hes k v Hin) as [Hv|Hv].
      - destruct Hrel as [->|(items & -> & Hin')]; [lia|].
        apply depth_item in Hin'. lia.
      - destruct Hrel as [->|(items & -> & _)]; [congruence | discriminate]. }
    destruct (IH x w2 Hlt Hnn) as (o & w3 & E). eauto.
  - unfold bind, ret. rewrite E. eauto.
Qed.

End Recursion.

(** ** Structure of the output *)

Lemma json_depth_ind (P : json -> Prop) :
  (forall d, (forall x, json_depth x < json_depth d -> P x) -> P d) ->
  forall d, P d.
Proof.
  intros Hstep d. remember (json_depth d) as n eqn:En.
  revert d En. induction n as [n IH] using lt_wf_ind.
  intros d ->. apply Hstep. intros x Hx. now apply (IH (json_depth x)).
Qed.

Section Similar.

Variable leaf : string -> string -> bool.

Lemma similar_arr_cons (x y : json) (xs ys : list json) :
  similar leaf (JArr (x :: xs)) (JArr (y :: ys))
  = similar leaf x y && similar leaf (JArr xs) (JArr ys).
Proof. reflexivity. Qed.

Lemma similar_obj_cons (k k' : string) (x y : json)
    (es fs : list (string * json)) :
  similar leaf (JObj ((k, x) :: es)) (JObj ((k', y) :: fs))
  = String.eqb k k' && similar_value leaf k x y
    && similar leaf (JObj es) (JObj fs).
Proof. reflexivity. Qed.

Hypothesis leaf_refl : forall s, leaf s s = true.

Lemma similar_refl : forall d, similar leaf d d = true.
Proof.
  induction d as [d IH] using json_depth_ind.
  destruct d as [|b|n|s|items|es]; cbn [similar].
  - reflexivity.
  - apply Bool.eqb_reflx.
  - apply Z.eqb_refl.
  - apply String.eqb_refl.
  - change (similar leaf (JArr items) (JArr items) = true).
    assert (forall x, In x items -> similar leaf x x = true) as H
        by (intros x Hx; apply IH, depth_item, Hx).
    clear IH. induction items as [|x xs IHxs]; [reflexivity|].
    rewrite similar_arr_cons, (H x (or_introl eq_refl)), IHxs;
      [reflexivity|]. intros y Hy; apply H; now right.
  - change (similar leaf (JObj es) (JObj es) = true).
    assert (forall k x, In (k, x) es -> similar leaf x x = true) as H
        by (intros k x Hx; eapply IH, depth_entry, Hx).
    clear IH. induction es as [|[k x] es IHes]; [reflexivity|].
    rewrite similar_obj_cons, String.eqb_refl, IHes.
    + rewrite andb_true_r. cbn [andb]. unfold similar_value.
      destruct (String.eqb k "translated"), x;
        try (apply (H k); now left). apply leaf_refl.
    + intros k' y Hy; apply (H k'); now right.
Qed.

Lemma similar_value_refl (k : string) (v : json) : similar_value leaf k v v = true.
Proof.
  unfold similar_value.
  destruct (String.eqb k "translated"), v; try apply similar_refl.
  apply leaf_refl.
Qed.

Variable uuidv4 : nat -> string.
Variable fetch : list request -> string -> string -> fetch_outcome.
Variable lang : string.

(** What the leaf relation has to accept: the decoded translation of the
    safe text of a string. *)
Hypothesis leaf_translated :
  forall s w t ph wa tt wb,
    preprocessText uuidv4 s w = (Ok (t, ph), wa) ->
    translateText fetch t lang wa = (Ok tt, wb) ->
    leaf s (postprocessText tt ph) = true.

(** The output of [translateNestedJson] on an object whose traversed
    arrays hold no array is similar to the object. *)
Lemma no_proto_keys (es : list (string * json)) :
  no_proto (JObj es) = true -> ~ In "__proto__" (map fst es).
Proof.
  cbn [no_proto]. rewrite forallb_forall. intros H Hin.
  apply in_map_iff in Hin as ([k v] & E & Hin). cbn [fst] in E. subst k.
  specialize (H _ Hin). cbn [fst] in H. discriminate H.
Qed.

Lemma translate_similar (fuel : nat) :
  forall es w d' w',
    wf_json (JObj es) = true ->
    flat_arrays (JObj es) = true ->
    no_proto (JObj es) = true ->
    translateNestedJson uuidv4 fetch fuel (JObj es) lang w = (Ok d', w') ->
    similar leaf (JObj es) d' = true.
Proof.
  induction fuel as [|fuel IH]; intros es w d' w' Hwf Hflat Hproto;
    cbn [translateNestedJson]; [discriminate|].
  cbn [Object_entries]. unfold bind at 1, ret at 1. unfold bind, ret.
  destruct (for_entries _ es [] w) as [[out|e|] w1] eqn:E; try discriminate.
  intros [= <- <-].
  cbn [wf_json] in Hwf. apply andb_true_iff in Hwf as [Hnd Hwf].
  apply distinct_NoDup in Hnd.
  apply for_entries_run_own in E;
    [|assumption | now apply no_proto_keys | intros k _ []].
  destruct E as (out' & -> & Hrun). cbn [app].
  cbn [flat_arrays] in Hflat. cbn [no_proto] in Hproto.
  rewrite forallb_forall in Hwf, Hflat, Hproto.
  clear Hnd.
  induction Hrun as [|k v v' es out w w1 w2 Hv Hrun IHrun]; [reflexivity|].
  rewrite similar_obj_cons, String.eqb_refl, IHrun; cycle 1.
  { intros x Hx; apply Hwf; now right. }
  { intros x Hx; apply Hflat; now right. }
  { intros x Hx; apply Hproto; now right. }
  rewrite andb_true_r. cbn [andb].
  specialize (Hwf _ (or_introl eq_refl)).
  specialize (Hflat _ (or_introl eq_refl)).
  specialize (Hproto _ (or_introl eq_refl)).
  cbn [fst snd] in Hwf, Hflat, Hproto. clear IHrun Hrun.
  apply andb_true_iff in Hproto as [_ Hproto].
  apply entry_value_cases in Hv
    as [->|[(s & t & ph & wa & tt & -> & -> & Hp & Ht & Htt & ->)
           |[(items & items' & Hk & -> & -> & Hp)
            |(es' & Hk & -> & Hs)]]].
  - apply similar_value_refl.
  - cbn. eapply leaf_translated; eassumption.
  - apply String.eqb_neq in Hk. rewrite Hk in Hflat, Hproto.
    cbn [orb] in Hflat, Hproto.
    assert (similar_value leaf k (JArr items) (JArr items')
            = similar leaf (JArr items) (JArr items')) as ->
        by (unfold similar_value; destruct (String.eqb k "translated");
            reflexivity).
    apply promise_all_run in Hp. cbn [wf_json] in Hwf.
    rewrite forallb_forall in Hwf, Hflat, Hproto.
    induction Hp as [|x x' xs xs' wx wy wz Hx Hxs IHxs]; [reflexivity|].
    rewrite similar_arr_cons, IHxs; cycle 1.
    { intros y Hy; apply Hproto; now right. }
    { intros y Hy; apply Hflat; now right. }
    { intros y Hy; apply Hwf; now right. }
    rewrite andb_true_r.
    specialize (Hwf _ (or_introl eq_refl)).
    specialize (Hflat _ (or_introl eq_refl)).
    specialize (Hproto _ (or_introl eq_refl)).
    unfold translate_item in Hx.
    destruct x as [| | | | |es0]; cbn [is_object] in Hx;
      try (unfold ret in Hx; injection Hx as <- _; apply similar_refl).
    + discriminate.
    + eapply IH; eassumption.
  - apply String.eqb_neq in Hk. rewrite Hk in Hflat, Hproto.
    cbn [orb] in Hflat, Hproto.
    assert (similar_value leaf k (JObj es') v' = similar leaf (JObj es') v') as ->
        by (unfold similar_value; destruct (String.eqb k "translated");
            reflexivity).
    eapply IH; eassumption.
Qed.

End Similar.


(** C1 (as amended).  Shape preservation: for an object with distinct keys
    in which no traversed array has an array among its items and no
    traversed object has a property named ["__proto__"],
    [translateNestedJson] returns, and what it returns has the shape of
    its input: the same keys in the same order in every object, the same
    number of items in every array, the same scalars, except for the
    content of the strings stored under the key ["translated"]. *)
Theorem translate_preserves_shape (uuidv4 : nat -> string)
    (fetch : list request -> string -> string -> fetch_outcome) (lang : string) (fuel : nat)
    (es : list (string * json)) (w : world) :
  wf_json (JObj es) = true ->
  flat_arrays (JObj es) = true ->
  no_proto (JObj es) = true ->
  json_depth (JObj es) < fuel ->
  exists D' w',
    translateNestedJson uuidv4 fetch fuel (JObj es) lang w = (Ok D', w')
    /\ same_shape (JObj es) D' = true.
Proof.
  intros Hwf Hflat Hproto Hfuel.
  destruct (translate_total uuidv4 fetch lang fuel (JObj es) w Hfuel)
    as (out & w' & E); [discriminate|].
  exists (JObj out), w'. split; [exact E|].
  unfold same_shape.
  eapply (translate_similar (fun _ _ => true)); try eassumption; reflexivity.
Qed.

Lemma translate_preserves_shape_witness :
  exists D' w',
    translateNestedJson sample_uuid echo 4
      (JObj [("greeting", JObj [("original", JStr "Hi");
                                ("translated", JStr "Hi <b>there</b>")]);
             ("tags", JArr [JStr "a"; JObj [("translated", JStr "x")]])])
      "es" w0 = (Ok D', w')
    /\ same_shape
         (JObj [("greeting", JObj [("original", JStr "Hi");
                                   ("translated", JStr "Hi <b>there</b>")]);
                ("tags", JArr [JStr "a"; JObj [("translated", JStr "x")]])])
         D' = true.
Proof.
  apply (translate_preserves_shape sample_uuid echo "es" 4);
    [reflexivity | reflexivity | reflexivity | cbn; lia].
Defined.

(** C1 as stated fails on an array inside an array: the inner array comes
    back as an object keyed by its indices. *)
Lemma nested_array_changes_shape :
  Translate sample_uuid echo (JObj [("a", JArr [JArr [JNum 1]])]) "es" w0
  = (Ok (JObj [("a", JArr [JObj [("0", JNum 1)]])]), w0)
  /\ same_shape (JObj [("a", JArr [JArr [JNum 1]])])
       (JObj [("a", JArr [JObj [("0", JNum 1)]])]) = false.
Proof. split; reflexivity. Qed.

(** A property named ["__proto__"] is lost, with all that is below it:
    the assignment that should store it meets the accessor of
    [Object.prototype]. *)
Example proto_property_is_lost :
  Translate sample_uuid echo
    (JObj [("__proto__", JObj [("original", JStr "x")]); ("a", JNum 1)])
    "es" w0
  = (Ok (JObj [("a", JNum 1)]), w0).
Proof. reflexivity. Qed.

(** ** Positions *)

Lemma of_nat_inj (i j : nat) : Str.of_nat i = Str.of_nat j -> i = j.
Proof.
  unfold Str.of_nat. intros H.
  apply (f_equal NilEmpty.uint_of_string) in H.
  rewrite !NilEmpty.usu in H. injection H as H.
  now apply DecimalNat.Unsigned.to_uint_inj.
Qed.

Lemma array_index_sound (k : string) (i : nat) :
  array_index k = Some i -> k = Str.of_nat i.
Proof.
  unfold array_index. destruct (NilEmpty.uint_of_string k) as [u|];
    [|discriminate].
  destruct (String.eqb (Str.of_nat (Nat.of_uint u)) k) eqn:E; [|discriminate].
  apply String.eqb_eq in E. intros [= <-]. now symmetry.
Qed.

Lemma indexed_keys (items : list json) :
  forall i k, In k (map fst (indexed i items)) ->
    exists j, k = Str.of_nat j /\ i <= j.
Proof.
  induction items as [|x xs IH]; intros i k; cbn [indexed map fst In].
  - contradiction.
  - intros [<-|H]; [eauto|].
    destruct (IH _ _ H) as (j & -> & Hj). exists j. split; [reflexivity|lia].
Qed.

Lemma indexed_NoDup (items : list json) :
  forall i, NoDup (map fst (indexed i items)).
Proof.
  induction items as [|x xs IH]; intros i; cbn [indexed map fst];
    constructor; [|apply IH].
  intros H. apply indexed_keys in H as (j & E & Hj).
  apply of_nat_inj in E. lia.
Qed.

Lemma indexed_get (items : list json) :
  forall i j x, nth_error items j = Some x ->
    Obj.get (Str.of_nat (i + j)) (indexed i items) = Some x.
Proof.
  induction items as [|y ys IH]; intros i j x; destruct j as [|j];
    cbn [nth_error indexed Obj.get]; try discriminate.
  - intros [= ->]. now rewrite Nat.add_0_r, String.eqb_refl.
  - intros H. destruct (String.eqb (Str.of_nat (i + S j)) (Str.of_nat i)) eqn:E.
    + apply String.eqb_eq, of_nat_inj in E. lia.
    + replace (i + S j) with (S i + j) by lia. now apply IH.
Qed.

Lemma items_run_nth (f : json -> M json) (xs xs' : list json) (w w' : world) :
  items_run f xs w xs' w' ->
  forall i x, nth_error xs i = Some x ->
    exists x' wa wb, f x wa = (Ok x', wb) /\ nth_error xs' i = Some x'.
Proof.
  induction 1 as [|y y' ys ys' w w1 w2 Hy Hys IH]; intros i x;
    destruct i as [|i]; cbn [nth_error]; try discriminate.
  - intros [= <-]. eauto.
  - apply IH.
Qed.

Lemma obj_get_in {A} (k : string) (v : A) (o : Obj.t A) :
  Obj.get k o = Some v -> In (k, v) o.
Proof.
  induction o as [|[k' v'] o IH]; cbn [Obj.get]; [discriminate|].
  destruct (String.eqb k k') eqn:E.
  - apply String.eqb_eq in E. intros [= ->]. left. now subst.
  - intros H. right. now apply IH.
Qed.

Lemma anchored_single (keeps : string -> Prop) (k : string) (v : json) :
  anchored keeps [k] v ->
  k = "original" \/ (k = "translated" /\ exists s, v = JStr s /\ keeps s).
Proof. intros [_ H]. exact H. Qed.

Lemma anchored_tail (keeps : string -> Prop) (k : string) (q : list string)
    (v : json) :
  anchored keeps (k :: q) v -> q <> [] -> anchored keeps q v.
Proof.
  intros [_ H] Hq. split; [assumption|].
  destruct q as [|k2 q]; [contradiction | exact H].
Qed.

Lemma anchored_not_index (keeps : string -> Prop) (k k2 : string) (v : json)
    (i : nat) :
  anchored keeps [k; k2] v -> array_index k2 = Some i -> False.
Proof.
  intros [_ [H|[H _]]]; cbn [last] in H; subst k2; discriminate.
Qed.

Section Positions.

Variable uuidv4 : nat -> string.
Variable fetch : list request -> string -> string -> fetch_outcome.
Variable lang : string.

(** The values that sit at anchored positions come through
    [translateNestedJson] unchanged, at the same positions. *)
Lemma translate_keeps_anchored (fuel : nat) :
  forall d w d' w',
    wf_json d = true ->
    translateNestedJson uuidv4 fetch fuel d lang w = (Ok d', w') ->
    forall p v, ~ In "__proto__" p ->
      anchored (never_translated uuidv4 fetch lang) p v ->
      get_path p d = Some v -> get_path p d' = Some v.
Proof.
  induction fuel as [|fuel IH]; intros d w d' w' Hwf;
    cbn [translateNestedJson]; [discriminate|].
  intros Htr [|k q] v Hpr Hanch;
    [destruct Hanch as [Hn _]; now contradiction Hn|].
  assert (Hk0 : k <> "__proto__") by (intros ->; apply Hpr; now left).
  assert (Hq0 : ~ In "__proto__" q) by (intros H; apply Hpr; now right).
  cbn [get_path]. destruct (js_get k d) as [v1|] eqn:Hget; [|discriminate].
  intros Hq.
  (* the entries of [d], their keys, and the entry under [k] *)
  assert (exists es,
             Object_entries d = ret es
             /\ NoDup (map fst es)
             /\ Obj.get k es = Some v1
             /\ forall k0 x, In (k0, x) es -> wf_json x = true)
    as (es & Hes & Hnd & Hk & Hwfs).
  { destruct d as [|b|n|s|items|es]; cbn [js_get] in Hget; try discriminate.
    - exists (indexed 0 items). cbn [wf_json] in Hwf.
      rewrite forallb_forall in Hwf.
      destruct (array_index k) as [i|] eqn:Ei; [|discriminate].
      apply array_index_sound in Ei. subst k.
      repeat split.
      + apply indexed_NoDup.
      + now apply (indexed_get items 0 i).
      + intros k0 x Hin. eapply Hwf, indexed_in, Hin.
    - exists es. cbn [wf_json] in Hwf.
      apply andb_true_iff in Hwf as [Hnd Hwf].
      rewrite forallb_forall in Hwf.
      repeat split; [now apply distinct_NoDup | assumption |].
      intros k0 x Hin. apply (Hwf (k0, x) Hin). }
  rewrite Hes in Htr. unfold bind at 1, ret at 1 in Htr.
  unfold bind, ret in Htr.
  destruct (for_entries _ es [] w) as [[out|e|] w1] eqn:E; try discriminate.
  injection Htr as <- <-.
  apply for_entries_run in E; [|assumption | intros k0 _ []].
  destruct E as (out' & -> & Hrun). cbn [app js_get].
  rewrite (get_own k out' Hk0).
  destruct (entries_run_get _ _ _ _ _ _ _ _ k v1 Hrun Hk)
    as (v1' & wa & wb & Hv & ->).
  specialize (Hwfs _ _ (obj_get_in _ _ _ Hk)).
  clear Hrun Hk Hes Hnd Hget.
  apply entry_value_cases in Hv
    as [->|[(s & t & ph & wc & tt & -> & -> & Hp & Ht & Htt & ->)
           |[(items & items' & Hko & -> & -> & Hp)
            |(es' & Hko & -> & Hs)]]].
  - exact Hq.
  - (* a translated string: it is not one that is never translated *)
    destruct q as [|k2 q]; [|discriminate].
    injection Hq as <-.
    apply anchored_single in Hanch as [|[_ (s' & [= <-] & Hs)]];
      [discriminate|].
    exfalso. eapply Hs; eassumption.
  - (* an array *)
    destruct q as [|k2 q].
    { injection Hq as <-.
      apply anchored_single in Hanch as [|[_ (s' & ? & _)]];
        [contradiction | discriminate]. }
    cbn [get_path js_get] in Hq |- *.
    destruct (array_index k2) as [i|] eqn:Ei; [|discriminate].
    destruct (nth_error items i) as [x|] eqn:Ex; [|discriminate].
    apply promise_all_run in Hp.
    destruct (items_run_nth _ _ _ _ _ Hp i x Ex)
      as (x' & wc & wd & Hx & ->).
    unfold translate_item in Hx.
    destruct (is_object x); [|unfold ret in Hx; now injection Hx as <- _].
    cbn [wf_json] in Hwfs. rewrite forallb_forall in Hwfs.
    destruct q as [|k3 q];
      [exfalso; eapply anchored_not_index; eassumption|].
    apply (IH x wc x' wd); [apply Hwfs; eapply nth_error_In; eassumption
                           | exact Hx | | | exact Hq].
    { intros H. apply Hq0. now right. }
    apply (anchored_tail _ k2); [|discriminate].
    apply (anchored_tail _ k); [exact Hanch | discriminate].
  - (* an object *)
    destruct q as [|k2 q].
    { injection Hq as <-.
      apply anchored_single in Hanch as [|[_ (s' & ? & _)]];
        [contradiction | discriminate]. }
    apply (IH (JObj es') wa v1' wb);
      [assumption | exact Hs | exact Hq0 | | exact Hq].
    apply (anchored_tail _ k); [exact Hanch | discriminate].
Qed.

End Positions.

Lemma translate_anchored_total (uuidv4 : nat -> string)
    (fetch : list request -> string -> string -> fetch_outcome) (lang : string) (fuel : nat)
    (D : json) (w : world) :
  wf_json D = true -> json_depth D < fuel -> D <> JNull ->
  exists D' w',
    translateNestedJson uuidv4 fetch fuel D lang w = (Ok D', w')
    /\ forall p v, ~ In "__proto__" p ->
         anchored (never_translated uuidv4 fetch lang) p v ->
         get_path p D = Some v -> get_path p D' = Some v.
Proof.
  intros Hwf Hfuel Hnn.
  destruct (translate_total uuidv4 fetch lang fuel D w Hfuel Hnn)
    as (out & w' & E).
  exists (JObj out), w'. split; [exact E|].
  exact (translate_keeps_anchored uuidv4 fetch lang fuel D w _ w' Hwf E).
Qed.

(** The fuel that [Translate] gives to an object with one property whose
    value is an object with one property. *)
Lemma depth_two (k1 k2 : string) (v : json) :
  S (json_depth (JObj [(k1, JObj [(k2, v)])])) = S (S (S (json_depth v))).
Proof. cbn [json_depth fold_right snd]. now rewrite !Nat.max_0_r. Qed.

(** C3.  Original immutability holds of every position that is not below
    a property named ["__proto__"], and fails below one.  An object
    stored under ["__proto__"] does not come back, and the value under
    its key ["original"] with it: the output of
    [{"__proto__": {"original": V}}] is [{}].  Otherwise:
    [translateNestedJson] returns, and every value stored under a key
    ["original"] of its input, at a position whose property names are
    all other than ["__proto__"], is found unchanged at the same position
    of its output; the turn of the loop for such a key stores the value
    as it is without running the recursive call [self], without drawing
    an identifier and without sending a request, whatever the value
    is. *)
Theorem original_is_preserved (uuidv4 : nat -> string)
    (fetch : list request -> string -> string -> fetch_outcome) (lang : string) (fuel : nat)
    (D : json) (w : world) :
  wf_json D = true -> json_depth D < fuel -> D <> JNull ->
  (forall V,
     Translate uuidv4 fetch (JObj [("__proto__", JObj [("original", V)])])
       lang w
     = (Ok (JObj []), w)
     /\ get_path ["__proto__"; "original"]
          (JObj [("__proto__", JObj [("original", V)])]) = Some V
     /\ get_path ["__proto__"; "original"] (JObj []) = None)
  /\ (exists D' w',
        translateNestedJson uuidv4 fetch fuel D lang w = (Ok D', w')
        /\ forall p V, p <> [] -> ~ In "__proto__" p ->
             last p "" = "original" ->
             get_path p D = Some V -> get_path p D' = Some V)
  /\ (forall self V td w1,
        translate_entry uuidv4 fetch self lang "original" V td w1
        = (Ok (Obj.set "original" V td), w1)).
Proof.
  intros Hwf Hfuel Hnn. split; [|split; [|reflexivity]].
  { intros V. split; [|split; reflexivity].
    unfold Translate. rewrite depth_two. reflexivity. }
  destruct (translate_anchored_total uuidv4 fetch lang fuel D w Hwf Hfuel Hnn)
    as (D' & w' & E & H).
  exists D', w'. split; [exact E|].
  intros p V Hp Hpr Hlast. apply H; [exact Hpr|].
  split; [assumption | now left].
Qed.

Lemma original_is_preserved_witness :
  (forall V,
     Translate sample_uuid echo
       (JObj [("__proto__", JObj [("original", V)])]) "es" w0
     = (Ok (JObj []), w0)
     /\ get_path ["__proto__"; "original"]
          (JObj [("__proto__", JObj [("original", V)])]) = Some V
     /\ get_path ["__proto__"; "original"] (JObj []) = None)
  /\ (exists D' w',
        translateNestedJson sample_uuid echo 4
          (JObj [("a", JObj [("original",
                              JObj [("translated", JStr "x <b>y</b>")]);
                             ("translated", JStr "t")])])
          "es" w0 = (Ok D', w')
        /\ forall p V, p <> [] -> ~ In "__proto__" p ->
             last p "" = "original" ->
             get_path p
               (JObj [("a", JObj [("original",
                                   JObj [("translated", JStr "x <b>y</b>")]);
                                  ("translated", JStr "t")])]) = Some V ->
             get_path p D' = Some V)
  /\ (forall self V td w1,
        translate_entry sample_uuid echo self "es" "original" V td w1
        = (Ok (Obj.set "original" V td), w1)).
Proof.
  apply (original_is_preserved sample_uuid echo "es" 4);
    [reflexivity | cbn; lia | discriminate].
Defined.

(** C6.  The empty-text short-circuit holds of every position that is
    not below a property named ["__proto__"], and fails below one: an
    object stored under ["__proto__"] does not come back, and the empty
    string under its key ["translated"] with it.  Otherwise:
    [translateNestedJson] returns, and every empty string stored under a
    key ["translated"] of its input, at a position whose property names
    are all other than ["__proto__"], is an empty string at the same
    position of its output; the turn of the loop for such an entry
    stores the empty string and leaves the world as it is: no request is
    sent. *)
Theorem empty_translated_is_kept (uuidv4 : nat -> string)
    (fetch : list request -> string -> string -> fetch_outcome) (lang : string) (fuel : nat)
    (D : json) (w : world) :
  wf_json D = true -> json_depth D < fuel -> D <> JNull ->
  (Translate uuidv4 fetch
     (JObj [("__proto__", JObj [("translated", JStr "")])]) lang w
   = (Ok (JObj []), w)
   /\ get_path ["__proto__"; "translated"]
        (JObj [("__proto__", JObj [("translated", JStr "")])])
      = Some (JStr "")
   /\ get_path ["__proto__"; "translated"] (JObj []) = None)
  /\ (exists D' w',
        translateNestedJson uuidv4 fetch fuel D lang w = (Ok D', w')
        /\ forall p, p <> [] -> ~ In "__proto__" p ->
             last p "" = "translated" ->
             get_path p D = Some (JStr "") -> get_path p D' = Some (JStr ""))
  /\ (forall self td w1,
        translate_entry uuidv4 fetch self lang "translated" (JStr "") td w1
        = (Ok (Obj.set "translated" (JStr "") td), w1)).
Proof.
  intros Hwf Hfuel Hnn. split; [|split; [|reflexivity]].
  { split; [|split; reflexivity]. reflexivity. }
  destruct (translate_anchored_total uuidv4 fetch lang fuel D w Hwf Hfuel Hnn)
    as (D' & w' & E & H).
  exists D', w'. split; [exact E|].
  intros p Hp Hpr Hlast. apply H; [exact Hpr|]. split; [assumption | right].
  split; [assumption|]. exists "". split; [reflexivity|].
  intros w1 t ph wa tt wb Ht Hne. rewrite preprocess_empty in Ht.
  injection Ht as <- _ _. now contradiction Hne.
Qed.

Lemma empty_translated_is_kept_witness :
  (Translate sample_uuid echo
     (JObj [("__proto__", JObj [("translated", JStr "")])]) "es" w0
   = (Ok (JObj []), w0)
   /\ get_path ["__proto__"; "translated"]
        (JObj [("__proto__", JObj [("translated", JStr "")])])
      = Some (JStr "")
   /\ get_path ["__proto__"; "translated"] (JObj []) = None)
  /\ (exists D' w',
        translateNestedJson sample_uuid echo 3
          (JObj [("title", JObj [("original", JStr "Hi");
                                 ("translated", JStr "")])])
          "es" w0 = (Ok D', w')
        /\ forall p, p <> [] -> ~ In "__proto__" p ->
             last p "" = "translated" ->
             get_path p
               (JObj [("title", JObj [("original", JStr "Hi");
                                      ("translated", JStr "")])])
             = Some (JStr "") ->
             get_path p D' = Some (JStr ""))
  /\ (forall self td w1,
        translate_entry sample_uuid echo self "es" "translated" (JStr "")
          td w1
        = (Ok (Obj.set "translated" (JStr "") td), w1)).
Proof.
  apply (empty_translated_is_kept sample_uuid echo "es" 3);
    [reflexivity | cbn; lia | discriminate].
Defined.

(** ** The requests that are sent *)

Lemma sends_ok_refl (w : world) : sends_ok w w.
Proof. exists []. split; [reflexivity | constructor]. Qed.

Lemma sends_ok_trans (w1 w2 w3 : world) :
  sends_ok w1 w2 -> sends_ok w2 w3 -> sends_ok w1 w3.
Proof.
  intros (n1 & E1 & F1) (n2 & E2 & F2). exists (n2 ++ n1)%list. split.
  - now rewrite E2, E1, app_assoc.
  - apply Forall_app. now split.
Qed.

Lemma quiet_ret {A} (a : A) : quiet (ret a).
Proof. intros w r w' [= <- <-]. apply sends_ok_refl. Qed.

Lemma quiet_throw {A} (e : exn) : quiet (@throw A e).
Proof. intros w r w' [= <- <-]. apply sends_ok_refl. Qed.

Lemma quiet_bind {A B} (m : M A) (k : A -> M B) :
  quiet m -> (forall a, quiet (k a)) -> quiet (x <- m ;; k x).
Proof.
  intros Hm Hk w r w'. unfold bind.
  destruct (m w) as [[a|e|] w1] eqn:E; specialize (Hm _ _ _ E).
  - intros H. eapply sends_ok_trans; [exact Hm | eapply Hk; exact H].
  - now intros [= <- <-].
  - now intros [= <- <-].
Qed.

Lemma quiet_try_catch {A} (b : M A) (h : exn -> M A) :
  quiet b -> (forall e, quiet (h e)) -> quiet (try_catch b h).
Proof.
  intros Hb Hh w r w'. unfold try_catch.
  destruct (b w) as [[a|e|] w1] eqn:E; specialize (Hb _ _ _ E).
  - now intros [= <- <-].
  - intros H. eapply sends_ok_trans; [exact Hb | eapply Hh; exact H].
  - now intros [= <- <-].
Qed.

Lemma quiet_promise_all {A} (ps : list (M A)) :
  (forall p, In p ps -> quiet p) -> quiet (promise_all ps).
Proof.
  induction ps as [|p ps IH]; intros Hps; cbn [promise_all].
  - apply quiet_ret.
  - assert (quiet (promise_all ps)) as Hrest
        by (apply IH; intros q Hq; apply Hps; now right).
    intros w r w'.
    destruct (p w) as [[a|e|] w1] eqn:E;
      assert (Hp := Hps p (or_introl eq_refl) _ _ _ E).
    + intros H. eapply sends_ok_trans; [exact Hp|].
      eapply (quiet_bind (promise_all ps) (fun l => ret (a :: l)));
        [exact Hrest | intros l; apply quiet_ret | exact H].
    + intros [= <- <-]. eapply sends_ok_trans; [exact Hp|].
      eapply Hrest. apply surjective_pairing.
    + now intros [= <- <-].
Qed.

Section Requests.

Variable uuidv4 : nat -> string.
Variable fetch : list request -> string -> string -> fetch_outcome.
Variable lang : string.

Lemma quiet_preprocessText (s : string) : quiet (preprocessText uuidv4 s).
Proof.
  intros w r w' H.
  destruct (preprocess_ok uuidv4 s w) as (t & ph & w1 & E & R).
  rewrite E in H. injection H as _ <-.
  exists []. split; [exact R | constructor].
Qed.

Lemma quiet_translateText (text : string) : quiet (translateText fetch text lang).
Proof.
  intros w r w' H.
  destruct (translateText_log fetch text lang w r w' H) as [E|(E & Ht & Hl)].
  - exists []. split; [exact E | constructor].
  - exists [mkRequest text lang]. split; [exact E|].
    constructor; [split; assumption | constructor].
Qed.

Lemma quiet_translate_entry (self : json -> M json) (k : string) (v : json)
    (td : Obj.t json) :
  (forall x, quiet (self x)) ->
  quiet (translate_entry uuidv4 fetch self lang k v td).
Proof.
  intros Hself. unfold translate_entry.
  apply quiet_try_catch; [|intros e; apply quiet_ret].
  destruct (String.eqb k "original"); [apply quiet_ret|].
  assert (forall items,
             quiet (items' <- promise_all
                                (map (fun item =>
                                        if is_object item then self item
                                        else ret item) items) ;;
                    ret (Obj.assign k (JArr items') td))) as Harr.
  { intros items. apply quiet_bind; [|intros a; apply quiet_ret].
    apply quiet_promise_all. intros p Hp.
    apply in_map_iff in Hp as (x & <- & _).
    destruct (is_object x); [apply Hself | apply quiet_ret]. }
  assert (forall es,
             quiet (value' <- self (JObj es) ;; ret (Obj.assign k value' td)))
    as Hobj.
  { intros es. apply quiet_bind; [apply Hself | intros a; apply quiet_ret]. }
  destruct (String.eqb k "translated"), v;
    try apply quiet_ret; try apply Harr; try apply Hobj.
  apply quiet_bind; [apply quiet_preprocessText|].
  intros [text ph]. destruct (negb (String.eqb text "")); [|apply quiet_ret].
  apply quiet_bind; [apply quiet_translateText | intros a; apply quiet_ret].
Qed.

Lemma quiet_for_entries (f : string -> json -> Obj.t json -> M (Obj.t json))
    (es : list (string * json)) :
  (forall k v td, quiet (f k v td)) ->
  forall td, quiet (for_entries f es td).
Proof.
  intros Hf. induction es as [|[k v] es IH]; intros td; cbn [for_entries].
  - apply quiet_ret.
  - apply quiet_bind; [apply Hf | intros td'; apply IH].
Qed.

(** Whatever [translateNestedJson] is applied to and however it ends, the
    requests it sends have a text and a language. *)
Lemma quiet_translateNestedJson (fuel : nat) :
  forall d, quiet (translateNestedJson uuidv4 fetch fuel d lang).
Proof.
  induction fuel as [|fuel IH]; intros d; cbn [translateNestedJson].
  - intros w r w' [= <- <-]. apply sends_ok_refl.
  - apply quiet_bind.
    + destruct d; cbn [Object_entries];
        first [apply quiet_ret | apply quiet_throw].
    + intros es. apply quiet_bind; [|intros td; apply quiet_ret].
      apply quiet_for_entries. intros k v td.
      apply quiet_translate_entry. exact IH.
Qed.

End Requests.

(** ** Failures *)

Lemma bind_ret {A B} (a : A) (k : A -> M B) (w : world) :
  (x <- ret a ;; k x) w = k a w.
Proof. reflexivity. Qed.

Lemma bind_ok {A B} (m : M A) (k : A -> M B) (a : A) (w w' : world) :
  m w = (Ok a, w') -> (x <- m ;; k x) w = k a w'.
Proof. intros H. unfold bind. now rewrite H. Qed.

Section Failure.

Variable uuidv4 : nat -> string.
Variable fetch : list request -> string -> string -> fetch_outcome.
Variable lang : string.

(** One unfolding of the recursion. *)
Lemma translate_step (fuel : nat) (d : json) :
  translateNestedJson uuidv4 fetch (S fuel) d lang
  = (entries <- Object_entries d ;;
     translatedData <-
       for_entries
         (translate_entry uuidv4 fetch
            (fun item => translateNestedJson uuidv4 fetch fuel item lang)
            lang)
         entries [] ;;
     ret (JObj translatedData)).
Proof. reflexivity. Qed.

(** A leaf whose translation throws keeps its value, and the loop goes on
    (the outcome of the turn is a value, not the exception). *)
Lemma failed_leaf_entry (self : json -> M json) (s text : string)
    (ph : placeholders) (td : Obj.t json) (w w1 w2 : world) (e : exn) :
  preprocessText uuidv4 s w = (Ok (text, ph), w1) ->
  translateText fetch text lang w1 = (Throw e, w2) ->
  translate_entry uuidv4 fetch self lang "translated" (JStr s) td w
  = (Ok (Obj.set "translated" (JStr s) td), w2).
Proof.
  intros Hp Ht. unfold translate_entry, try_catch, bind.
  cbn [String.eqb Ascii.eqb Bool.eqb]. rewrite Hp.
  destruct (String.eqb text "") eqn:E; cbn [negb].
  - apply String.eqb_eq in E. subst text.
    unfold translateText in Ht. cbn [String.eqb orb] in Ht.
    unfold throw in Ht. injection Ht as _ <-. reflexivity.
  - rewrite Ht. reflexivity.
Qed.

Lemma translated_leaf_entry (self : json -> M json) (s text t : string)
    (ph : placeholders) (td : Obj.t json) (w w1 w2 : world) :
  preprocessText uuidv4 s w = (Ok (text, ph), w1) ->
  text <> "" ->
  translateText fetch text lang w1 = (Ok t, w2) ->
  translate_entry uuidv4 fetch self lang "translated" (JStr s) td w
  = (Ok (Obj.set "translated" (JStr (postprocessText t ph)) td), w2).
Proof.
  intros Hp Hne Ht. unfold translate_entry, try_catch, bind.
  cbn [String.eqb Ascii.eqb Bool.eqb]. rewrite Hp.
  apply String.eqb_neq in Hne. rewrite Hne. cbn [negb]. rewrite Ht.
  reflexivity.
Qed.

(** The two kinds of leaf as objects of their own. *)
Lemma failed_leaf_object (fuel : nat) (s text : string) (ph : placeholders)
    (w w1 w2 : world) (e : exn) :
  preprocessText uuidv4 s w = (Ok (text, ph), w1) ->
  translateText fetch text lang w1 = (Throw e, w2) ->
  translateNestedJson uuidv4 fetch (S fuel) (JObj [("translated", JStr s)])
    lang w
  = (Ok (JObj [("translated", JStr s)]), w2).
Proof.
  intros Hp Ht. rewrite translate_step. cbn [Object_entries].
  rewrite bind_ret. cbn [for_entries].
  erewrite bind_ok; [reflexivity|].
  erewrite bind_ok; [reflexivity|].
  exact (failed_leaf_entry _ s text ph [] w w1 w2 e Hp Ht).
Qed.

Lemma translated_leaf_object (fuel : nat) (s text t : string)
    (ph : placeholders) (w w1 w2 : world) :
  preprocessText uuidv4 s w = (Ok (text, ph), w1) ->
  text <> "" ->
  translateText fetch text lang w1 = (Ok t, w2) ->
  translateNestedJson uuidv4 fetch (S fuel) (JObj [("translated", JStr s)])
    lang w
  = (Ok (JObj [("translated", JStr (postprocessText t ph))]), w2).
Proof.
  intros Hp Hne Ht. rewrite translate_step. cbn [Object_entries].
  rewrite bind_ret. cbn [for_entries].
  erewrite bind_ok; [reflexivity|].
  erewrite bind_ok; [reflexivity|].
  exact (translated_leaf_entry _ s text t ph [] w w1 w2 Hp Hne Ht).
Qed.

(** An object stored under a key other than ["original"] is replaced by
    what the recursive call returns for it. *)
Lemma object_entry (self : json -> M json) (k : string)
    (es : list (string * json)) (v' : json) (td : Obj.t json)
    (w w1 : world) :
  k <> "original" ->
  self (JObj es) w = (Ok v', w1) ->
  translate_entry uuidv4 fetch self lang k (JObj es) td w
  = (Ok (Obj.assign k v' td), w1).
Proof.
  intros Hk Hs. apply String.eqb_neq in Hk.
  unfold translate_entry, try_catch, bind. rewrite Hk.
  destruct (String.eqb k "translated"); rewrite Hs; reflexivity.
Qed.

End Failure.

(** ** What becomes of each string to translate *)

Lemma attempt_widen (uuidv4 : nat -> string)
    (fetch : list request -> string -> string -> fetch_outcome)
    (lang : string) (lo lo' hi' hi : world) (s s' : string) :
  sends_ok lo lo' -> sends_ok hi' hi ->
  attempt uuidv4 fetch lang lo' hi' s s' ->
  attempt uuidv4 fetch lang lo hi s s'.
Proof.
  intros Hlo Hhi (wx & t & ph & wa & Hx & Hp & H).
  exists wx, t, ph, wa. split; [eapply sends_ok_trans; eassumption|].
  split; [exact Hp|].
  destruct H as [(-> & -> & Ha)|(Hne & r & wb & Ht & Hb & ->)].
  - left. repeat split. eapply sends_ok_trans; eassumption.
  - right. split; [exact Hne|]. exists r, wb.
    repeat split; [exact Ht | eapply sends_ok_trans; eassumption].
Qed.

(** The worlds of a run of the loop, and of the items of an array, lie
    between its first and its last. *)
Lemma entries_run_between (val : string -> json -> M json)
    (es out : list (string * json)) (w w' : world) :
  (forall k v, quiet (val k v)) ->
  entries_run val es w out w' ->
  sends_ok w w'
  /\ forall k v, Obj.get k es = Some v ->
       exists v' wa wb,
         val k v wa = (Ok v', wb) /\ Obj.get k out = Some v'
         /\ sends_ok w wa /\ sends_ok wb w'.
Proof.
  intros Hq. induction 1 as [|k0 v0 v0' es out w w1 w2 Hv Hrun [IH1 IH2]].
  - split; [apply sends_ok_refl | discriminate].
  - assert (H1 := Hq _ _ _ _ _ Hv). split.
    + eapply sends_ok_trans; eassumption.
    + intros k v. cbn [Obj.get]. destruct (String.eqb k k0) eqn:E.
      * apply String.eqb_eq in E; subst k0. intros [= <-].
        exists v0', w, w1. repeat split; try assumption.
        apply sends_ok_refl.
      * intros Hk. destruct (IH2 k v Hk) as (v' & wa & wb & H & G & A & B).
        exists v', wa, wb. repeat split; try assumption.
        eapply sends_ok_trans; eassumption.
Qed.

Lemma items_run_between (f : json -> M json) (xs xs' : list json)
    (w w' : world) :
  (forall x, quiet (f x)) ->
  items_run f xs w xs' w' ->
  sends_ok w w'
  /\ forall i x, nth_error xs i = Some x ->
       exists x' wa wb,
         f x wa = (Ok x', wb) /\ nth_error xs' i = Some x'
         /\ sends_ok w wa /\ sends_ok wb w'.
Proof.
  intros Hq. induction 1 as [|y y' ys ys' w w1 w2 Hy Hys [IH1 IH2]].
  - split; [apply sends_ok_refl|]. intros [|i] x; discriminate.
  - assert (H1 := Hq _ _ _ _ Hy). split.
    + eapply sends_ok_trans; eassumption.
    + intros [|i] x; cbn [nth_error].
      * intros [= <-]. exists y', w, w1. repeat split; try assumption.
        apply sends_ok_refl.
      * intros Hx. destruct (IH2 i x Hx) as (x' & wa & wb & H & G & A & B).
        exists x', wa, wb. repeat split; try assumption.
        eapply sends_ok_trans; eassumption.
Qed.

Section Outcome.

Variable uuidv4 : nat -> string.
Variable fetch : list request -> string -> string -> fetch_outcome.
Variable lang : string.

Lemma quiet_entry_value (self : json -> M json) (k : string) (v : json) :
  (forall x, quiet (self x)) ->
  quiet (entry_value uuidv4 fetch self lang k v).
Proof.
  intros Hself w r w' H.
  apply (quiet_translate_entry uuidv4 fetch lang self k v [] Hself w
           match r with
           | Ok v' => Ok (Obj.assign k v' [])
           | Throw e => Throw e
           | Exhausted => Exhausted
           end w').
  rewrite translate_entry_value, H. now destruct r.
Qed.

(** The value that the turn for a string under ["translated"] stores. *)
Lemma string_value (self : json -> M json) (s : string) (v' : json)
    (w w1 : world) :
  entry_value uuidv4 fetch self lang "translated" (JStr s) w = (Ok v', w1) ->
  exists t ph wa,
    preprocessText uuidv4 s w = (Ok (t, ph), wa)
    /\ ((t = "" /\ v' = JStr s /\ w1 = wa)
        \/ (t <> ""
            /\ exists r,
                 translateText fetch t lang wa = (r, w1)
                 /\ v' = JStr match r with
                              | Ok translated =>
                                  postprocessText translated ph
                              | Throw _ => s
                              | Exhausted => s
                              end)).
Proof.
  unfold entry_value, try_catch, bind, ret.
  cbn [String.eqb Ascii.eqb Bool.eqb].
  destruct (preprocess_ok uuidv4 s w) as (t & ph & wa & Hp & _).
  rewrite Hp. intros H. exists t, ph, wa. split; [reflexivity|].
  destruct (String.eqb t "") eqn:Et; cbn [negb] in H.
  - apply String.eqb_eq in Et. injection H as <- <-. now left.
  - apply String.eqb_neq in Et. right. split; [exact Et|].
    destruct (translateText fetch t lang wa) as [[tt|e|] wb] eqn:Ett;
      try discriminate H; injection H as <- <-; eexists; split;
      reflexivity.
Qed.

(** The value that the turn for an object or an array stores comes from
    the recursive call, when this one returns. *)
Lemma object_value (self : json -> M json) (k : string)
    (es : list (string * json)) (v' : json) (w w1 : world) :
  k <> "original" ->
  (exists x' w', self (JObj es) w = (Ok x', w')) ->
  entry_value uuidv4 fetch self lang k (JObj es) w = (Ok v', w1) ->
  self (JObj es) w = (Ok v', w1).
Proof.
  intros Hk (x' & w' & Hs). apply String.eqb_neq in Hk.
  unfold entry_value, try_catch. rewrite Hk.
  destruct (String.eqb k "translated"); rewrite Hs; intros H; exact H.
Qed.

Lemma array_value (self : json -> M json) (k : string)
    (items : list json) (v' : json) (w w1 : world) :
  k <> "original" ->
  (forall x wx, In x items -> is_object x = true ->
     exists x' wy, self x wx = (Ok x', wy)) ->
  entry_value uuidv4 fetch self lang k (JArr items) w = (Ok v', w1) ->
  exists items',
    v' = JArr items' /\ items_run (translate_item self) items w items' w1.
Proof.
  intros Hk Hself. apply String.eqb_neq in Hk.
  destruct (promise_all_total (translate_item self) items) with (w := w)
    as (items' & w' & Hp).
  { intros x wx Hin. unfold translate_item.
    destruct (is_object x) eqn:Ex; [now apply Hself|].
    unfold ret. eauto. }
  unfold entry_value, try_catch, bind, ret. rewrite Hk.
  change (fun item : json =>
            if is_object item then self item else fun w0 => (Ok item, w0))
    with (translate_item self).
  destruct (String.eqb k "translated"); rewrite Hp; intros [= <- <-];
    exists items'; (split; [reflexivity | now apply promise_all_run]).
Qed.

(** Every string under a key ["translated"] that the traversal reaches,
    at a position that is not below a property ["__proto__"], comes out
    as its own attempt leaves it, whatever becomes of the others. *)
Lemma translate_leaf_outcome (fuel : nat) :
  forall d w d' w',
    wf_json d = true -> json_depth d < fuel ->
    translateNestedJson uuidv4 fetch fuel d lang w = (Ok d', w') ->
    forall p s, p <> [] -> ~ In "__proto__" p -> ~ In "original" p ->
      last p "" = "translated" ->
      get_path p d = Some (JStr s) ->
      exists s',
        get_path p d' = Some (JStr s')
        /\ attempt uuidv4 fetch lang w w' s s'.
Proof.
  induction fuel as [|fuel IH]; intros d w d' w' Hwf Hfuel;
    cbn [translateNestedJson]; [discriminate|].
  intros Htr [|k q] s Hne Hpr Hor Hlast; [now contradiction Hne|].
  assert (Hk0 : k <> "__proto__") by (intros ->; apply Hpr; now left).
  assert (Hq0 : ~ In "__proto__" q) by (intros H; apply Hpr; now right).
  assert (Hk1 : k <> "original") by (intros ->; apply Hor; now left).
  assert (Hq1 : ~ In "original" q) by (intros H; apply Hor; now right).
  cbn [get_path]. destruct (js_get k d) as [v1|] eqn:Hget; [|discriminate].
  intros Hq.
  assert (exists es,
             Object_entries d = ret es
             /\ NoDup (map fst es)
             /\ Obj.get k es = Some v1
             /\ forall k0 x, In (k0, x) es ->
                  wf_json x = true /\ json_depth x < fuel)
    as (es & Hes & Hnd & Hk & Hwfs).
  { destruct d as [|b|n|s0|items|es]; cbn [js_get] in Hget; try discriminate.
    - exists (indexed 0 items). cbn [wf_json] in Hwf.
      rewrite forallb_forall in Hwf.
      destruct (array_index k) as [i|] eqn:Ei; [|discriminate].
      apply array_index_sound in Ei. subst k.
      repeat split.
      + apply indexed_NoDup.
      + now apply (indexed_get items 0 i).
      + eapply Hwf, indexed_in, H.
      + apply indexed_in, depth_item in H. lia.
    - exists es. cbn [wf_json] in Hwf.
      apply andb_true_iff in Hwf as [Hnd Hwf].
      rewrite forallb_forall in Hwf.
      repeat split; [now apply distinct_NoDup | assumption | |].
      + apply (Hwf (k0, x) H).
      + apply depth_entry in H. lia. }
  rewrite Hes in Htr. unfold bind at 1, ret at 1 in Htr.
  unfold bind, ret in Htr.
  destruct (for_entries _ es [] w) as [[out|e|] w1] eqn:E; try discriminate.
  injection Htr as <- <-.
  apply for_entries_run in E; [|assumption | intros k0 _ []].
  destruct E as (out' & -> & Hrun). cbn [app js_get].
  rewrite (get_own k out' Hk0).
  assert (Hquiet : forall x,
             quiet (translateNestedJson uuidv4 fetch fuel x lang))
    by (intros x; apply quiet_translateNestedJson).
  apply entries_run_between in Hrun;
    [|intros k0 v0; now apply quiet_entry_value].
  destruct Hrun as [_ Hrun].
  destruct (Hrun k v1 Hk) as (v1' & wa & wb & Hv & -> & Ha & Hb).
  destruct (Hwfs _ _ (obj_get_in _ _ _ Hk)) as [Hwf1 Hd1].
  clear Hrun Hk Hes Hnd Hget Hwfs.
  assert (Htotal : forall x wx, json_depth x <= json_depth v1 ->
             is_object x = true ->
             exists x' wy,
               translateNestedJson uuidv4 fetch fuel x lang wx
               = (Ok x', wy)).
  { intros x wx Hx Ho.
    destruct (translate_total uuidv4 fetch lang fuel x wx) as (o & wy & H);
      [lia | intros ->; discriminate | eauto]. }
  destruct q as [|k2 q].
  - (* the string itself *)
    cbn [last] in Hlast. subst k. cbn [get_path] in Hq |- *.
    injection Hq as ->.
    apply string_value in Hv as (t & ph & wc & Hp & H).
    destruct H as [(Et & -> & ->)|(Hne' & r & Ht & ->)];
      eexists; (split; [reflexivity|]); exists wa, t, ph, wc;
      (split; [exact Ha|]); (split; [exact Hp|]).
    + left. now repeat split.
    + right. split; [exact Hne'|]. exists r, wb. now repeat split.
  - (* below an object or an array *)
    destruct v1 as [|b|n|s0|items|es']; cbn [get_path js_get] in Hq;
      try discriminate.
    + destruct (array_index k2) as [i|] eqn:Ei; [|discriminate].
      destruct (nth_error items i) as [x|] eqn:Ex; [|discriminate].
      apply array_value in Hv; [|exact Hk1|]; cycle 1.
      { intros y wy Hy Ho. apply Htotal; [|exact Ho].
        apply depth_item in Hy. lia. }
      destruct Hv as (items' & -> & Hitems).
      apply items_run_between in Hitems; cycle 1.
      { intros y. unfold translate_item.
        destruct (is_object y); [apply Hquiet | apply quiet_ret]. }
      destruct Hitems as [_ Hitems].
      destruct (Hitems i x Ex) as (x' & wc & wd & Hx & Hx' & Hc & Hd).
      cbn [get_path js_get]. rewrite Ei, Hx'.
      destruct q as [|k3 q].
      { cbn [last] in Hlast. subst k2. discriminate Ei. }
      unfold translate_item in Hx.
      destruct (is_object x) eqn:Ho.
      2: { destruct x; try discriminate Ho; discriminate Hq. }
      cbn [wf_json] in Hwf1. rewrite forallb_forall in Hwf1.
      destruct (IH x wc x' wd) with (p := k3 :: q) (s := s)
        as (s' & Hs' & Hatt);
        [apply Hwf1; eapply nth_error_In; eassumption
        | apply nth_error_In, depth_item in Ex; lia
        | exact Hx | discriminate
        | intros H; apply Hq0; now right
        | intros H; apply Hq1; now right
        | exact Hlast | exact Hq |].
      exists s'. split; [exact Hs'|].
      eapply attempt_widen; [| |exact Hatt];
        eapply sends_ok_trans; eassumption.
    + apply object_value in Hv; [|exact Hk1|]; cycle 1.
      { apply Htotal; [lia | reflexivity]. }
      destruct (IH (JObj es') wa v1' wb) with (p := k2 :: q) (s := s)
        as (s' & Hs' & Hatt);
        [assumption | lia | exact Hv | discriminate | exact Hq0 | exact Hq1
        | exact Hlast | exact Hq |].
      exists s'. split; [exact Hs'|].
      eapply attempt_widen; eassumption.
Qed.

End Outcome.

(** C2.  Failure isolation holds of every leaf that is not below a
    property named ["__proto__"], and fails below one.  When
    [translateText] throws for the safe text of a ["translated"] string
    [A], the turn of the loop for this leaf stores [A] itself and
    completes normally, and the loop goes on with the entries that follow
    as it would after any other turn; in a document with two sibling
    leaves, [A] for which the translation throws and [B] for which it
    returns [tB], the output has [A] unchanged and [B] replaced by the
    decoded [tB] -- for siblings under two keys of an object, other than
    ["__proto__"], and for siblings that are two items of an array.  But
    when the key of [A] is ["__proto__"], the output has [B] translated
    and no [A] at all.  In any document, every ["translated"] string
    that the traversal reaches at a position not below ["__proto__"]
    comes out as the attempt made for it in this run leaves it: itself
    when its safe text is empty or [translateText] throws for it, its
    decoded translation when [translateText] returns one, whatever
    becomes of the other strings; and no turn of the loop ever throws,
    whatever happens inside it. *)
Theorem failure_is_isolated (uuidv4 : nat -> string)
    (fetch : list request -> string -> string -> fetch_outcome) (lang : string) (fuel : nat)
    (ka kb A B textA textB tB : string) (phA phB : placeholders)
    (w w1 w2 w3 w4 : world) (e : exn) :
  ka <> kb -> ka <> "original" -> kb <> "original" ->
  ka <> "__proto__" -> kb <> "__proto__" -> 2 <= fuel ->
  preprocessText uuidv4 A w = (Ok (textA, phA), w1) ->
  translateText fetch textA lang w1 = (Throw e, w2) ->
  preprocessText uuidv4 B w2 = (Ok (textB, phB), w3) ->
  textB <> "" ->
  translateText fetch textB lang w3 = (Ok tB, w4) ->
  (forall self td,
     translate_entry uuidv4 fetch self lang "translated" (JStr A) td w
     = (Ok (Obj.set "translated" (JStr A) td), w2))
  /\ (forall self td rest,
        for_entries (translate_entry uuidv4 fetch self lang)
          (("translated", JStr A) :: rest) td w
        = for_entries (translate_entry uuidv4 fetch self lang) rest
            (Obj.set "translated" (JStr A) td) w2)
  /\ translateNestedJson uuidv4 fetch fuel
       (JObj [(ka, JObj [("translated", JStr A)]);
              (kb, JObj [("translated", JStr B)])]) lang w
     = (Ok (JObj [(ka, JObj [("translated", JStr A)]);
                  (kb, JObj [("translated", JStr (postprocessText tB phB))])]),
        w4)
  /\ translateNestedJson uuidv4 fetch fuel
       (JObj [(ka, JArr [JObj [("translated", JStr A)];
                         JObj [("translated", JStr B)]])]) lang w
     = (Ok (JObj [(ka, JArr [JObj [("translated", JStr A)];
                             JObj [("translated",
                                    JStr (postprocessText tB phB))]])]),
        w4)
  /\ translateNestedJson uuidv4 fetch fuel
       (JObj [("__proto__", JObj [("translated", JStr A)]);
              (kb, JObj [("translated", JStr B)])]) lang w
     = (Ok (JObj [(kb, JObj [("translated",
                              JStr (postprocessText tB phB))])]),
        w4)
  /\ (forall D n wd,
        wf_json D = true -> json_depth D < n -> D <> JNull ->
        exists D' wd',
          translateNestedJson uuidv4 fetch n D lang wd = (Ok D', wd')
          /\ forall p s, p <> [] ->
               ~ In "__proto__" p -> ~ In "original" p ->
               last p "" = "translated" ->
               get_path p D = Some (JStr s) ->
               exists s',
                 get_path p D' = Some (JStr s')
                 /\ attempt uuidv4 fetch lang wd wd' s s')
  /\ (forall self k v td wx e' wy,
        translate_entry uuidv4 fetch self lang k v td wx <> (Throw e', wy)).
Proof.
  intros Hab Ha Hb Hpa Hpb Hfuel HpA HtA HpB HneB HtB.
  destruct fuel as [|[|fuel]]; try lia.
  assert (HA := failed_leaf_object uuidv4 fetch lang fuel A textA phA
                  w w1 w2 e HpA HtA).
  assert (HB := translated_leaf_object uuidv4 fetch lang fuel B textB tB phB
                  w2 w3 w4 HpB HneB HtB).
  split; [|split; [|split; [|split; [|split; [|split]]]]]; cycle 5.
  - intros D n wd Hwf Hn Hnn.
    destruct (translate_total uuidv4 fetch lang n D wd Hn Hnn)
      as (out & wd' & E).
    exists (JObj out), wd'. split; [exact E|].
    exact (translate_leaf_outcome uuidv4 fetch lang n D wd _ wd' Hwf Hn E).
  - intros self k v td wx e' wy. rewrite translate_entry_value.
    destruct (entry_value uuidv4 fetch self lang k v wx) as [[a|e0|] wz] eqn:E;
      try discriminate.
    exfalso. eapply entry_value_caught; exact E.
  - intros self td. eapply failed_leaf_entry; eassumption.
  - intros self td rest. cbn [for_entries].
    apply bind_ok. eapply failed_leaf_entry; eassumption.
  - rewrite translate_step. cbn [Object_entries].
    rewrite bind_ret. cbn [for_entries].
    erewrite bind_ok; cycle 1.
    { erewrite bind_ok by (apply object_entry; [exact Ha | exact HA]).
      erewrite bind_ok by (apply object_entry; [exact Hb | exact HB]).
      reflexivity. }
    rewrite !assign_own by assumption.
    cbn [Obj.set]. apply not_eq_sym, String.eqb_neq in Hab. rewrite Hab.
    reflexivity.
  - rewrite translate_step. cbn [Object_entries].
    rewrite bind_ret. cbn [for_entries].
    erewrite bind_ok; [reflexivity|].
    erewrite bind_ok; [reflexivity|].
    apply String.eqb_neq in Ha.
    unfold translate_entry, try_catch. rewrite Ha.
    assert (promise_all
              (map (fun item =>
                      if is_object item
                      then translateNestedJson uuidv4 fetch (S fuel) item lang
                      else ret item)
                 [JObj [("translated", JStr A)];
                  JObj [("translated", JStr B)]]) w
            = (Ok [JObj [("translated", JStr A)];
                   JObj [("translated", JStr (postprocessText tB phB))]], w4))
      as Hall.
    { cbn [map promise_all is_object]. rewrite HA. unfold bind, ret.
      rewrite HB. reflexivity. }
    destruct (String.eqb ka "translated"); unfold bind; rewrite Hall;
      unfold ret; rewrite assign_own by assumption; reflexivity.
  - rewrite translate_step. cbn [Object_entries].
    rewrite bind_ret. cbn [for_entries].
    erewrite bind_ok; cycle 1.
    { erewrite bind_ok by (apply object_entry; [discriminate | exact HA]).
      erewrite bind_ok by (apply object_entry; [exact Hb | exact HB]).
      reflexivity. }
    rewrite (assign_own kb) by assumption. reflexivity.
Qed.

(** The provider [flaky] never translates the leaf ["Hello"]. *)
Example hello_is_never_translated :
  never_translated sample_uuid flaky "es" "Hello".
Proof.
  intros w t ph wa tt wb Hp _.
  rewrite preprocess_plain in Hp by reflexivity.
  injection Hp as <- _ <-. discriminate.
Qed.

Lemma failure_is_isolated_witness :
  (forall self td,
     translate_entry sample_uuid flaky self "es" "translated" (JStr "Hello")
       td w0
     = (Ok (Obj.set "translated" (JStr "Hello") td),
        mkWorld 0 [mkRequest "Hello" "es"]))
  /\ (forall self td rest,
        for_entries (translate_entry sample_uuid flaky self "es")
          (("translated", JStr "Hello") :: rest) td w0
        = for_entries (translate_entry sample_uuid flaky self "es") rest
            (Obj.set "translated" (JStr "Hello") td)
            (mkWorld 0 [mkRequest "Hello" "es"]))
  /\ translateNestedJson sample_uuid flaky 2
       (JObj [("a", JObj [("translated", JStr "Hello")]);
              ("b", JObj [("translated", JStr "<b>World</b>!")])]) "es" w0
     = (Ok (JObj [("a", JObj [("translated", JStr "Hello")]);
                  ("b", JObj [("translated", JStr "[es] <b>World</b>!")])]),
        mkWorld 1
          [mkRequest "{{110ec58a-a0f2-4ac4-8393-c866d813b8d1}}!" "es";
           mkRequest "Hello" "es"])
  /\ translateNestedJson sample_uuid flaky 2
       (JObj [("a", JArr [JObj [("translated", JStr "Hello")];
                          JObj [("translated", JStr "<b>World</b>!")]])])
       "es" w0
     = (Ok (JObj [("a", JArr [JObj [("translated", JStr "Hello")];
                              JObj [("translated",
                                     JStr "[es] <b>World</b>!")]])]),
        mkWorld 1
          [mkRequest "{{110ec58a-a0f2-4ac4-8393-c866d813b8d1}}!" "es";
           mkRequest "Hello" "es"])
  /\ translateNestedJson sample_uuid flaky 2
       (JObj [("__proto__", JObj [("translated", JStr "Hello")]);
              ("b", JObj [("translated", JStr "<b>World</b>!")])]) "es" w0
     = (Ok (JObj [("b", JObj [("translated", JStr "[es] <b>World</b>!")])]),
        mkWorld 1
          [mkRequest "{{110ec58a-a0f2-4ac4-8393-c866d813b8d1}}!" "es";
           mkRequest "Hello" "es"])
  /\ (forall D n wd,
        wf_json D = true -> json_depth D < n -> D <> JNull ->
        exists D' wd',
          translateNestedJson sample_uuid flaky n D "es" wd = (Ok D', wd')
          /\ forall p s, p <> [] ->
               ~ In "__proto__" p -> ~ In "original" p ->
               last p "" = "translated" ->
               get_path p D = Some (JStr s) ->
               exists s',
                 get_path p D' = Some (JStr s')
                 /\ attempt sample_uuid flaky "es" wd wd' s s')
  /\ (forall self k v td wx e' wy,
        translate_entry sample_uuid flaky self "es" k v td wx
        <> (Throw e', wy)).
Proof.
  apply (failure_is_isolated sample_uuid flaky "es" 2 "a" "b"
           "Hello" "<b>World</b>!" "Hello"
           "{{110ec58a-a0f2-4ac4-8393-c866d813b8d1}}!"
           "[es] {{110ec58a-a0f2-4ac4-8393-c866d813b8d1}}!"
           [] [("110ec58a-a0f2-4ac4-8393-c866d813b8d1", "<b>World</b>")]
           w0 w0 (mkWorld 0 [mkRequest "Hello" "es"])
           (mkWorld 1 [mkRequest "Hello" "es"])
           (mkWorld 1
              [mkRequest "{{110ec58a-a0f2-4ac4-8393-c866d813b8d1}}!" "es";
               mkRequest "Hello" "es"])
           (JsError "Failed to fetch"));
    first [reflexivity | discriminate | lia].
Defined.

(** ** The whole operation *)






(** ** The allowance on the depth does not show *)

Section Fuel.

Variable uuidv4 : nat -> string.
Variable fetch : list request -> string -> string -> fetch_outcome.
Variable lang : string.

Lemma promise_all_map_ext (f g : json -> M json) (items : list json) :
  (forall x w, In x items -> f x w = g x w) ->
  forall w, promise_all (map f items) w = promise_all (map g items) w.
Proof.
  induction items as [|x xs IH]; intros H w; cbn [map promise_all];
    [reflexivity|].
  rewrite (H x w (or_introl eq_refl)).
  destruct (g x w) as [[a|e|] w1]; [| |reflexivity].
  - unfold bind. now rewrite (IH (fun y wy Hy => H y wy (or_intror Hy))).
  - now rewrite (IH (fun y wy Hy => H y wy (or_intror Hy))).
Qed.

(** A turn of the loop depends on the recursive call only through what
    it returns for the value, when it is an object or an array, and for
    the objects and arrays among its items. *)
Lemma entry_value_ext (self1 self2 : json -> M json) (k : string)
    (v : json) (w : world) :
  (forall x wx, is_object x = true ->
     x = v \/ (exists items, v = JArr items /\ In x items) ->
     self1 x wx = self2 x wx) ->
  entry_value uuidv4 fetch self1 lang k v w
  = entry_value uuidv4 fetch self2 lang k v w.
Proof.
  intros H. unfold entry_value, try_catch.
  destruct (String.eqb k "original"); [reflexivity|].
  assert (Harr : forall items, v = JArr items ->
             promise_all
               (map (fun item =>
                       if is_object item then self1 item else ret item)
                  items) w
             = promise_all
                 (map (fun item =>
                         if is_object item then self2 item else ret item)
                    items) w).
  { intros items Hv. apply promise_all_map_ext. intros x wx Hx.
    destruct (is_object x) eqn:Ho; [|reflexivity].
    apply H; [exact Ho | right; eauto]. }
  destruct (String.eqb k "translated"), v; try reflexivity; unfold bind;
    match goal with
    | |- context [promise_all (map _ ?its) w] =>
        rewrite (Harr its eq_refl); reflexivity
    | |- context [self1 ?x w] =>
        rewrite (H x w eq_refl (or_introl eq_refl)); reflexivity
    end.
Qed.

Lemma entries_run_ext (val1 val2 : string -> json -> M json)
    (es out : list (string * json)) (w w' : world) :
  (forall k v wx, In (k, v) es -> val1 k v wx = val2 k v wx) ->
  entries_run val1 es w out w' -> entries_run val2 es w out w'.
Proof.
  intros H Hrun.
  induction Hrun as [|k v v' es out w w1 w2 Hv Hrun IH]; [constructor|].
  econstructor.
  - rewrite <- (H k v w (or_introl eq_refl)). exact Hv.
  - apply IH. intros k0 v0 wx Hin. apply H. now right.
Qed.

Lemma for_entries_ext
    (body1 body2 : string -> json -> Obj.t json -> M (Obj.t json))
    (es : list (string * json)) :
  (forall k v td w, In (k, v) es -> body1 k v td w = body2 k v td w) ->
  forall td w, for_entries body1 es td w = for_entries body2 es td w.
Proof.
  induction es as [|[k v] es IH]; intros H td w; cbn [for_entries];
    [reflexivity|].
  unfold bind. rewrite (H k v td w (or_introl eq_refl)).
  destruct (body2 k v td w) as [[td'|e|] w1]; try reflexivity.
  apply IH. intros k0 v0 td0 w0 Hin. apply H. now right.
Qed.

(** Two allowances that both exceed the depth of a value give the same
    run. *)
Lemma fuel_irrelevant (f1 : nat) :
  forall f2 d w, json_depth d < f1 -> json_depth d < f2 ->
    translateNestedJson uuidv4 fetch f1 d lang w
    = translateNestedJson uuidv4 fetch f2 d lang w.
Proof.
  induction f1 as [|f1 IH]; intros f2 d w H1 H2; [lia|].
  destruct f2 as [|f2]; [lia|].
  rewrite !translate_step.
  destruct d as [|b|n|s|items|es]; cbn [Object_entries]; try reflexivity;
    unfold bind at 1, ret at 1;
    [unfold bind at 2, ret at 2 | unfold bind at 2, ret at 2
    | unfold bind at 2, ret at 2];
    unfold bind; erewrite for_entries_ext; try reflexivity;
    intros k v td wx Hin;
    rewrite !translate_entry_value;
    erewrite entry_value_ext; try reflexivity;
    intros x wy Ho Hrel; cbn beta.
  - (* the characters of a string *)
    apply indexed_in, in_map_iff in Hin as (c & <- & _).
    destruct Hrel as [->|(its & E & _)]; discriminate.
  - (* the items of an array *)
    apply indexed_in in Hin. apply depth_item in Hin as Hd.
    apply IH.
    + destruct Hrel as [->|(its & -> & Hx)];
        [lia | apply depth_item in Hx; lia].
    + destruct Hrel as [->|(its & -> & Hx)];
        [lia | apply depth_item in Hx; lia].
  - (* the entries of an object *)
    apply depth_entry in Hin as Hd.
    apply IH.
    + destruct Hrel as [->|(its & -> & Hx)];
        [lia | apply depth_item in Hx; lia].
    + destruct Hrel as [->|(its & -> & Hx)];
        [lia | apply depth_item in Hx; lia].
Qed.

End Fuel.

(** C8 (as amended).  An input that is not valid JSON, and the input
    [null], make the operation report an error: no output is produced and
    the world is as before (nothing was translated).  Every other parsed
    value is accepted: the operation reports no error and outputs an
    object made from the entries that [Object.entries] lists for the
    value (the properties of an object, the items of an array under
    their indices, the characters of a string, nothing for a number or a
    boolean), one property for each in the same order, whose value is
    what the turn of the loop computes for the entry with [Translate] as
    the recursive call (an entry named ["__proto__"] has its turn too,
    and leaves no property). *)
Theorem input_errors_surface (uuidv4 : nat -> string)
    (fetch : list request -> string -> string -> fetch_outcome) (lang : string)
    (st : page) (w : world) :
  (forall message,
     processTranslations uuidv4 fetch (SyntaxError message) lang st w
     = (mkPage None (Some ("Error processing translations: " ++ message))
          false, w))
  /\ (exists message,
        processTranslations uuidv4 fetch (Parsed JNull) lang st w
        = (mkPage None (Some ("Error processing translations: " ++ message))
             false, w))
  /\ (forall d, d <> JNull -> wf_json d = true ->
        exists entries run w',
          Object_entries d w = (Ok entries, w)
          /\ entries_run
               (entry_value uuidv4 fetch
                  (fun item => Translate uuidv4 fetch item lang) lang)
               entries w run w'
          /\ map fst run = map fst entries
          /\ processTranslations uuidv4 fetch (Parsed d) lang st w
             = (mkPage (Some (JObj (Obj.own run))) None false, w')).
Proof.
  split; [reflexivity | split; [eexists; reflexivity|]].
  intros d Hd Hwf. unfold processTranslations. cbn [JSON_parse].
  rewrite bind_ret. unfold Translate at 2.
  destruct (translate_total uuidv4 fetch lang (S (json_depth d)) d w)
    as (out & w' & E); [lia | assumption |].
  rewrite E. rewrite translate_step in E.
  destruct (Object_entries_ok d Hd) as (es & Hes & Hdepth).
  assert (Hnd : NoDup (map fst es)).
  { destruct d as [|b|n|s|items|es0]; cbn [Object_entries] in Hes;
      unfold ret in Hes;
      try (apply (f_equal (fun m => m w)) in Hes; injection Hes as <-).
    - now contradiction Hd.
    - constructor.
    - constructor.
    - apply indexed_NoDup.
    - apply indexed_NoDup.
    - cbn [wf_json] in Hwf. apply andb_true_iff in Hwf as [Hk _].
      now apply distinct_NoDup. }
  rewrite Hes in E |- *. rewrite bind_ret in E. unfold bind, ret in E.
  destruct (for_entries _ es [] w) as [[td|e|] w1] eqn:F; try discriminate.
  injection E as <- <-.
  apply for_entries_run in F; [|assumption | intros k _ []].
  destruct F as (run & -> & Hrun). cbn [app].
  exists es, run, w1. split; [reflexivity|]. split; [|split].
  - eapply entries_run_ext; [|exact Hrun].
    intros k v wx Hin. apply entry_value_ext. intros x wy Ho Hrel.
    unfold Translate. apply fuel_irrelevant; [|lia].
    destruct (Hdepth k v Hin) as [Hv|Hv].
    + destruct Hrel as [->|(its & -> & Hx)];
        [lia | apply depth_item in Hx; lia].
    + destruct Hrel as [->|(its & -> & _)]; [congruence | discriminate].
  - eapply entries_run_keys; exact Hrun.
  - reflexivity.
Qed.

(** C8 as stated fails on a top-level array: it is not rejected, its
    items come back as the properties of an object. *)
Lemma top_level_array_is_accepted :
  processTranslations sample_uuid echo (Parsed (JArr [JNum 1; JNum 2]))
    "es" page0 w0
  = (mkPage (Some (JObj [("0", JNum 1); ("1", JNum 2)])) None false, w0).
Proof. reflexivity. Qed.

(** C10.  [translateText] throws its own error, and leaves the world as it
    is (no request is sent), whenever the text or the target language is
    empty; a request that it does send carries a text and a language that
    are both non-empty; and so do all the requests that a run of
    [translateNestedJson] sends, whatever its input and its outcome. *)
Theorem translateText_requires_both
    (fetch : list request -> string -> string -> fetch_outcome) (text lang : string)
    (w : world) :
  (text = "" \/ lang = "" ->
   translateText fetch text lang w
   = (Throw (JsError "Both text and targetLanguage are required."), w))
  /\ (forall r w',
        translateText fetch text lang w = (r, w') ->
        requests w' = requests w
        \/ (requests w' = mkRequest text lang :: requests w
            /\ text <> "" /\ lang <> ""))
  /\ (forall uuidv4 fuel d r w',
        translateNestedJson uuidv4 fetch fuel d lang w = (r, w') ->
        exists new,
          requests w' = (new ++ requests w)%list
          /\ Forall (fun q => req_text q <> "" /\ req_lang q <> "") new).
Proof.
  split; [|split].
  - unfold translateText. intros [-> | ->]; [reflexivity|].
    rewrite orb_true_r. reflexivity.
  - intros r w'. apply translateText_log.
  - intros uuidv4 fuel d r w' H.
    exact (quiet_translateNestedJson uuidv4 fetch lang fuel d w r w' H).
Qed.

Lemma translateText_requires_both_witness :
  translateText echo "" "es" w0
  = (Throw (JsError "Both text and targetLanguage are required."), w0).
Proof.
  apply (proj1 (translateText_requires_both echo "" "es" w0)).
  left; reflexivity.
Defined.

(** * Further properties of the code *)

(** ** The codec on marked-up strings *)

Lemma length_append (a b : string) :
  String.length (a ++ b) = String.length a + String.length b.
Proof. induction a as [|c a IH]; cbn [append String.length]; lia. Qed.

Lemma all_chars_occurs (p : ascii -> bool) (a : ascii) (s : string) :
  p a = false -> all_chars p s = true -> occurs a s = false.
Proof.
  intros Ha. induction s as [|c s IH]; cbn [all_chars occurs]; [reflexivity|].
  intros H. apply andb_true_iff in H as [Hc Hs].
  destruct (Ascii.eqb a c) eqn:E.
  - apply Ascii.eqb_eq in E. congruence.
  - now apply IH.
Qed.

(** ** Matching *)

Lemma match_here_lazy (re' : Regex.t) (s : string) :
  Regex.match_here (Regex.LazyDots :: re') s = lazy_from re' s "".
Proof. reflexivity. Qed.

Lemma match_lit (l : string) (re : Regex.t) (rest : string)
    (caps : list string) (n : nat) :
  Regex.match_here re rest = Some (caps, n) ->
  Regex.match_here (Regex.Lit l :: re) (l ++ rest)
  = Some (caps, String.length l + n).
Proof.
  intros H. cbn [Regex.match_here]. now rewrite strip_prefix_app, H.
Qed.

(** A lazy group followed by a literal takes the text up to the first
    character of the literal, when no line ends before it. *)
Lemma match_lazy (a : ascii) (l : string) (re : Regex.t) (c tail : string)
    (caps : list string) (n : nat) :
  occurs a c = false ->
  all_chars (fun d => negb (Regex.is_line_terminator d)) c = true ->
  Regex.match_here (Regex.Lit (String a l) :: re) tail = Some (caps, n) ->
  Regex.match_here (Regex.LazyDots :: Regex.Lit (String a l) :: re) (c ++ tail)
  = Some (c :: caps, String.length c + n).
Proof.
  intros Ha Hlt Htail. rewrite match_here_lazy.
  enough (forall taken,
             lazy_from (Regex.Lit (String a l) :: re) (c ++ tail) taken
             = Some ((taken ++ c) :: caps, String.length (taken ++ c) + n))
    as H by exact (H "").
  induction c as [|d c IH]; intros taken.
  - cbn [append]. rewrite append_nil_r.
    destruct tail; cbn [lazy_from]; now rewrite Htail.
  - cbn [occurs all_chars] in Ha, Hlt.
    apply orb_false_iff in Ha as [Had Ha].
    apply andb_true_iff in Hlt as [Hd Hlt]. apply negb_true_iff in Hd.
    cbn [append lazy_from Regex.match_here Str.strip_prefix].
    rewrite Had, Hd, (IH Ha Hlt), append_assoc. reflexivity.
Qed.

(** ** One pass over a text *)

Section Pass.

Variable uuidv4 : nat -> string.
Variable a b : ascii.
Variable l : string.
Variable re : Regex.t.
Variable rebuild : list string -> string.

Local Abbreviation pass := (replace_all uuidv4
                              (Regex.Lit (String a (String b l)) :: re)
                              rebuild).

(** The pass copies an inert text. *)
Lemma replace_all_inert (x rest : string) (ph : placeholders) (w : world) :
  inert a b x = true ->
  pass (x ++ rest) 0 ph w
  = ('(t, ph') <- pass rest 0 ph ;; ret (x ++ t, ph')) w.
Proof.
  revert ph w. induction x as [|c x IH]; intros ph w Hx.
  - cbn [append]. unfold bind, ret.
    destruct (pass rest 0 ph w) as [[[t ph']|e|] w']; reflexivity.
  - cbn [inert] in Hx. apply andb_true_iff in Hx as [Hc Hx].
    assert (Regex.match_here (Regex.Lit (String a (String b l)) :: re)
              (String c (x ++ rest)) = None) as Hm.
    { cbn [Regex.match_here Str.strip_prefix].
      destruct (Ascii.eqb a c) eqn:E; [|reflexivity].
      apply Ascii.eqb_eq in E. subst c. rewrite Ascii.eqb_refl in Hc.
      cbn [negb orb] in Hc.
      destruct x as [|d x]; [discriminate|]. cbn [append].
      apply negb_true_iff in Hc. rewrite Ascii.eqb_sym, Hc. reflexivity. }
    cbn [append replace_all]. rewrite Hm. unfold bind at 1.
    rewrite (IH ph w Hx). unfold bind, ret.
    destruct (pass rest 0 ph w) as [[[t ph']|e|] w']; reflexivity.
Qed.

(** The characters of a match are skipped. *)
Lemma replace_all_skip (x rest : string) (ph : placeholders) (w : world) :
  replace_all uuidv4 (Regex.Lit (String a (String b l)) :: re) rebuild
    (x ++ rest) (String.length x) ph w
  = pass rest 0 ph w.
Proof.
  induction x as [|c x IH]; [reflexivity|].
  cbn [append String.length replace_all]. exact IH.
Qed.

(** The pass replaces a text that the pattern matches as a whole, and
    records what the replacer rebuilds from the captures. *)
Lemma replace_all_match (c0 : ascii) (x rest : string) (caps : list string)
    (ph : placeholders) (w : world) :
  Regex.match_here (Regex.Lit (String a (String b l)) :: re)
    (String c0 x ++ rest) = Some (caps, String.length (String c0 x)) ->
  pass (String c0 x ++ rest) 0 ph w
  = ('(t, ph') <- pass rest 0
                    (Obj.set (uuidv4 (next_id w)) (rebuild caps) ph) ;;
     ret (delimited (uuidv4 (next_id w)) ++ t, ph'))
      (mkWorld (S (next_id w)) (requests w)).
Proof.
  intros Hm. cbn [append] in Hm |- *. cbn [replace_all]. rewrite Hm.
  cbn [String.length]. unfold bind at 1, stash.
  unfold bind at 1. rewrite replace_all_skip. reflexivity.
Qed.

End Pass.

(** ** Inert texts *)

Lemma inert_clean_app (a b : ascii) (x y : string) :
  occurs a x = false -> inert a b (x ++ y) = inert a b y.
Proof.
  induction x as [|c x IH]; cbn [occurs append inert]; [reflexivity|].
  intros H. apply orb_false_iff in H as [Hc Hx].
  rewrite Ascii.eqb_sym, Hc. cbn [negb orb andb]. now apply IH.
Qed.

Lemma inert_clean (a b : ascii) (x : string) :
  occurs a x = false -> inert a b x = true.
Proof.
  intros H. rewrite <- (append_nil_r x). now rewrite inert_clean_app.
Qed.

Lemma inert_head (a b d : ascii) (s : string) :
  Ascii.eqb d b = false ->
  inert a b (String a (String d s)) = inert a b (String d s).
Proof.
  intros H. cbn [inert]. rewrite H. cbn [negb]. now rewrite orb_true_r.
Qed.

Lemma text_char_clean (t : string) :
  all_chars text_char t = true ->
  occurs "<" t = false /\ occurs "$" t = false /\ occurs "{" t = false.
Proof.
  intros H. repeat split;
    (eapply all_chars_occurs; [|exact H]); reflexivity.
Qed.

Lemma inner_char_text (c : string) :
  all_chars inner_char c = true -> all_chars text_char c = true.
Proof.
  induction c as [|d c IH]; cbn [all_chars]; [reflexivity|].
  unfold inner_char at 1. rewrite !andb_true_iff. intros [[H _] Hc].
  split; [exact H | now apply IH].
Qed.

Lemma inner_char_clean (c : string) :
  all_chars inner_char c = true ->
  occurs "<" c = false /\ occurs "$" c = false /\ occurs "{" c = false
  /\ occurs "}" c = false /\ occurs Regex.dquote c = false
  /\ all_chars (fun d => negb (Regex.is_line_terminator d)) c = true.
Proof.
  intros H.
  destruct (text_char_clean c (inner_char_text c H)) as (H1 & H2 & H3).
  repeat split; try assumption.
  - eapply all_chars_occurs; [|exact H]. reflexivity.
  - eapply all_chars_occurs; [|exact H]. reflexivity.
  - clear H1 H2 H3. induction c as [|d c IH]; cbn [all_chars] in *;
      [reflexivity|].
    apply andb_true_iff in H as [Hd Hc]. rewrite (IH Hc), andb_true_r.
    unfold inner_char in Hd. apply andb_true_iff in Hd as [_ Hd].
    apply negb_true_iff, orb_false_iff in Hd as [_ Hd]. now rewrite Hd.
Qed.

Lemma uuid_clean (id : string) :
  is_uuid id = true ->
  occurs "<" (delimited id) = false /\ occurs "$" (delimited id) = false.
Proof. apply delimited_plain. Qed.

Ltac clean_facts :=
  repeat match goal with
    | H : all_chars inner_char _ = true |- _ =>
        apply inner_char_clean in H;
        destruct H as (? & ? & ? & ? & ? & ?)
    | H : all_chars text_char _ = true |- _ =>
        apply text_char_clean in H; destruct H as (? & ? & ?)
    | H : is_uuid _ = true |- _ =>
        apply uuid_clean in H; destruct H as (? & ?)
    | H : _ && _ = true |- _ => apply andb_true_iff in H; destruct H
    end.

Ltac inert_steps :=
  repeat first
    [ rewrite inert_clean_app by assumption
    | progress cbn [append inert negb orb andb Ascii.eqb Bool.eqb
                      Regex.dquote] ];
  try reflexivity; try (apply inert_clean; assumption).

Lemma inert_for_bold (x : seg) :
  safe_seg x = true -> is_bold x = false ->
  inert "<" "b" (render_seg x) = true.
Proof.
  destruct x; cbn [safe_seg marked_up is_bold render_seg]; intros H Hk;
    try discriminate; clean_facts; inert_steps.
Qed.

Lemma inert_for_italic (x : seg) :
  safe_seg x = true -> is_italic x = false ->
  inert "<" "i" (render_seg x) = true.
Proof.
  destruct x; cbn [safe_seg marked_up is_italic render_seg]; intros H Hk;
    try discriminate; clean_facts; inert_steps.
Qed.

Lemma inert_for_link (x : seg) :
  safe_seg x = true -> is_link x = false ->
  inert "<" "a" (render_seg x) = true.
Proof.
  destruct x; cbn [safe_seg marked_up is_link render_seg]; intros H Hk;
    try discriminate; clean_facts; inert_steps.
Qed.

Lemma inert_for_interp (x : seg) :
  safe_seg x = true -> is_interp x = false ->
  inert "$" "{" (render_seg x) = true.
Proof.
  destruct x; cbn [safe_seg marked_up is_interp render_seg]; intros H Hk;
    try discriminate; clean_facts; inert_steps.
Qed.

(** ** The four patterns on their fragments *)

Lemma match_bold (c rest : string) :
  all_chars inner_char c = true ->
  Regex.match_here Regex.bold (render_seg (Bold c) ++ rest)
  = Some ([c], String.length (render_seg (Bold c))).
Proof.
  intros H. clean_facts. cbn [render_seg]. unfold Regex.bold.
  rewrite !append_assoc, !length_append.
  apply match_lit. apply (match_lazy "<"); try assumption.
  apply (match_lit "</b>" [] rest [] 0). reflexivity.
Qed.

Lemma match_italic (c rest : string) :
  all_chars inner_char c = true ->
  Regex.match_here Regex.italic (render_seg (Italic c) ++ rest)
  = Some ([c], String.length (render_seg (Italic c))).
Proof.
  intros H. clean_facts. cbn [render_seg]. unfold Regex.italic.
  rewrite !append_assoc, !length_append.
  apply match_lit. apply (match_lazy "<"); try assumption.
  apply (match_lit "</i>" [] rest [] 0). reflexivity.
Qed.

Lemma match_interp (c rest : string) :
  all_chars inner_char c = true ->
  Regex.match_here Regex.interpolation (render_seg (Interp c) ++ rest)
  = Some ([c], String.length (render_seg (Interp c))).
Proof.
  intros H. clean_facts. cbn [render_seg]. unfold Regex.interpolation.
  rewrite !append_assoc, !length_append.
  apply match_lit. apply (match_lazy "}"); try assumption.
  apply (match_lit "}" [] rest [] 0). reflexivity.
Qed.

Lemma match_link (h c rest : string) :
  all_chars inner_char h = true -> all_chars inner_char c = true ->
  Regex.match_here Regex.link (render_seg (Link h c) ++ rest)
  = Some ([h; c], String.length (render_seg (Link h c))).
Proof.
  intros Hh Hc. clean_facts. unfold Regex.link.
  replace (render_seg (Link h c) ++ rest)
    with (("<a href=" ++ String Regex.dquote "")
          ++ h ++ String Regex.dquote ">" ++ c ++ "</a>" ++ rest)
    by (cbn [render_seg append];
        repeat (rewrite append_assoc; cbn [append]); reflexivity).
  replace (String.length (render_seg (Link h c)))
    with (String.length ("<a href=" ++ String Regex.dquote "")
          + (String.length h
             + (String.length (String Regex.dquote ">")
                + (String.length c + (String.length "</a>" + 0)))))
    by (cbn [render_seg append String.length];
        rewrite !length_append; cbn [String.length append];
        rewrite ?length_append; cbn [String.length]; lia).
  apply match_lit. apply (match_lazy Regex.dquote); try assumption.
  apply (match_lit (String Regex.dquote ">")).
  apply (match_lazy "<"); try assumption.
  apply (match_lit "</a>" [] rest [] 0). reflexivity.
Qed.

(** ** One pass over a safe text *)

Section SegPass.

Variable uuidv4 : nat -> string.
Variable a b : ascii.
Variable l : string.
Variable re : Regex.t.
Variable rebuild : list string -> string.
Variable kind : seg -> bool.

Local Abbreviation the_pass :=
  (replace_all uuidv4 (Regex.Lit (String a (String b l)) :: re) rebuild).

Lemma pass_on_segments (segs : list seg) :
  (forall x, In x segs -> kind x = false ->
     inert a b (render_seg x) = true) ->
  (forall x rest, In x segs -> kind x = true ->
     exists c0 s0 caps,
       render_seg x = String c0 s0
       /\ Regex.match_here (Regex.Lit (String a (String b l)) :: re)
            (render_seg x ++ rest)
          = Some (caps, String.length (render_seg x))
       /\ rebuild caps = render_seg x) ->
  forall ph w,
    the_pass (render segs) 0 ph w
    = (Ok (render (fst (tokenize kind uuidv4 (next_id w) segs)),
           record_all (snd (tokenize kind uuidv4 (next_id w) segs)) ph),
       mkWorld
         (next_id w
          + List.length (snd (tokenize kind uuidv4 (next_id w) segs)))
         (requests w)).
Proof.
  induction segs as [|x segs IH]; intros Hinert Hmatch ph w.
  - cbn [render tokenize fst snd List.length record_all fold_left
           replace_all Regex.match_here Str.strip_prefix].
    rewrite Nat.add_0_r. destruct w; reflexivity.
  - assert (IH' := IH (fun y Hy => Hinert y (or_intror Hy))
                      (fun y rest Hy => Hmatch y rest (or_intror Hy))).
    clear IH. cbn [render tokenize].
    destruct (kind x) eqn:Hk.
    + destruct (Hmatch x (render segs) (or_introl eq_refl) Hk)
        as (c0 & s0 & caps & Hx & Hm & Hr).
      rewrite Hx in Hm |- *.
      rewrite (replace_all_match uuidv4 a b l re rebuild c0 s0 _ caps ph w Hm).
      unfold bind. rewrite IH'. cbn [next_id requests].
      destruct (tokenize kind uuidv4 (S (next_id w)) segs) as [out pairs].
      cbn [fst snd render render_seg List.length record_all fold_left].
      rewrite Hr. unfold ret.
      replace (S (next_id w) + List.length pairs)
        with (next_id w + S (List.length pairs)) by lia.
      reflexivity.
    + rewrite (replace_all_inert uuidv4 a b l re rebuild _ _ ph w
                 (Hinert x (or_introl eq_refl) Hk)).
      unfold bind. rewrite IH'.
      destruct (tokenize kind uuidv4 (next_id w) segs) as [out pairs].
      reflexivity.
Qed.

End SegPass.

(** ** Decoding a safe text *)

Lemma uuid_char_brace (c : ascii) :
  uuid_char c = true -> Ascii.eqb "{" c = false.
Proof.
  destruct c as [[] [] [] [] [] [] [] []]; vm_compute; intros H;
    first [discriminate H | reflexivity].
Qed.

Lemma uuid_no_brace (id : string) :
  is_uuid id = true -> occurs "{" id = false.
Proof.
  unfold is_uuid. rewrite andb_true_iff. intros [_ H].
  induction id as [|c id IH]; cbn [all_chars occurs] in *; [reflexivity|].
  apply andb_true_iff in H as [Hc Hid].
  now rewrite (uuid_char_brace c Hc), (IH Hid).
Qed.

Lemma uuid_length (id : string) :
  is_uuid id = true -> String.length id = 36.
Proof.
  unfold is_uuid. rewrite andb_true_iff. intros [H _].
  now apply Nat.eqb_eq.
Qed.

(** A text that begins with [a] and [b] is not found in an inert text. *)
Lemma split_first_inert (a b : ascii) (l x rest : string) :
  inert a b x = true ->
  Str.split_first (String a (String b l)) (x ++ rest)
  = match Str.split_first (String a (String b l)) rest with
    | Some (before, after) => Some (x ++ before, after)
    | None => None
    end.
Proof.
  induction x as [|c x IH]; intros Hx.
  - cbn [append].
    destruct (Str.split_first (String a (String b l)) rest) as [[? ?]|];
      reflexivity.
  - cbn [inert] in Hx. apply andb_true_iff in Hx as [Hc Hx].
    assert (Str.strip_prefix (String a (String b l)) (String c (x ++ rest))
            = None) as Hm.
    { cbn [Str.strip_prefix].
      destruct (Ascii.eqb a c) eqn:E; [|reflexivity].
      apply Ascii.eqb_eq in E. subst c. rewrite Ascii.eqb_refl in Hc.
      cbn [negb orb] in Hc.
      destruct x as [|d x]; [discriminate|]. cbn [append].
      apply negb_true_iff in Hc. rewrite Ascii.eqb_sym, Hc. reflexivity. }
    cbn [append Str.split_first]. rewrite Hm, (IH Hx).
    destruct (Str.split_first (String a (String b l)) rest) as [[? ?]|];
      reflexivity.
Qed.

Lemma strip_prefix_differs (x y p q : string) :
  String.length x = String.length y -> x <> y ->
  Str.strip_prefix (x ++ p) (y ++ q) = None.
Proof.
  revert y. induction x as [|c x IH]; intros [|d y]; cbn [String.length];
    try discriminate.
  - congruence.
  - intros [= Hlen] Hne. cbn [append Str.strip_prefix].
    destruct (Ascii.eqb c d) eqn:E; [|reflexivity].
    apply Ascii.eqb_eq in E. subst d. apply IH; congruence.
Qed.

(** The delimited form of an identifier is not found in the delimited
    form of another. *)
Lemma split_first_other_token (id id' rest : string) :
  is_uuid id = true -> is_uuid id' = true -> id <> id' ->
  Str.split_first (delimited id) (delimited id' ++ rest)
  = match Str.split_first (delimited id) rest with
    | Some (before, after) => Some (delimited id' ++ before, after)
    | None => None
    end.
Proof.
  intros U U' Hne.
  assert (Str.strip_prefix (delimited id) (delimited id' ++ rest) = None)
    as H0.
  { unfold delimited. rewrite !append_assoc.
    cbn [append Str.strip_prefix Ascii.eqb Bool.eqb].
    apply strip_prefix_differs; [|assumption].
    now rewrite !uuid_length. }
  assert (inert "{" "{" ("{" ++ id' ++ "}}") = true) as Hin.
  { assert (Hb := uuid_no_brace id' U').
    destruct id' as [|c id']; [discriminate U'|].
    cbn [append]. rewrite inert_head.
    - apply inert_clean. change (String c (id' ++ "}}"))
        with (String c id' ++ "}}"). now rewrite occurs_app, Hb.
    - cbn [occurs] in Hb. apply orb_false_iff in Hb as [Hc _].
      now rewrite Ascii.eqb_sym. }
  change (delimited id' ++ rest)
    with (String "{" (("{" ++ id' ++ "}}") ++ rest)) in H0 |- *.
  change (delimited id) with (String "{" (String "{" (id ++ "}}"))) in H0 |- *.
  cbn [Str.split_first]. rewrite H0.
  rewrite (split_first_inert "{" "{" _ _ rest Hin).
  destruct (Str.split_first _ rest) as [[? ?]|]; reflexivity.
Qed.

Lemma inert_for_token (x : seg) :
  marked_up x = true -> inert "{" "{" (render_seg x) = true.
Proof.
  destruct x; cbn [marked_up render_seg]; intros H; try discriminate;
    clean_facts; inert_steps.
  (* the brace of an interpolation is followed by its content *)
  rewrite andb_true_r. destruct c as [|d c]; [reflexivity|].
  cbn [append]. cbn [occurs] in H1.
  apply orb_false_iff in H1 as [Hd _].
  now rewrite Ascii.eqb_sym, Hd.
Qed.

(** A fragment is its own replacement text. *)
Lemma fragment_substitution (x : seg) (m before after : string) :
  marked_up x = true ->
  Str.get_substitution m before after (render_seg x) = render_seg x.
Proof.
  destruct x; cbn [marked_up render_seg]; intros H; try discriminate;
    clean_facts;
    try (apply get_substitution_plain; rewrite ?occurs_app;
         cbn [occurs append Ascii.eqb Bool.eqb Regex.dquote orb];
         rewrite ?occurs_app;
         repeat match goal with
           | H : occurs _ _ = false |- _ => rewrite H
           end; reflexivity).
  (* an interpolation: its dollar sign is followed by a brace *)
  cbn [append Str.get_substitution Ascii.eqb Bool.eqb].
  do 2 f_equal. apply get_substitution_plain.
  rewrite occurs_app.
  match goal with H : occurs "$" c = false |- _ => rewrite H end.
  reflexivity.
Qed.

Lemma replace_first_skip (pat f x rest : string) :
  (forall m before after, Str.get_substitution m before after f = f) ->
  Str.split_first pat (x ++ rest)
  = match Str.split_first pat rest with
    | Some (before, after) => Some (x ++ before, after)
    | None => None
    end ->
  Str.replace_first pat f (x ++ rest) = x ++ Str.replace_first pat f rest.
Proof.
  intros Hf H. unfold Str.replace_first. rewrite H.
  destruct (Str.split_first pat rest) as [[before after]|]; [|reflexivity].
  now rewrite !Hf, append_assoc.
Qed.

Lemma safe_seg_marked_up (x : seg) : marked_up x = true -> safe_seg x = true.
Proof. destruct x; cbn [marked_up safe_seg]; congruence. Qed.

Lemma restore_safe (id : string) (x : seg) (cur : list seg) :
  marked_up x = true -> forallb safe_seg cur = true ->
  forallb safe_seg (restore id x cur) = true.
Proof.
  intros Hx. induction cur as [|y cur IH]; [reflexivity|].
  cbn [forallb]. rewrite andb_true_iff. intros [Hy Hcur].
  destruct y; cbn [restore forallb]; try (rewrite Hy, IH; auto; fail).
  destruct (String.eqb id id0); cbn [forallb].
  - now rewrite (safe_seg_marked_up x Hx), Hcur.
  - now rewrite Hy, IH.
Qed.

(** One step of the decoder on a safe text: the first delimited [id], if
    there is one, becomes the fragment again. *)
Lemma replace_first_restore (id : string) (x : seg) (cur : list seg) :
  is_uuid id = true -> marked_up x = true ->
  forallb safe_seg cur = true ->
  Str.replace_first (delimited id) (render_seg x) (render cur)
  = render (restore id x cur).
Proof.
  intros U Hx.
  assert (Hf := fun m b a => fragment_substitution x m b a Hx).
  induction cur as [|y cur IH]; [reflexivity|].
  cbn [forallb]. rewrite andb_true_iff. intros [Hy Hcur].
  specialize (IH Hcur). cbn [render].
  assert (marked_up y = true ->
          Str.replace_first (delimited id) (render_seg x)
            (render_seg y ++ render cur)
          = render_seg y ++ render (restore id x cur)) as Hother.
  { intros Hm. rewrite <- IH. apply replace_first_skip; [exact Hf|].
    change (delimited id) with (String "{" (String "{" (id ++ "}}"))).
    apply split_first_inert. now apply inert_for_token. }
  destruct y; cbn [safe_seg] in Hy; cbn [restore render];
    try (apply Hother; exact Hy).
  destruct (String.eqb id id0) eqn:E.
  - apply String.eqb_eq in E. subst id0. cbn [render render_seg].
    unfold Str.replace_first. rewrite split_first_here, Hf. reflexivity.
  - apply String.eqb_neq in E. cbn [render render_seg].
    rewrite <- IH. apply replace_first_skip; [exact Hf|].
    now apply split_first_other_token.
Qed.

(** The decoder on a safe text and the pairs of its fragments. *)
Lemma postprocess_segments (pairs : list (string * seg)) :
  forall cur,
    forallb safe_seg cur = true ->
    forallb (fun p => is_uuid (fst p) && marked_up (snd p)) pairs = true ->
    postprocessText (render cur)
      (map (fun p => (fst p, render_seg (snd p))) pairs)
    = render (restore_all pairs cur).
Proof.
  induction pairs as [|[id x] pairs IH]; intros cur Hcur; [reflexivity|].
  cbn [forallb fst snd map]. rewrite !andb_true_iff. intros [[U Hx] Hps].
  rewrite postprocess_cons, replace_first_restore by assumption.
  cbn [restore_all fold_left fst snd].
  apply IH; [now apply restore_safe | assumption].
Qed.

Lemma record_all_fresh (pairs : list (string * seg)) :
  forall ph,
    NoDup (Obj.keys ph ++ map fst pairs)%list ->
    record_all pairs ph
    = (ph ++ map (fun p => (fst p, render_seg (snd p))) pairs)%list.
Proof.
  induction pairs as [|[id x] pairs IH]; intros ph Hnd;
    cbn [record_all fold_left map fst snd].
  - now rewrite app_nil_r.
  - cbn [map fst] in Hnd.
    fold (record_all pairs (Obj.set id (render_seg x) ph)).
    rewrite obj_set_fresh.
    + rewrite IH; [now rewrite <- app_assoc|].
      unfold Obj.keys. rewrite map_app, <- app_assoc. exact Hnd.
    + apply NoDup_remove_2 in Hnd. intros Hin. apply Hnd.
      apply in_or_app. now left.
Qed.

(** ** Restoring, on lists of segments *)

Lemma restore_absent (id : string) (x : seg) (cur : list seg) :
  ~ In id (tok_ids cur) -> restore id x cur = cur.
Proof.
  induction cur as [|y cur IH]; [reflexivity|].
  destruct y; cbn [tok_ids restore]; intros H;
    try (now rewrite IH).
  destruct (String.eqb id id0) eqn:E.
  - apply String.eqb_eq in E. subst. exfalso. apply H. now left.
  - rewrite IH; [reflexivity|]. intros Hin. apply H. now right.
Qed.

Lemma agree_drop (id : string) (x : seg) (pairs : list (string * seg))
    (cur orig : list seg) :
  agree ((id, x) :: pairs) cur orig ->
  ~ In id (tok_ids cur) ->
  agree pairs cur orig.
Proof.
  unfold agree. induction 1 as [|c o cur orig Hco H IH]; intros Hid;
    constructor.
  - destruct Hco as [->|(j & -> & [[= <- <-]|Hin])];
      [now left | | right; eauto].
    exfalso. apply Hid. now left.
  - apply IH. intros Hin. apply Hid.
    destruct c; cbn [tok_ids]; try assumption. now right.
Qed.

Lemma marked_up_no_tok (x : seg) (l : list seg) :
  marked_up x = true -> tok_ids (x :: l) = tok_ids l.
Proof. destruct x; cbn [marked_up tok_ids]; congruence. Qed.

Lemma restore_tok_ids (id : string) (x : seg) (cur : list seg) :
  marked_up x = true ->
  forall j, In j (tok_ids (restore id x cur)) -> In j (tok_ids cur).
Proof.
  intros Hx j. induction cur as [|c cur IH]; [exact (fun H => H)|].
  destruct c; cbn [restore tok_ids]; try exact IH.
  destruct (String.eqb id id0).
  - rewrite (marked_up_no_tok x cur Hx). now right.
  - cbn [tok_ids]. intros [->|H]; [now left | right; now apply IH].
Qed.

Lemma restore_NoDup (id : string) (x : seg) (cur : list seg) :
  marked_up x = true ->
  NoDup (tok_ids cur) -> NoDup (tok_ids (restore id x cur)).
Proof.
  intros Hx. induction cur as [|c cur IH]; [exact (fun H => H)|].
  destruct c; cbn [restore tok_ids]; try exact IH.
  intros Hnd. inversion Hnd as [|? ? Hj Hnd']; subst.
  destruct (String.eqb id id0).
  - now rewrite (marked_up_no_tok x cur Hx).
  - cbn [tok_ids]. constructor; [|now apply IH].
    intros Hin. apply Hj. eapply restore_tok_ids; eassumption.
Qed.

(** When the delimited identifiers of a safe text are pairwise different
    and the text agrees with the original on the pairs, restoring the
    pairs, in any order, gives the original. *)
Lemma restore_all_agree (pairs : list (string * seg)) :
  forall cur orig,
    agree pairs cur orig ->
    tok_ids orig = [] ->
    NoDup (tok_ids cur) ->
    NoDup (map fst pairs) ->
    forallb (fun p => marked_up (snd p)) pairs = true ->
    restore_all pairs cur = orig.
Proof.
  induction pairs as [|[id x] pairs IH];
    intros cur orig Hag Horig Hnd Hkeys Hmk.
  - cbn [restore_all fold_left]. unfold agree in Hag. clear Hnd.
    induction Hag as [|c o cur orig Hco H IHag]; [reflexivity|].
    destruct Hco as [->|(j & _ & [])].
    f_equal. apply IHag.
    destruct o; cbn [tok_ids] in Horig; congruence.
  - cbn [restore_all fold_left fst snd].
    fold (restore_all pairs (restore id x cur)).
    cbn [map fst] in Hkeys. inversion Hkeys as [|? ? Hid Hkeys']; subst.
    cbn [forallb snd] in Hmk. apply andb_true_iff in Hmk as [Hx Hmk].
    apply IH; try assumption; [|now apply restore_NoDup].
    clear IH. unfold agree in *.
    induction Hag as [|c o cur orig Hco H IHag]; [constructor|].
    assert (tok_ids orig = []) as Horig'
        by (destruct o; cbn [tok_ids] in Horig; congruence).
    destruct Hco as [->|(j & -> & Hin)].
    + (* an original segment: not a delimited identifier *)
      destruct o; cbn [tok_ids] in Horig, Hnd; try discriminate;
        cbn [restore]; (constructor; [now left | now apply IHag]).
    + cbn [tok_ids] in Hnd. inversion Hnd as [|? ? Hj Hnd']; subst.
      cbn [restore]. destruct (String.eqb id j) eqn:E.
      * apply String.eqb_eq in E. subst j. constructor.
        -- left. destruct Hin as [[= <-]|Hin]; [reflexivity|].
           exfalso. apply Hid. apply in_map_iff.
           exists (id, o). now split.
        -- now apply (agree_drop id x).
      * apply String.eqb_neq in E. constructor.
        -- right. exists j. split; [reflexivity|].
           destruct Hin as [[= ? ?]|Hin]; [congruence | exact Hin].
        -- now apply IHag.
Qed.

(** ** One pass, on lists of segments *)

Section Tokenize.

Variable uuidv4 : nat -> string.
Variable kind : seg -> bool.

(** The pass extracts fragments, never delimited identifiers. *)
Hypothesis kind_fragment : forall x, kind x = true -> is_fragment x = true.

Lemma kind_marked_up (x : seg) :
  kind x = true -> safe_seg x = true -> marked_up x = true.
Proof.
  intros Hk. apply kind_fragment in Hk.
  destruct x; cbn [is_fragment] in Hk; try discriminate; exact (fun H => H).
Qed.

Lemma tokenize_keys (cur : list seg) :
  forall n,
    map fst (snd (tokenize kind uuidv4 n cur))
    = map uuidv4 (seq n (List.length (snd (tokenize kind uuidv4 n cur)))).
Proof.
  induction cur as [|x cur IH]; intros n; cbn [tokenize]; [reflexivity|].
  destruct (kind x).
  - specialize (IH (S n)).
    destruct (tokenize kind uuidv4 (S n) cur) as [out pairs].
    cbn [snd fst map List.length seq] in *. now rewrite IH.
  - specialize (IH n).
    destruct (tokenize kind uuidv4 n cur) as [out pairs]. exact IH.
Qed.

Lemma tokenize_fragments (cur : list seg) :
  forall n,
    List.length (snd (tokenize kind uuidv4 n cur))
    + List.length (fragments (fst (tokenize kind uuidv4 n cur)))
    = List.length (fragments cur).
Proof.
  induction cur as [|x cur IH]; intros n; cbn [tokenize]; [reflexivity|].
  destruct (kind x) eqn:Hk.
  - specialize (IH (S n)).
    destruct (tokenize kind uuidv4 (S n) cur) as [out pairs].
    cbn [fst snd] in *. unfold fragments in *. cbn [filter is_fragment].
    rewrite (kind_fragment x Hk). cbn [List.length]. lia.
  - specialize (IH n).
    destruct (tokenize kind uuidv4 n cur) as [out pairs].
    cbn [fst snd] in *. unfold fragments in *. cbn [filter].
    destruct (is_fragment x); cbn [List.length]; lia.
Qed.

Lemma tokenize_tok_ids (cur : list seg) :
  forall n id,
    In id (tok_ids (fst (tokenize kind uuidv4 n cur))) ->
    In id (tok_ids cur)
    \/ In id (map fst (snd (tokenize kind uuidv4 n cur))).
Proof.
  induction cur as [|x cur IH]; intros n id; cbn [tokenize];
    [now left|].
  destruct (kind x) eqn:Hk.
  - specialize (IH (S n) id).
    assert (tok_ids (x :: cur) = tok_ids cur) as ->
        by (apply kind_fragment in Hk; destruct x; try discriminate;
            reflexivity).
    destruct (tokenize kind uuidv4 (S n) cur) as [out pairs].
    cbn [fst snd tok_ids map] in *.
    intros [<-|H]; [right; now left|].
    destruct (IH H) as [?|?]; [now left | right; now right].
  - specialize (IH n id).
    destruct (tokenize kind uuidv4 n cur) as [out pairs].
    cbn [fst snd] in *.
    destruct x; cbn [tok_ids]; try exact IH.
    intros [<-|H]; [left; now left|].
    destruct (IH H) as [?|?]; [left; now right | now right].
Qed.

Lemma tokenize_safe (cur : list seg) :
  forall n,
    forallb safe_seg cur = true ->
    (forall i, n <= i < n + List.length (snd (tokenize kind uuidv4 n cur)) ->
       is_uuid (uuidv4 i) = true) ->
    forallb safe_seg (fst (tokenize kind uuidv4 n cur)) = true
    /\ forallb (fun p => marked_up (snd p))
         (snd (tokenize kind uuidv4 n cur)) = true.
Proof.
  induction cur as [|x cur IH]; intros n; cbn [tokenize forallb];
    [now split|].
  rewrite andb_true_iff. intros [Hx Hcur].
  destruct (kind x) eqn:Hk.
  - specialize (IH (S n) Hcur).
    destruct (tokenize kind uuidv4 (S n) cur) as [out pairs].
    cbn [fst snd forallb safe_seg List.length] in *. intros Hu.
    destruct IH as [-> ->]; [intros i Hi; apply Hu; lia|].
    rewrite (Hu n) by lia. now rewrite (kind_marked_up x Hk Hx).
  - specialize (IH n Hcur).
    destruct (tokenize kind uuidv4 n cur) as [out pairs].
    cbn [fst snd forallb] in *. intros Hu.
    destruct (IH Hu) as [-> ->]. now rewrite Hx.
Qed.

Lemma agree_more (P Q : list (string * seg)) (cur orig : list seg) :
  agree P cur orig -> (forall p, In p P -> In p Q) -> agree Q cur orig.
Proof.
  unfold agree. intros H Hincl.
  induction H as [|c o cur orig Hco H IH]; constructor; [|exact IH].
  destruct Hco as [->|(j & -> & Hin)]; [now left | right; eauto].
Qed.

Lemma tokenize_agree (P : list (string * seg)) (cur orig : list seg) :
  agree P cur orig ->
  forall n,
    agree (P ++ snd (tokenize kind uuidv4 n cur))
      (fst (tokenize kind uuidv4 n cur)) orig.
Proof.
  unfold agree. induction 1 as [|c o cur orig Hco H IH]; intros n;
    cbn [tokenize]; [constructor|].
  destruct (kind c) eqn:Hk.
  - specialize (IH (S n)).
    destruct (tokenize kind uuidv4 (S n) cur) as [out pairs].
    cbn [fst snd] in *. constructor.
    + right. exists (uuidv4 n). split; [reflexivity|].
      apply in_or_app. right. left.
      destruct Hco as [->|(j & -> & _)]; [reflexivity|].
      apply kind_fragment in Hk. discriminate.
    + eapply (agree_more _ _ _ _ IH). intros p Hp.
      apply in_app_or in Hp as [?|?]; apply in_or_app;
        [now left | right; now right].
  - specialize (IH n).
    destruct (tokenize kind uuidv4 n cur) as [out pairs].
    cbn [fst snd] in *. constructor; [|exact IH].
    destruct Hco as [->|(j & -> & Hin)]; [now left|].
    right. exists j. split; [reflexivity|]. apply in_or_app. now left.
Qed.

Lemma tokenize_NoDup (cur : list seg) :
  forall n,
    NoDup (tok_ids cur) ->
    (forall i, n <= i < n + List.length (snd (tokenize kind uuidv4 n cur)) ->
       ~ In (uuidv4 i) (tok_ids cur)) ->
    NoDup (map uuidv4
             (seq n (List.length (snd (tokenize kind uuidv4 n cur))))) ->
    NoDup (tok_ids (fst (tokenize kind uuidv4 n cur))).
Proof.
  induction cur as [|x cur IH]; intros n; cbn [tokenize];
    [intros; constructor|].
  destruct (kind x) eqn:Hk.
  - assert (Hin := tokenize_tok_ids cur (S n)).
    assert (Hkeys := tokenize_keys cur (S n)).
    specialize (IH (S n)).
    assert (tok_ids (x :: cur) = tok_ids cur) as ->
        by (apply kind_fragment in Hk; destruct x; try discriminate;
            reflexivity).
    destruct (tokenize kind uuidv4 (S n) cur) as [out pairs].
    cbn [fst snd List.length seq map tok_ids] in *.
    intros Hnd Hnew Hd. inversion Hd as [|? ? Hn Hd']; subst.
    constructor.
    + intros H. destruct (Hin _ H) as [H1|H1].
      * apply (Hnew n); [lia | exact H1].
      * rewrite Hkeys in H1. contradiction.
    + apply IH; try assumption. intros i Hi. apply Hnew. lia.
  - assert (Hin := tokenize_tok_ids cur n).
    assert (Hkeys := tokenize_keys cur n).
    specialize (IH n).
    destruct (tokenize kind uuidv4 n cur) as [out pairs].
    cbn [fst snd] in *.
    destruct x; cbn [tok_ids]; try exact IH.
    intros Hnd Hnew Hd. inversion Hnd as [|? ? Hj Hnd']; subst.
    constructor.
    + intros H. destruct (Hin _ H) as [H1|H1]; [contradiction|].
      rewrite Hkeys in H1. apply in_map_iff in H1 as (i & Hi & Hr).
      apply in_seq in Hr. apply (Hnew i); [lia|]. left. now symmetry.
    + apply IH; try assumption.
      intros i Hi H. apply (Hnew i Hi). now right.
Qed.

End Tokenize.

(** ** The four passes *)

Lemma map_inj_on {A B} (f : A -> B) (l : list A) (x y : A) :
  NoDup (map f l) -> In x l -> In y l -> f x = f y -> x = y.
Proof.
  induction l as [|z l IH]; cbn [map In]; [contradiction|].
  intros Hnd Hx Hy E. inversion Hnd as [|? ? Hz Hnd']; subst.
  destruct Hx as [->|Hx], Hy as [->|Hy]; try reflexivity.
  - exfalso. apply Hz. rewrite E. now apply in_map.
  - exfalso. apply Hz. rewrite <- E. now apply in_map.
  - now apply IH.
Qed.

Lemma marked_up_tok_ids (segs : list seg) :
  forallb marked_up segs = true -> tok_ids segs = [].
Proof.
  induction segs as [|x segs IH]; [reflexivity|].
  cbn [forallb]. rewrite andb_true_iff. intros [Hx Hs].
  rewrite (marked_up_no_tok x segs Hx). now apply IH.
Qed.

Lemma kinds_are_fragments (x : seg) :
  (is_bold x = true -> is_fragment x = true)
  /\ (is_italic x = true -> is_fragment x = true)
  /\ (is_link x = true -> is_fragment x = true)
  /\ (is_interp x = true -> is_fragment x = true).
Proof. destruct x; repeat split; intros H; try discriminate H; reflexivity. Qed.

Lemma marked_up_safe (segs : list seg) :
  forallb marked_up segs = true -> forallb safe_seg segs = true.
Proof.
  induction segs as [|x l IH]; [reflexivity|].
  cbn [forallb]. rewrite !andb_true_iff. intros [Hx Hl].
  split; [now apply safe_seg_marked_up | now apply IH].
Qed.

Lemma agree_refl (P : list (string * seg)) (segs : list seg) :
  agree P segs segs.
Proof. unfold agree. induction segs; constructor; auto. Qed.

(** What [pass_on_segments] asks of each pattern, on a safe text. *)
Lemma bold_matches (cur : list seg) :
  forallb safe_seg cur = true ->
  forall x rest, In x cur -> is_bold x = true ->
    exists c0 s0 caps,
      render_seg x = String c0 s0
      /\ Regex.match_here Regex.bold (render_seg x ++ rest)
         = Some (caps, String.length (render_seg x))
      /\ "<b>" ++ capture 0 caps ++ "</b>" = render_seg x.
Proof.
  intros Hs x rest Hin Hk. rewrite forallb_forall in Hs.
  specialize (Hs x Hin). destruct x; try discriminate Hk.
  cbn [safe_seg marked_up] in Hs.
  exists "<"%char, ("b>" ++ c ++ "</b>"), [c].
  repeat split. now apply match_bold.
Qed.

Lemma italic_matches (cur : list seg) :
  forallb safe_seg cur = true ->
  forall x rest, In x cur -> is_italic x = true ->
    exists c0 s0 caps,
      render_seg x = String c0 s0
      /\ Regex.match_here Regex.italic (render_seg x ++ rest)
         = Some (caps, String.length (render_seg x))
      /\ "<i>" ++ capture 0 caps ++ "</i>" = render_seg x.
Proof.
  intros Hs x rest Hin Hk. rewrite forallb_forall in Hs.
  specialize (Hs x Hin). destruct x; try discriminate Hk.
  cbn [safe_seg marked_up] in Hs.
  exists "<"%char, ("i>" ++ c ++ "</i>"), [c].
  repeat split. now apply match_italic.
Qed.

Lemma link_matches (cur : list seg) :
  forallb safe_seg cur = true ->
  forall x rest, In x cur -> is_link x = true ->
    exists c0 s0 caps,
      render_seg x = String c0 s0
      /\ Regex.match_here Regex.link (render_seg x ++ rest)
         = Some (caps, String.length (render_seg x))
      /\ "<a href=" ++ String Regex.dquote (capture 0 caps)
         ++ String Regex.dquote ">" ++ capture 1 caps ++ "</a>"
         = render_seg x.
Proof.
  intros Hs x rest Hin Hk. rewrite forallb_forall in Hs.
  specialize (Hs x Hin). destruct x; try discriminate Hk.
  cbn [safe_seg marked_up] in Hs. apply andb_true_iff in Hs as [Hh Hc].
  exists "<"%char,
    ("a href=" ++ String Regex.dquote href
     ++ String Regex.dquote ">" ++ c ++ "</a>"), [href; c].
  repeat split. now apply match_link.
Qed.

Lemma interp_matches (cur : list seg) :
  forallb safe_seg cur = true ->
  forall x rest, In x cur -> is_interp x = true ->
    exists c0 s0 caps,
      render_seg x = String c0 s0
      /\ Regex.match_here Regex.interpolation (render_seg x ++ rest)
         = Some (caps, String.length (render_seg x))
      /\ "${" ++ capture 0 caps ++ "}" = render_seg x.
Proof.
  intros Hs x rest Hin Hk. rewrite forallb_forall in Hs.
  specialize (Hs x Hin). destruct x; try discriminate Hk.
  cbn [safe_seg marked_up] in Hs.
  exists "$"%char, ("{" ++ c ++ "}"), [c].
  repeat split. now apply match_interp.
Qed.

Lemma record_all_app (P Q : list (string * seg)) (ph : placeholders) :
  record_all Q (record_all P ph) = record_all (P ++ Q) ph.
Proof. unfold record_all. now rewrite fold_left_app. Qed.

Section Stages.

Variable uuidv4 : nat -> string.
Variable n0 : nat.
Variable orig : list seg.

Hypothesis ids_wf :
  forall i, n0 <= i < n0 + List.length (fragments orig) ->
    is_uuid (uuidv4 i) = true.
Hypothesis ids_distinct :
  NoDup (map uuidv4 (seq n0 (List.length (fragments orig)))).

Lemma ids_inj (i j : nat) :
  n0 <= i < n0 + List.length (fragments orig) ->
  n0 <= j < n0 + List.length (fragments orig) ->
  uuidv4 i = uuidv4 j -> i = j.
Proof.
  intros Hi Hj. apply (map_inj_on uuidv4 _ i j ids_distinct);
    apply in_seq; lia.
Qed.

Lemma ids_range_NoDup (a k : nat) :
  n0 <= a -> a + k <= n0 + List.length (fragments orig) ->
  NoDup (map uuidv4 (seq a k)).
Proof.
  revert a. induction k as [|k IH]; intros a Ha Hk; cbn [seq map];
    constructor.
  - intros H. apply in_map_iff in H as (j & E & Hj). apply in_seq in Hj.
    apply ids_inj in E; lia.
  - apply IH; lia.
Qed.

Lemma stage_start :
  forallb marked_up orig = true -> stage uuidv4 n0 orig orig [].
Proof.
  intros H. assert (Ht := marked_up_tok_ids orig H).
  unfold stage. rewrite Ht. repeat split; try constructor.
  - now apply marked_up_safe.
  - apply agree_refl.
  - intros id [].
Qed.

Lemma stage_step (kind : seg -> bool) (cur : list seg)
    (P : list (string * seg)) :
  (forall x, kind x = true -> is_fragment x = true) ->
  stage uuidv4 n0 orig cur P ->
  stage uuidv4 n0 orig
    (fst (tokenize kind uuidv4 (n0 + List.length P) cur))
    (P ++ snd (tokenize kind uuidv4 (n0 + List.length P) cur)).
Proof.
  intros Hkind (Hsafe & Hag & Hsub & Hnd & Hkeys & Hmk & Hcount).
  assert (Hfr := tokenize_fragments uuidv4 kind Hkind cur
                   (n0 + List.length P)).
  assert (Hk := tokenize_keys uuidv4 kind cur (n0 + List.length P)).
  assert (Hin := tokenize_tok_ids uuidv4 kind Hkind cur
                   (n0 + List.length P)).
  assert (Hs := tokenize_safe uuidv4 kind Hkind cur (n0 + List.length P)
                  Hsafe).
  assert (Ha := tokenize_agree uuidv4 kind Hkind P cur orig Hag
                  (n0 + List.length P)).
  assert (Hn := tokenize_NoDup uuidv4 kind Hkind cur (n0 + List.length P)
                  Hnd).
  destruct (tokenize kind uuidv4 (n0 + List.length P) cur) as [out pairs].
  cbn [fst snd] in *.
  destruct Hs as [Hsafe' Hmk']; [intros i Hi; apply ids_wf; lia|].
  unfold stage. repeat split.
  - exact Hsafe'.
  - exact Ha.
  - intros id H. rewrite map_app. apply in_or_app.
    destruct (Hin id H) as [H1|H1]; [left; now apply Hsub | now right].
  - apply Hn.
    + intros i Hi H. apply Hsub in H. rewrite Hkeys in H.
      apply in_map_iff in H as (j & E & Hj). apply in_seq in Hj.
      apply ids_inj in E; lia.
    + apply ids_range_NoDup; lia.
  - rewrite map_app, Hkeys, Hk, length_app, seq_app, map_app. reflexivity.
  - rewrite forallb_app, Hmk, Hmk'. reflexivity.
  - rewrite length_app. lia.
Qed.

(** After the four passes. *)
Lemma stage_end :
  forallb marked_up orig = true ->
  stage uuidv4 n0 orig (fst (encode_segments uuidv4 n0 orig))
    (snd (encode_segments uuidv4 n0 orig)).
Proof.
  intros H. unfold encode_segments. cbn [fst snd].
  assert (S0 := stage_start H).
  assert (S1 := stage_step is_bold _ _
                  (fun x => proj1 (kinds_are_fragments x)) S0).
  cbn [List.length app] in S1. rewrite Nat.add_0_r in S1.
  assert (S2 := stage_step is_italic _ _
                  (fun x => proj1 (proj2 (kinds_are_fragments x))) S1).
  assert (S3 := stage_step is_link _ _
                  (fun x => proj1 (proj2 (proj2 (kinds_are_fragments x))))
                  S2).
  exact (stage_step is_interp _ _
           (fun x => proj2 (proj2 (proj2 (kinds_are_fragments x)))) S3).
Qed.

(** [preprocessText] on a marked-up string, pass by pass. *)
Lemma preprocess_segments (w : world) :
  next_id w = n0 ->
  forallb marked_up orig = true ->
  preprocessText uuidv4 (render orig) w
  = (Ok (render (fst (encode_segments uuidv4 n0 orig)),
         record_all (snd (encode_segments uuidv4 n0 orig)) []),
     mkWorld (n0 + List.length (snd (encode_segments uuidv4 n0 orig)))
       (requests w)).
Proof.
  intros Hw H. unfold encode_segments. cbn [fst snd].
  assert (S0 := stage_start H).
  assert (S1 := stage_step is_bold _ _
                  (fun x => proj1 (kinds_are_fragments x)) S0).
  cbn [List.length app] in S1. rewrite Nat.add_0_r in S1.
  assert (S2 := stage_step is_italic _ _
                  (fun x => proj1 (proj2 (kinds_are_fragments x))) S1).
  assert (S3 := stage_step is_link _ _
                  (fun x => proj1 (proj2 (proj2 (kinds_are_fragments x))))
                  S2).
  destruct S0 as (F0 & _), S1 as (F1 & _), S2 as (F2 & _), S3 as (F3 & _).
  rewrite forallb_forall in F0, F1, F2, F3.
  set (t1 := tokenize is_bold uuidv4 n0 orig) in *.
  set (P1 := snd t1) in *.
  set (t2 := tokenize is_italic uuidv4 (n0 + List.length P1) (fst t1)) in *.
  set (P2 := (P1 ++ snd t2)%list) in *.
  set (t3 := tokenize is_link uuidv4 (n0 + List.length P2) (fst t2)) in *.
  set (P3 := (P2 ++ snd t3)%list) in *.
  set (t4 := tokenize is_interp uuidv4 (n0 + List.length P3) (fst t3)) in *.
  unfold preprocessText.
  (* bold *)
  assert (E1 := pass_on_segments uuidv4 "<" "b" ">"
                  [Regex.LazyDots; Regex.Lit "</b>"]
                  (fun caps => "<b>" ++ capture 0 caps ++ "</b>")
                  is_bold orig
                  (fun x Hx Hk => inert_for_bold x (F0 x Hx) Hk)
                  (bold_matches orig (proj2 (forallb_forall _ _) F0))
                  [] w).
  rewrite Hw in E1. fold t1 in E1. fold P1 in E1.
  unfold bind at 1. change Regex.bold
    with [Regex.Lit (String "<" (String "b" ">")); Regex.LazyDots;
          Regex.Lit "</b>"].
  rewrite E1. clear E1.
  (* italic *)
  assert (E2 := pass_on_segments uuidv4 "<" "i" ">"
                  [Regex.LazyDots; Regex.Lit "</i>"]
                  (fun caps => "<i>" ++ capture 0 caps ++ "</i>")
                  is_italic (fst t1)
                  (fun x Hx Hk => inert_for_italic x (F1 x Hx) Hk)
                  (italic_matches _ (proj2 (forallb_forall _ _) F1))
                  (record_all P1 [])
                  (mkWorld (n0 + List.length P1) (requests w))).
  cbn [next_id requests] in E2. fold t2 in E2.
  rewrite record_all_app in E2. fold P2 in E2.
  replace (n0 + List.length P1 + List.length (snd t2))
    with (n0 + List.length P2) in E2
    by (unfold P2; rewrite length_app; lia).
  unfold bind at 1. change Regex.italic
    with [Regex.Lit (String "<" (String "i" ">")); Regex.LazyDots;
          Regex.Lit "</i>"].
  rewrite E2. clear E2.
  (* hyperlink *)
  assert (E3 := pass_on_segments uuidv4 "<" "a"
                  (" href=" ++ String Regex.dquote "")
                  [Regex.LazyDots; Regex.Lit (String Regex.dquote ">");
                   Regex.LazyDots; Regex.Lit "</a>"]
                  (fun caps =>
                     "<a href=" ++ String Regex.dquote (capture 0 caps)
                     ++ String Regex.dquote ">" ++ capture 1 caps ++ "</a>")
                  is_link (fst t2)
                  (fun x Hx Hk => inert_for_link x (F2 x Hx) Hk)
                  (link_matches _ (proj2 (forallb_forall _ _) F2))
                  (record_all P2 [])
                  (mkWorld (n0 + List.length P2) (requests w))).
  cbn [next_id requests] in E3. fold t3 in E3.
  rewrite record_all_app in E3. fold P3 in E3.
  replace (n0 + List.length P2 + List.length (snd t3))
    with (n0 + List.length P3) in E3
    by (unfold P3; rewrite length_app; lia).
  unfold bind at 1. change Regex.link
    with [Regex.Lit (String "<" (String "a"
                                   (" href=" ++ String Regex.dquote "")));
          Regex.LazyDots; Regex.Lit (String Regex.dquote ">");
          Regex.LazyDots; Regex.Lit "</a>"].
  rewrite E3. clear E3.
  (* interpolation *)
  assert (E4 := pass_on_segments uuidv4 "$" "{" ""
                  [Regex.LazyDots; Regex.Lit "}"]
                  (fun caps => "${" ++ capture 0 caps ++ "}")
                  is_interp (fst t3)
                  (fun x Hx Hk => inert_for_interp x (F3 x Hx) Hk)
                  (interp_matches _ (proj2 (forallb_forall _ _) F3))
                  (record_all P3 [])
                  (mkWorld (n0 + List.length P3) (requests w))).
  cbn [next_id requests] in E4. fold t4 in E4.
  rewrite record_all_app in E4.
  replace (n0 + List.length P3 + List.length (snd t4))
    with (n0 + List.length (P3 ++ snd t4)%list) in E4
    by (rewrite length_app; lia).
  unfold bind at 1. change Regex.interpolation
    with [Regex.Lit (String "$" (String "{" "")); Regex.LazyDots;
          Regex.Lit "}"].
  rewrite E4. reflexivity.
Qed.

End Stages.

(** A pass leaves no fragment of a kind [k'] when all those of the
    text it reads are of the kind it replaces. *)
Lemma tokenize_clears (kind k' : seg -> bool) (uuidv4 : nat -> string)
    (cur : list seg) :
  (forall id, k' (Tok id) = false) ->
  (forall x, In x cur -> k' x = true -> kind x = true) ->
  forall n x, In x (fst (tokenize kind uuidv4 n cur)) -> k' x = false.
Proof.
  intros Htok. induction cur as [|y cur IH]; intros Hk n x;
    cbn [tokenize]; [intros []|].
  destruct (kind y) eqn:Ky.
  - specialize (IH (fun z Hz => Hk z (or_intror Hz)) (S n) x).
    destruct (tokenize kind uuidv4 (S n) cur) as [out ps].
    cbn [fst In] in *. intros [<-|Hin]; [apply Htok | now apply IH].
  - specialize (IH (fun z Hz => Hk z (or_intror Hz)) n x).
    destruct (tokenize kind uuidv4 n cur) as [out ps].
    cbn [fst In] in *. intros [<-|Hin]; [|now apply IH].
    destruct (k' y) eqn:K'; [|reflexivity].
    rewrite (Hk y (or_introl eq_refl) K') in Ky. discriminate Ky.
Qed.

Lemma encode_leaves_no_fragment (uuidv4 : nat -> string) (n : nat)
    (segs : list seg) :
  fragments (fst (encode_segments uuidv4 n segs)) = [].
Proof.
  unfold encode_segments. cbn [fst snd].
  set (t1 := tokenize is_bold uuidv4 n segs).
  set (P1 := snd t1).
  set (t2 := tokenize is_italic uuidv4 (n + List.length P1) (fst t1)).
  set (P2 := (P1 ++ snd t2)%list).
  set (t3 := tokenize is_link uuidv4 (n + List.length P2) (fst t2)).
  set (P3 := (P2 ++ snd t3)%list).
  assert (H1 : forall x, In x (fst t1) -> is_bold x = false).
  { apply tokenize_clears; [reflexivity | trivial]. }
  assert (H2 : forall x, In x (fst t2) ->
                 is_bold x || is_italic x = false).
  { apply tokenize_clears; [reflexivity|].
    intros x Hx. rewrite (H1 x Hx). trivial. }
  assert (H3 : forall x, In x (fst t3) ->
                 is_bold x || is_italic x || is_link x = false).
  { apply tokenize_clears; [reflexivity|].
    intros x Hx. rewrite (H2 x Hx). trivial. }
  assert (H4 : forall x,
             In x (fst (tokenize is_interp uuidv4
                          (n + List.length P3) (fst t3))) ->
             is_fragment x = false).
  { apply tokenize_clears; [reflexivity|].
    intros x Hx K. specialize (H3 x Hx). destruct x; try discriminate;
      reflexivity. }
  unfold fragments.
  induction (fst (tokenize is_interp uuidv4 (n + List.length P3) (fst t3)))
    as [|x l IH]; [reflexivity|].
  cbn [filter]. rewrite (H4 x (or_introl eq_refl)).
  apply IH. intros y Hy. apply H4. now right.
Qed.

(** What [fresh_ids] says. *)
Lemma fresh_ids_spec (uuidv4 : nat -> string) (n k : nat) :
  fresh_ids uuidv4 n k = true ->
  (forall i, n <= i < n + k -> is_uuid (uuidv4 i) = true)
  /\ NoDup (map uuidv4 (seq n k)).
Proof.
  unfold fresh_ids. rewrite andb_true_iff, forallb_forall.
  intros [Hwf Hd]. split.
  - intros i Hi. apply Hwf, in_map, in_seq. exact Hi.
  - now apply distinct_NoDup.
Qed.

Lemma fresh_ids_le (uuidv4 : nat -> string) (n k K : nat) :
  k <= K -> fresh_ids uuidv4 n K = true -> fresh_ids uuidv4 n k = true.
Proof.
  intros Hk H. apply fresh_ids_spec in H as [Hwf Hd].
  unfold fresh_ids. apply andb_true_iff. split.
  - apply forallb_forall. intros x Hx.
    apply in_map_iff in Hx as (i & <- & Hi). apply in_seq in Hi.
    apply Hwf. lia.
  - apply distinct_NoDup.
    replace K with (k + (K - k)) in Hd by lia.
    rewrite seq_app, map_app in Hd. now apply NoDup_app_remove_r in Hd.
Qed.

(** The encoder on a marked-up string, in terms of its segments. *)
Lemma preprocess_encoded (uuidv4 : nat -> string) (segs : list seg)
    (w : world) :
  forallb marked_up segs = true ->
  fresh_ids uuidv4 (next_id w) (List.length (fragments segs)) = true ->
  preprocessText uuidv4 (render segs) w
  = (Ok (render (fst (encode_segments uuidv4 (next_id w) segs)),
         map (fun p => (fst p, render_seg (snd p)))
           (snd (encode_segments uuidv4 (next_id w) segs))),
     mkWorld (next_id w + List.length (fragments segs)) (requests w))
  /\ List.length (snd (encode_segments uuidv4 (next_id w) segs))
     = List.length (fragments segs).
Proof.
  intros Hm Hfresh. apply fresh_ids_spec in Hfresh as [ids_wf Hd].
  assert (St := stage_end uuidv4 (next_id w) segs ids_wf Hd Hm).
  assert (Pre := preprocess_segments uuidv4 (next_id w) segs ids_wf Hd w
                   eq_refl Hm).
  set (E := encode_segments uuidv4 (next_id w) segs) in *.
  destruct St as (_ & _ & _ & _ & Keys & _ & Len).
  unfold E in Len at 2. rewrite encode_leaves_no_fragment in Len.
  cbn [List.length] in Len. rewrite Nat.add_0_r in Len.
  assert (Hkeys : NoDup (map fst (snd E))).
  { rewrite Keys.
    apply (ids_range_NoDup uuidv4 (next_id w) segs Hd); lia. }
  rewrite record_all_fresh in Pre by exact Hkeys.
  cbn [app] in Pre. rewrite Len in Pre. now split.
Qed.

(** The decoder on what the encoder made of a marked-up string. *)
Lemma decode_encoded (uuidv4 : nat -> string) (n : nat) (segs : list seg) :
  forallb marked_up segs = true ->
  fresh_ids uuidv4 n (List.length (fragments segs)) = true ->
  postprocessText (render (fst (encode_segments uuidv4 n segs)))
    (map (fun p => (fst p, render_seg (snd p)))
       (snd (encode_segments uuidv4 n segs)))
  = render segs.
Proof.
  intros Hm Hfresh. apply fresh_ids_spec in Hfresh as [ids_wf Hd].
  assert (St := stage_end uuidv4 n segs ids_wf Hd Hm).
  set (E := encode_segments uuidv4 n segs) in *.
  destruct St as (Fs & Ag & _ & Nd & Keys & Mk & Len).
  assert (Hkeys : NoDup (map fst (snd E))).
  { rewrite Keys. apply (ids_range_NoDup uuidv4 n segs Hd); lia. }
  rewrite postprocess_segments; [|exact Fs|].
  - f_equal. apply restore_all_agree; try assumption.
    now apply marked_up_tok_ids.
  - apply forallb_forall. intros [id x] Hin. cbn [fst snd].
    apply andb_true_iff. split.
    + assert (Hid : In id (map fst (snd E)))
        by (apply in_map_iff; now exists (id, x)).
      rewrite Keys in Hid. apply in_map_iff in Hid as (i & <- & Hi).
      apply in_seq in Hi. apply ids_wf. lia.
    + rewrite forallb_forall in Mk. exact (Mk _ Hin).
Qed.

(** X1.  The codec round trip: a marked-up string, encoded with fresh
    identifiers and decoded at once, comes back character for character;
    one identifier is drawn and one table entry made per fragment, and
    nothing is sent. *)
Theorem codec_round_trip (uuidv4 : nat -> string) (segs : list seg)
    (w : world) :
  forallb marked_up segs = true ->
  fresh_ids uuidv4 (next_id w) (List.length (fragments segs)) = true ->
  exists text ph,
    preprocessText uuidv4 (render segs) w
    = (Ok (text, ph),
       mkWorld (next_id w + List.length (fragments segs)) (requests w))
    /\ List.length ph = List.length (fragments segs)
    /\ postprocessText text ph = render segs.
Proof.
  intros Hm Hfresh.
  destruct (preprocess_encoded uuidv4 segs w Hm Hfresh) as [Pre Len].
  eexists _, _. split; [exact Pre|]. split.
  - now rewrite length_map.
  - now apply decode_encoded.
Qed.

(** "Hello <b>World</b>, cost is ${price}" *)
Lemma codec_round_trip_witness :
  exists text ph,
    preprocessText sample_uuid
      (render [Plain "Hello "; Bold "World"; Plain ", cost is ";
               Interp "price"]) w0
    = (Ok (text, ph), mkWorld 2 [])
    /\ List.length ph = 2
    /\ postprocessText text ph = "Hello <b>World</b>, cost is ${price}".
Proof.
  apply (codec_round_trip sample_uuid
           [Plain "Hello "; Bold "World"; Plain ", cost is ";
            Interp "price"] w0); vm_compute; reflexivity.
Defined.

(** A text made of plain pieces and tokens has no [<] and no [$]. *)
Lemma tokens_and_text_clean (cur : list seg) :
  forallb safe_seg cur = true -> fragments cur = [] ->
  occurs "<" (render cur) = false /\ occurs "$" (render cur) = false.
Proof.
  unfold fragments.
  induction cur as [|x cur IH]; cbn [forallb filter render];
    [now split|].
  rewrite andb_true_iff. intros [Hx Hs] Hf.
  destruct (is_fragment x) eqn:Fx; [discriminate Hf|].
  destruct (IH Hs Hf) as [I1 I2]. rewrite !occurs_app, I1, I2, !orb_false_r.
  destruct x; try discriminate Fx; cbn [safe_seg marked_up render_seg] in *.
  - destruct (text_char_clean _ Hx) as (H1 & H2 & _). now split.
  - now apply uuid_clean.
Qed.

(** X2.  What the provider is sent for a marked-up string has no markup left:
    the safe text contains neither [<] nor [$], every fragment having
    given way to a token. *)
Theorem safe_text_has_no_markup (uuidv4 : nat -> string) (segs : list seg)
    (w : world) :
  forallb marked_up segs = true ->
  fresh_ids uuidv4 (next_id w) (List.length (fragments segs)) = true ->
  exists text ph w',
    preprocessText uuidv4 (render segs) w = (Ok (text, ph), w')
    /\ occurs "<" text = false /\ occurs "$" text = false.
Proof.
  intros Hm Hfresh.
  destruct (preprocess_encoded uuidv4 segs w Hm Hfresh) as [Pre _].
  apply fresh_ids_spec in Hfresh as [ids_wf Hd].
  destruct (stage_end uuidv4 (next_id w) segs ids_wf Hd Hm) as (Fs & _).
  eexists _, _, _. split; [exact Pre|].
  apply tokens_and_text_clean; [exact Fs|].
  apply encode_leaves_no_fragment.
Qed.

(** "Press <i>Enter</i> or <a href=...>read on</a>" *)
Lemma safe_text_has_no_markup_witness :
  exists text ph w',
    preprocessText sample_uuid
      (render [Plain "Press "; Italic "Enter"; Plain " or ";
               Link "/help" "read on"]) w0
    = (Ok (text, ph), w')
    /\ occurs "<" text = false /\ occurs "$" text = false.
Proof.
  apply (safe_text_has_no_markup sample_uuid
           [Plain "Press "; Italic "Enter"; Plain " or ";
            Link "/help" "read on"] w0); vm_compute; reflexivity.
Defined.

(** ** The client and the route together *)

(** X3.  [translateText] normalises what it throws: whatever the provider
    does, it returns the text of an [ok] response to a request with a
    text and a language, or throws an [Error]; it never throws another
    kind of value. *)
Theorem translateText_outcomes
    (fetch : list request -> string -> string -> fetch_outcome)
    (text lang : string) (w w' : world) (r : outcome string) :
  translateText fetch text lang w = (r, w') ->
  match r with
  | Ok t =>
      text <> "" /\ lang <> ""
      /\ fetch (requests w) text lang = Resolved (Success t)
  | Throw e => exists message, e = JsError message
  | Exhausted => False
  end.
Proof.
  unfold translateText.
  destruct (String.eqb text "") eqn:Et; cbn [orb];
    [intros [= <- _]; eauto|].
  destruct (String.eqb lang "") eqn:El; [intros [= <- _]; eauto|].
  apply String.eqb_neq in Et, El.
  unfold try_catch, bind, send, throw, ret.
  destruct (fetch (requests w) text lang) as [[m|]|[st m|t]];
    intros [= <- _]; eauto.
Qed.

Lemma translateText_outcomes_witness :
  "Hi" <> "" /\ "es" <> ""
  /\ echo (requests w0) "Hi" "es" = Resolved (Success "Hi").
Proof.
  exact (translateText_outcomes echo "Hi" "es" w0
           (mkWorld 0 [mkRequest "Hi" "es"]) (Ok "Hi") eq_refl).
Defined.

Section RouteFacts.

Variable env : option string.
Variable client : string -> string -> string -> client_outcome.

(** X4.  The route answers with a translation exactly when the request has a
    text and a language, the project identifier is configured, and the
    first translation of the provider's answer is not empty; the
    translation it sends is that one. *)
Theorem POST_success (text lang t : string) :
  POST env client text lang = Success t
  <-> text <> "" /\ lang <> "" /\ t <> ""
      /\ exists projectId rest,
           env = Some projectId /\ projectId <> ""
           /\ client ("projects/" ++ projectId ++ "/locations/global")
                text lang
              = ClientAnswers (Some (t :: rest)).
Proof.
  unfold POST. split.
  - destruct (String.eqb text "") eqn:Et; cbn [orb]; [discriminate|].
    destruct (String.eqb lang "") eqn:El; [discriminate|].
    destruct env as [pid|]; [|discriminate].
    destruct (String.eqb pid "") eqn:Ep; [discriminate|].
    destruct (client _ text lang) as [|[[|t0 rest]|]] eqn:Ec;
      try discriminate.
    destruct (String.eqb t0 "") eqn:E0; [discriminate|].
    intros [= ->]. apply String.eqb_neq in Et, El, Ep, E0.
    repeat split; try assumption. now exists pid, rest.
  - intros (Ht & Hl & Hne & pid & rest & -> & Hp & Hc).
    apply String.eqb_neq in Ht, Hl, Hne, Hp.
    rewrite Ht, Hl, Hp. cbn [orb].
    change ("/locations/" ++ "global") with "/locations/global".
    rewrite Hc, Hne. reflexivity.
Qed.

(** The body that the page sends is answered by [POST]. *)
Lemma POST_request_page (text lang : string) :
  POST_request env client (Json (Some text) (Some lang))
  = POST env client text lang.
Proof. reflexivity. Qed.


End RouteFacts.


(** X6.  The provider is not consulted for a request that fails a check:
    without a text, a language or a project identifier the answer is the
    same whatever the provider's client would do. *)
Theorem POST_checks_first (env : option string)
    (client client' : string -> string -> string -> client_outcome)
    (text lang : string) :
  text = "" \/ lang = "" \/ env = None \/ env = Some "" ->
  POST env client text lang = POST env client' text lang.
Proof.
  unfold POST. intros [-> | [-> | [-> | ->]]]; cbn [String.eqb orb].
  - reflexivity.
  - now rewrite orb_true_r.
  - reflexivity.
  - reflexivity.
Qed.

Lemma POST_checks_first_witness :
  POST None no_client "Hi" "es"
  = POST None (fun _ _ _ => ClientAnswers (Some ["Hola"])) "Hi" "es".
Proof.
  apply (POST_checks_first None no_client
           (fun _ _ _ => ClientAnswers (Some ["Hola"])) "Hi" "es").
  right; right; left; reflexivity.
Defined.

(** X7.  The page's client over the route: the check of the route for a
    missing text or language is never the one that fails, since
    [translateText] makes it first and sends nothing; a translation that
    [translateText] returns is never empty; and every other failure
    reaches the caller as an [Error] whose message starts with
    ["Translation failed: "]. *)
Theorem translateText_over_route (env : option string)
    (client : string -> string -> string -> client_outcome)
    (text lang : string) (w w' : world) (r : outcome string) :
  translateText (fetch_route env client) text lang w = (r, w') ->
  (r = Throw (JsError "Both text and targetLanguage are required.")
   /\ w' = w /\ (text = "" \/ lang = ""))
  \/ (exists t, r = Ok t /\ t <> ""
        /\ POST env client text lang = Success t)
  \/ (exists message,
        r = Throw (JsError ("Translation failed: " ++ message))
        /\ POST env client text lang = Failure 500 message).
Proof.
  unfold translateText.
  destruct (String.eqb text "") eqn:Et; cbn [orb].
  { apply String.eqb_eq in Et. intros [= <- <-]. left. auto. }
  destruct (String.eqb lang "") eqn:El.
  { apply String.eqb_eq in El. intros [= <- <-]. left. auto. }
  unfold try_catch, bind, send, throw, ret, fetch_route.
  destruct (POST env client text lang) as [st m|t] eqn:EP.
  - intros [= <- _]. right; right. exists m. split; [reflexivity|].
    f_equal. unfold POST in EP. rewrite Et, El in EP. cbn [orb] in EP.
    destruct env as [pid|]; [|now injection EP as <- _].
    destruct (String.eqb pid ""); [now injection EP as <- _|].
    destruct (client _ text lang) as [|[[|t0 rest]|]];
      try (now injection EP as <- _).
    destruct (String.eqb t0 ""); [now injection EP as <- _|discriminate].
  - intros [= <- _]. right; left. exists t. repeat split.
    unfold POST in EP. rewrite Et, El in EP. cbn [orb] in EP.
    destruct env as [pid|]; [|discriminate].
    destruct (String.eqb pid ""); [discriminate|].
    destruct (client _ text lang) as [|[[|t0 rest]|]]; try discriminate.
    destruct (String.eqb t0 "") eqn:E0; [discriminate|].
    injection EP as <-. now apply String.eqb_neq.
Qed.

Lemma translateText_over_route_witness :
  (Ok "Hola" = Throw (JsError "Both text and targetLanguage are required.")
   /\ mkWorld 0 [mkRequest "Hi" "es"] = w0 /\ ("Hi" = "" \/ "es" = ""))
  \/ (exists t, Ok "Hola" = Ok t /\ t <> ""
        /\ POST (Some "demo") (fun _ _ _ => ClientAnswers (Some ["Hola"]))
             "Hi" "es" = Success t)
  \/ (exists message,
        Ok "Hola" = Throw (JsError ("Translation failed: " ++ message))
        /\ POST (Some "demo") (fun _ _ _ => ClientAnswers (Some ["Hola"]))
             "Hi" "es" = Failure 500 message).
Proof.
  exact (translateText_over_route (Some "demo")
           (fun _ _ _ => ClientAnswers (Some ["Hola"])) "Hi" "es" w0
           (mkWorld 0 [mkRequest "Hi" "es"]) (Ok "Hola") eq_refl).
Defined.

(** ** One request for each string to translate *)

(** A pass of the encoder over a text that is not empty gives a text
    that is not empty. *)
Lemma replace_all_nonempty (uuidv4 : nat -> string) (re : Regex.t)
    (rebuild : list string -> string) (s t : string)
    (ph ph' : placeholders) (w w' : world) :
  replace_all uuidv4 re rebuild s 0 ph w = (Ok (t, ph'), w') ->
  s <> "" -> t <> "".
Proof.
  destruct s as [|c s]; [intros _ H; now contradiction H|].
  intros H _. cbn [replace_all] in H.
  destruct (Regex.match_here re (String c s)) as [[caps n]|].
  - unfold bind, stash, ret, delimited in H.
    destruct n as [|k];
      destruct (replace_all uuidv4 re rebuild s _ _ _)
        as [[[rest ph2]|e|] wz];
      try discriminate H; injection H as <- _ _; discriminate.
  - unfold bind, ret in H.
    destruct (replace_all uuidv4 re rebuild s 0 ph w)
      as [[[rest ph2]|e|] wz];
      try discriminate H; injection H as <- _ _; discriminate.
Qed.

(** Only the empty string has an empty safe text. *)
Lemma preprocess_nonempty (uuidv4 : nat -> string) (s t : string)
    (ph : placeholders) (w w' : world) :
  preprocessText uuidv4 s w = (Ok (t, ph), w') -> s <> "" -> t <> "".
Proof.
  unfold preprocessText, bind. intros H Hs.
  destruct (replace_all uuidv4 Regex.bold _ s 0 [] w)
    as [[[t1 p1]|e|] w1] eqn:E1; try discriminate H.
  apply replace_all_nonempty in E1; [|exact Hs].
  destruct (replace_all uuidv4 Regex.italic _ t1 0 p1 w1)
    as [[[t2 p2]|e|] w2] eqn:E2; try discriminate H.
  apply replace_all_nonempty in E2; [|exact E1].
  destruct (replace_all uuidv4 Regex.link _ t2 0 p2 w2)
    as [[[t3 p3]|e|] w3] eqn:E3; try discriminate H.
  apply replace_all_nonempty in E3; [|exact E2].
  destruct (replace_all uuidv4 Regex.interpolation _ t3 0 p3 w3)
    as [[[t4 p4]|e|] w4] eqn:E4; try discriminate H.
  apply replace_all_nonempty in E4; [|exact E3].
  unfold ret in H. now injection H as <- _ _.
Qed.

(** X8.  The turn of the loop for a string under the key ["translated"]: when
    the string and the target language are not empty, exactly one request
    is sent; it carries the safe text of the string, which is not empty,
    and the language; and the value stored is the decoded answer when the
    provider answers with a translation, the string itself when it does
    not. *)
Theorem translated_string_sends_once (uuidv4 : nat -> string)
    (fetch : list request -> string -> string -> fetch_outcome)
    (self : json -> M json) (lang s : string) (td : Obj.t json)
    (w : world) :
  s <> "" -> lang <> "" ->
  exists text ph wa v,
    preprocessText uuidv4 s w = (Ok (text, ph), wa)
    /\ text <> ""
    /\ translate_entry uuidv4 fetch self lang "translated" (JStr s) td w
       = (Ok (Obj.set "translated" (JStr v) td),
          mkWorld (next_id wa) (mkRequest text lang :: requests w))
    /\ v = match fetch (requests w) text lang with
           | Resolved (Success t) => postprocessText t ph
           | _ => s
           end.
Proof.
  intros Hs Hl.
  destruct (preprocess_ok uuidv4 s w) as (text & ph & wa & Hp & Hr).
  assert (Hne := preprocess_nonempty _ _ _ _ _ _ Hp Hs).
  exists text, ph, wa.
  assert (Hguard : String.eqb text "" || String.eqb lang "" = false).
  { apply String.eqb_neq in Hne, Hl. now rewrite Hne, Hl. }
  destruct (fetch (requests w) text lang) as [e|[st m|t]] eqn:Ef.
  - exists s. repeat split; try assumption.
    apply (failed_leaf_entry uuidv4 fetch lang self s text ph td w wa _
             (match e with
              | JsError _ => e
              | NonError =>
                  JsError "An unexpected error occurred during translation"
              end) Hp).
    unfold translateText. rewrite Hguard.
    unfold try_catch, bind, send, throw. rewrite Hr, Ef.
    destruct e; reflexivity.
  - exists s. repeat split; try assumption.
    apply (failed_leaf_entry uuidv4 fetch lang self s text ph td w wa _
             (JsError ("Translation failed: " ++ m)) Hp).
    unfold translateText. rewrite Hguard.
    unfold try_catch, bind, send, throw. rewrite Hr, Ef. reflexivity.
  - exists (postprocessText t ph). repeat split; try assumption.
    apply (translated_leaf_entry uuidv4 fetch lang self s text t ph td w wa
             _ Hp Hne).
    unfold translateText. rewrite Hguard.
    unfold try_catch, bind, send, ret. rewrite Hr, Ef. reflexivity.
Qed.

Lemma translated_string_sends_once_witness :
  exists text ph wa v,
    preprocessText sample_uuid "Hi <b>you</b>" w0 = (Ok (text, ph), wa)
    /\ text <> ""
    /\ translate_entry sample_uuid echo (fun d => ret d) "es" "translated"
         (JStr "Hi <b>you</b>") [] w0
       = (Ok (Obj.set "translated" (JStr v) []),
          mkWorld (next_id wa) (mkRequest text "es" :: requests w0))
    /\ v = match echo (requests w0) text "es" with
           | Resolved (Success t) => postprocessText t ph
           | _ => "Hi <b>you</b>"
           end.
Proof.
  apply (translated_string_sends_once sample_uuid echo (fun d => ret d)
           "es" "Hi <b>you</b>" [] w0); discriminate.
Defined.

(** ** The handlers of the component *)

(** [Translate] returns an object for every value but [null]. *)
Lemma Translate_total (uuidv4 : nat -> string)
    (fetch : list request -> string -> string -> fetch_outcome)
    (d : json) (lang : string) (w : world) :
  d <> JNull ->
  exists out w', Translate uuidv4 fetch d lang w = (Ok (JObj out), w').
Proof.
  intros Hd. unfold Translate.
  apply (translate_total uuidv4 fetch lang (S (json_depth d)) d w);
    [lia | exact Hd].
Qed.

(** What [processTranslations] leaves in the component: the flag
    [isProcessing] is down, and an output, if there is one, is an
    object. *)
Lemma processTranslations_settles (uuidv4 : nat -> string)
    (fetch : list request -> string -> string -> fetch_outcome)
    (p : parse_outcome) (lang : string) (st : page) (w : world) :
  isProcessing (fst (processTranslations uuidv4 fetch p lang st w)) = false
  /\ forall d,
       outputJson (fst (processTranslations uuidv4 fetch p lang st w))
       = Some d ->
       exists out, d = JObj out.
Proof.
  unfold processTranslations. destruct p as [m|d]; cbn [JSON_parse].
  - cbn. split; [reflexivity | discriminate].
  - rewrite bind_ret.
    assert (Hd : d = JNull \/ d <> JNull)
      by (destruct d; auto; right; discriminate).
    destruct Hd as [->|Hd]; [cbn; split; [reflexivity | discriminate]|].
    destruct (Translate_total uuidv4 fetch d lang w Hd) as (out & w' & E).
    rewrite E. cbn [fst outputJson isProcessing].
    split; [reflexivity | intros d0 [= <-]; eauto].
Qed.

(** [handleFileUpload] writes the input and the error message only. *)
Lemma upload_fields (parse : string -> parse_outcome) (files : list file)
    (c : component) :
  targetLanguage (handleFileUpload parse files c) = targetLanguage c
  /\ outputJson (view (handleFileUpload parse files c))
     = outputJson (view c)
  /\ isProcessing (view (handleFileUpload parse files c))
     = isProcessing (view c).
Proof.
  unfold handleFileUpload. destruct files as [|f rest]; [now cbn|].
  destruct (negb (String.eqb (file_type f) "application/json"));
    [now cbn|].
  destruct (file_text f) as [content|]; [|now cbn].
  destruct (parse content); now cbn.
Qed.

Section Handlers.

Variable uuidv4 : nat -> string.
Variable fetch : list request -> string -> string -> fetch_outcome.
Variable parse : string -> parse_outcome.

(** X9.  [handleFileUpload] validates what it stores: it leaves no error
    message only when the first file is a JSON file whose text parses,
    and then that text is the new input.  It never touches the selected
    language, the output or the flag [isProcessing]. *)
Theorem upload_validates (files : list file) (c : component) :
  (error (view (handleFileUpload parse files c)) = None ->
   exists f rest d,
     files = f :: rest
     /\ file_type f = "application/json"
     /\ file_text f = Some (inputJson (handleFileUpload parse files c))
     /\ parse (inputJson (handleFileUpload parse files c)) = Parsed d)
  /\ targetLanguage (handleFileUpload parse files c) = targetLanguage c
  /\ outputJson (view (handleFileUpload parse files c))
     = outputJson (view c)
  /\ isProcessing (view (handleFileUpload parse files c))
     = isProcessing (view c).
Proof.
  unfold handleFileUpload. destruct files as [|f rest].
  { cbn. repeat split. discriminate. }
  destruct (String.eqb (file_type f) "application/json") eqn:Et;
    cbn [negb].
  2: { cbn. repeat split. discriminate. }
  apply String.eqb_eq in Et.
  destruct (file_text f) as [content|] eqn:Ec.
  2: { cbn. repeat split. discriminate. }
  destruct (parse content) as [m|d] eqn:Ep.
  { cbn. repeat split. discriminate. }
  cbn. repeat split. intros _. exists f, rest, d. auto.
Qed.

(** X10.  A drop and an upload.  When the first file dropped is a JSON
    file, [handleDrop] does what [handleFileUpload] does with the files
    (and nothing at all when the file input is not attached).  In the
    two cases that [handleFileUpload] refuses at once, no file and a file
    of another type, each with a message of its own, [handleDrop] does
    not call it: it reports ["Please drop a JSON file"], and changes
    nothing else. *)
Theorem drop_is_upload (files : list file) (c : component) :
  (forall f rest,
     files = f :: rest -> file_type f = "application/json" ->
     handleDrop parse files true c = handleFileUpload parse files c
     /\ handleDrop parse files false c = c)
  /\ (files = []
      \/ (exists f rest,
            files = f :: rest /\ file_type f <> "application/json") ->
      forall attached,
        handleDrop parse files attached c
        = mkComponent (inputJson c) (targetLanguage c)
            (mkPage (outputJson (view c)) (Some "Please drop a JSON file")
               (isProcessing (view c)))
        /\ (handleFileUpload parse files c
            = setError (Some "No file selected") c
            \/ handleFileUpload parse files c
               = setError (Some "Please upload a JSON file") c)).
Proof.
  unfold handleDrop, handleFileUpload. split.
  - intros f rest -> Ht. apply String.eqb_eq in Ht. rewrite Ht.
    cbn [negb]. now split.
  - intros [->|(f & rest & -> & Ht)] attached.
    + split; [reflexivity | now left].
    + apply String.eqb_neq in Ht. rewrite Ht. cbn [negb].
      split; [reflexivity | now right].
Qed.

(** X11.  Upload, then Translate: after the upload of a JSON file whose text
    parses to a value other than [null], a click on the button gives an
    output, the object that [translateNestedJson] returns for the value
    and the selected language, and no error message. *)
Theorem upload_then_translate (f : file) (rest : list file)
    (content : string) (d : json) (c : component) (w : world) :
  file_type f = "application/json" ->
  file_text f = Some content ->
  content <> "" ->
  parse content = Parsed d ->
  d <> JNull ->
  isProcessing (view c) = false ->
  exists out w',
    Translate uuidv4 fetch d (targetLanguage c) w = (Ok (JObj out), w')
    /\ clickTranslate uuidv4 fetch parse
         (handleFileUpload parse (f :: rest) c) w
       = (mkComponent content (targetLanguage c)
            (mkPage (Some (JObj out)) None false), w').
Proof.
  intros Ht Hc Hne Hp Hd Hproc.
  destruct (Translate_total uuidv4 fetch d (targetLanguage c) w Hd)
    as (out & w' & E).
  exists out, w'. split; [exact E|].
  unfold handleFileUpload. apply String.eqb_eq in Ht. rewrite Ht, Hc, Hp.
  cbn [negb]. unfold clickTranslate, setError, setInputJson.
  cbn [inputJson targetLanguage view isProcessing outputJson].
  apply String.eqb_neq in Hne. rewrite Hne, Hproc. cbn [orb].
  unfold processTranslations. rewrite Hp. cbn [JSON_parse].
  rewrite bind_ret, E. reflexivity.
Qed.

(** The handlers that take an upload and a click as one step are the
    two steps one after the other. *)
Lemma upload_in_two_steps (files : list file) (c : component) :
  handleFileUpload parse files c
  = match files with
    | f :: _ =>
        if String.eqb (file_type f) "application/json" then
          match file_text f with
          | Some content => readerLoaded parse content (uploadStarted files c)
          | None => readerFailed (uploadStarted files c)
          end
        else uploadStarted files c
    | [] => uploadStarted files c
    end.
Proof.
  unfold handleFileUpload, uploadStarted, readerLoaded, readerFailed.
  destruct files as [|f rest]; [reflexivity|].
  destruct (String.eqb (file_type f) "application/json"); cbn [negb];
    [|reflexivity].
  destruct (file_text f); reflexivity.
Qed.

Lemma click_in_two_steps (c : component) (w : world) :
  String.eqb (inputJson c) "" || isProcessing (view c) = false ->
  clickTranslate uuidv4 fetch parse c w
  = settleTranslations uuidv4 fetch parse (inputJson c) (targetLanguage c)
      (startTranslations c) w.
Proof.
  intros H. unfold clickTranslate, settleTranslations, processTranslations,
    startTranslations. rewrite H.
  destruct ((data <- JSON_parse (parse (inputJson c)) ;;
             Translate uuidv4 fetch data (targetLanguage c)) w)
    as [[d|[m|]|] w1] eqn:E; try reflexivity.
Qed.




End Handlers.

Lemma upload_validates_witness :
  exists f rest d,
    [mkFile "application/json" (Some "[1,2]")] = f :: rest
    /\ file_type f = "application/json"
    /\ file_text f = Some "[1,2]"
    /\ sample_parse "[1,2]" = Parsed d.
Proof.
  exact (proj1 (upload_validates sample_parse
                  [mkFile "application/json" (Some "[1,2]")] component0)
           eq_refl).
Defined.

Lemma upload_then_translate_witness :
  exists out w',
    Translate sample_uuid echo (JArr [JNum 1; JNum 2]) "es" w0
    = (Ok (JObj out), w')
    /\ clickTranslate sample_uuid echo sample_parse
         (handleFileUpload sample_parse
            [mkFile "application/json" (Some "[1,2]")] component0) w0
       = (mkComponent "[1,2]" "es" (mkPage (Some (JObj out)) None false),
          w').
Proof.
  apply (upload_then_translate sample_uuid echo sample_parse
           (mkFile "application/json" (Some "[1,2]")) [] "[1,2]"
           (JArr [JNum 1; JNum 2]) component0 w0);
    solve [reflexivity | discriminate].
Defined.

(** ** The variant of the route *)

Section Variant.

Variable env credentials : option string.
Variable client : string -> string -> string -> string -> client_outcome_v2.
Variable type_error : string.

Local Abbreviation POST' := (POST_v2 env credentials client type_error).

(** X13.  The variant leaves a request unanswered, its handler returning
    nothing, exactly when the checks pass and the provider's client
    throws a value that is not an [Error]. *)
Theorem POST_v2_unanswered (text lang : string) (source : option string) :
  POST' text lang source = None
  <-> text <> "" /\ lang <> "" /\ unset credentials = false
      /\ exists projectId,
           env = Some projectId /\ projectId <> ""
           /\ client ("projects/" ++ projectId ++ "/locations/global") text
                match source with Some l => l | None => "en" end lang
              = ClientThrows NonError.
Proof.
  unfold POST_v2. split.
  - destruct (String.eqb text "") eqn:Et; cbn [orb]; [discriminate|].
    destruct (String.eqb lang "") eqn:El; [discriminate|].
    destruct env as [pid|]; [|discriminate].
    destruct (unset credentials) eqn:Ec; cbn [orb]; [discriminate|].
    destruct (String.eqb pid "") eqn:Ep; [discriminate|].
    destruct (client _ text _ lang) as [[m|]|[[|t0 rest]|]] eqn:E;
      try discriminate.
    + intros _. apply String.eqb_neq in Et, El, Ep.
      repeat split; try assumption. now exists pid.
    + destruct (String.eqb t0 ""); discriminate.
  - intros (Ht & Hl & Hc & pid & -> & Hp & E).
    apply String.eqb_neq in Ht, Hl, Hp. rewrite Ht, Hl, Hc, Hp, E.
    reflexivity.
Qed.

End Variant.

(** X14.  The route and its variant, on a body without [sourceLanguage], when
    the credentials are set and the provider does the same for both: they
    answer with the same translation or with the same status, unless the
    variant leaves the request unanswered, which it does only where the
    route answers with status 500. *)
Theorem route_and_variant (env credentials : option string)
    (client1 : string -> string -> string -> client_outcome)
    (client2 : string -> string -> string -> string -> client_outcome_v2)
    (type_error text lang : string) :
  unset credentials = false ->
  (forall parent, client1 parent text lang
                  = forget (client2 parent text "en" lang)) ->
  match POST env client1 text lang,
        POST_v2 env credentials client2 type_error text lang None with
  | Success t, Some (Success_v2 t') => t = t'
  | Failure status _, Some (Failure_v2 status' _ _) => status = status'
  | Failure status _, None => status = 500
  | _, _ => False
  end.
Proof.
  intros Hc Hsame. unfold POST, POST_v2.
  destruct (String.eqb text "" || String.eqb lang ""); [reflexivity|].
  destruct env as [pid|]; [|reflexivity].
  rewrite Hc. cbn [orb].
  destruct (String.eqb pid ""); [reflexivity|].
  change ("/locations/" ++ "global") with "/locations/global".
  rewrite Hsame.
  destruct (client2 _ text "en" lang) as [[m|]|[[|t0 rest]|]];
    cbn [forget]; try reflexivity.
  destruct (String.eqb t0 ""); reflexivity.
Qed.

Lemma route_and_variant_witness :
  match POST (Some "demo") (fun _ _ _ => ClientAnswers (Some ["Hola"]))
          "Hi" "es",
        POST_v2 (Some "demo") (Some "key.json")
          (fun _ _ _ _ => ClientReturns (Some ["Hola"])) "" "Hi" "es" None
  with
  | Success t, Some (Success_v2 t') => t = t'
  | Failure status _, Some (Failure_v2 status' _ _) => status = status'
  | Failure status _, None => status = 500
  | _, _ => False
  end.
Proof.
  apply (route_and_variant (Some "demo") (Some "key.json")
           (fun _ _ _ => ClientAnswers (Some ["Hola"]))
           (fun _ _ _ _ => ClientReturns (Some ["Hola"])) "" "Hi" "es");
    reflexivity.
Defined.

(** ** A run with a provider that changes nothing *)

Lemma every_obj_cons (P : string -> Prop) (k : string) (v : json)
    (es : list (string * json)) :
  every_translated P (JObj ((k, v) :: es))
  = (translated_entry P k v /\ every_translated P (JObj es)).
Proof. reflexivity. Qed.

Lemma every_arr_cons (P : string -> Prop) (x : json) (xs : list json) :
  every_translated P (JArr (x :: xs))
  = (every_translated P x /\ every_translated P (JArr xs)).
Proof. reflexivity. Qed.

(** A translation that [translateText] returns is what the provider
    answered. *)
Lemma translateText_ok
    (fetch : list request -> string -> string -> fetch_outcome)
    (text lang t : string) (w w' : world) :
  translateText fetch text lang w = (Ok t, w') ->
  fetch (requests w) text lang = Resolved (Success t).
Proof.
  unfold translateText.
  destruct (String.eqb text "" || String.eqb lang ""); [discriminate|].
  unfold try_catch, bind, send, throw, ret.
  destruct (fetch (requests w) text lang) as [[m|]|[st m|t0]];
    try discriminate.
  now intros [= <- _].
Qed.

Section Identity.

Variable uuidv4 : nat -> string.
Variable fetch : list request -> string -> string -> fetch_outcome.
Variable lang : string.
Variable K : nat.

Hypothesis ids_fresh : forall n, fresh_ids uuidv4 n K = true.
Hypothesis provider_echoes : echoes fetch lang.

(** A marked-up string comes back from the provider as it was. *)
Lemma echoed_string (s t tt : string) (ph : placeholders)
    (w wa wb : world) :
  marked_string K s ->
  preprocessText uuidv4 s w = (Ok (t, ph), wa) ->
  translateText fetch t lang wa = (Ok tt, wb) ->
  postprocessText tt ph = s.
Proof.
  intros (segs & Hm & Hle & ->) Hp Ht.
  assert (Hf := fresh_ids_le uuidv4 (next_id w) _ K Hle (ids_fresh _)).
  destruct (preprocess_encoded uuidv4 segs w Hm Hf) as [Pre _].
  rewrite Pre in Hp. injection Hp as <- <- _.
  apply translateText_ok, provider_echoes in Ht. subst tt.
  now apply decode_encoded.
Qed.

Lemma translate_identity (fuel : nat) :
  forall es w d' w',
    wf_json (JObj es) = true ->
    flat_arrays (JObj es) = true ->
    no_proto (JObj es) = true ->
    every_translated (marked_string K) (JObj es) ->
    translateNestedJson uuidv4 fetch fuel (JObj es) lang w = (Ok d', w') ->
    d' = JObj es.
Proof.
  induction fuel as [|fuel IH]; intros es w d' w' Hwf Hflat Hproto Hev;
    cbn [translateNestedJson]; [discriminate|].
  cbn [Object_entries]. unfold bind at 1, ret at 1. unfold bind, ret.
  destruct (for_entries _ es [] w) as [[out|e|] w1] eqn:E; try discriminate.
  intros [= <- <-].
  cbn [wf_json] in Hwf. apply andb_true_iff in Hwf as [Hnd Hwf].
  apply distinct_NoDup in Hnd.
  apply for_entries_run_own in E;
    [|assumption | now apply no_proto_keys | intros k _ []].
  destruct E as (out' & -> & Hrun). cbn [app]. f_equal.
  cbn [flat_arrays] in Hflat. cbn [no_proto] in Hproto.
  rewrite forallb_forall in Hwf, Hflat, Hproto.
  clear Hnd.
  induction Hrun as [|k v v' es out w w1 w2 Hv Hrun IHrun]; [reflexivity|].
  rewrite every_obj_cons in Hev. destruct Hev as [Hkv Hev].
  rewrite IHrun; [ | | | | assumption ]; cycle 1.
  { intros x Hx; apply Hwf; now right. }
  { intros x Hx; apply Hflat; now right. }
  { intros x Hx; apply Hproto; now right. }
  f_equal. f_equal.
  specialize (Hwf _ (or_introl eq_refl)).
  specialize (Hflat _ (or_introl eq_refl)).
  specialize (Hproto _ (or_introl eq_refl)).
  cbn [fst snd] in Hwf, Hflat, Hproto. clear IHrun Hrun.
  apply andb_true_iff in Hproto as [_ Hproto].
  unfold translated_entry in Hkv.
  apply entry_value_cases in Hv
    as [->|[(s & t & ph & wa & tt & -> & -> & Hp & Ht & Htt & ->)
           |[(items & items' & Hk & -> & -> & Hp)
            |(es' & Hk & -> & Hs)]]].
  - reflexivity.
  - cbn in Hkv. f_equal. eapply echoed_string; eassumption.
  - apply String.eqb_neq in Hk. rewrite Hk in Hflat, Hkv, Hproto.
    cbn [orb] in Hflat, Hproto.
    assert (Hitems : every_translated (marked_string K) (JArr items))
      by (destruct (String.eqb k "translated"); exact Hkv).
    clear Hkv. f_equal.
    apply promise_all_run in Hp. cbn [wf_json] in Hwf.
    rewrite forallb_forall in Hwf, Hflat, Hproto.
    induction Hp as [|x x' xs xs' wx wy wz Hx Hxs IHxs]; [reflexivity|].
    rewrite every_arr_cons in Hitems. destruct Hitems as [Hx0 Hitems].
    rewrite IHxs; [ | | | | assumption ]; cycle 1.
    { intros y Hy; apply Hproto; now right. }
    { intros y Hy; apply Hflat; now right. }
    { intros y Hy; apply Hwf; now right. }
    f_equal.
    specialize (Hwf _ (or_introl eq_refl)).
    specialize (Hflat _ (or_introl eq_refl)).
    specialize (Hproto _ (or_introl eq_refl)).
    unfold translate_item in Hx.
    destruct x as [| | | | |es0]; cbn [is_object] in Hx;
      try (unfold ret in Hx; now injection Hx as <- _).
    + discriminate.
    + eapply IH; eassumption.
  - apply String.eqb_neq in Hk. rewrite Hk in Hflat, Hkv, Hproto.
    cbn [orb] in Hflat, Hproto.
    assert (Hobj : every_translated (marked_string K) (JObj es'))
      by (destruct (String.eqb k "translated"); exact Hkv).
    eapply IH; eassumption.
Qed.

End Identity.

(** X15.  The whole pipeline adds nothing of its own: when the provider
    gives back the texts it is sent, or fails, a run on an object whose
    strings to translate are marked-up strings returns the object itself;
    markup and interpolations survive the run.  The identifiers have to
    be well formed, and as many in a row as a string has fragments have
    to differ; the object has distinct keys, no array directly inside a
    traversed array, and no property named ["__proto__"] in a traversed
    object. *)
Theorem echoing_provider_changes_nothing (uuidv4 : nat -> string)
    (fetch : list request -> string -> string -> fetch_outcome)
    (lang : string) (K : nat) (es : list (string * json)) (w : world) :
  (forall n, fresh_ids uuidv4 n K = true) ->
  echoes fetch lang ->
  wf_json (JObj es) = true ->
  flat_arrays (JObj es) = true ->
  no_proto (JObj es) = true ->
  every_translated (marked_string K) (JObj es) ->
  exists w', Translate uuidv4 fetch (JObj es) lang w = (Ok (JObj es), w').
Proof.
  intros Hids Hecho Hwf Hflat Hproto Hev.
  destruct (Translate_total uuidv4 fetch (JObj es) lang w)
    as (out & w' & E); [discriminate|].
  exists w'. rewrite E. f_equal. f_equal.
  unfold Translate in E.
  exact (translate_identity uuidv4 fetch lang K Hids Hecho _ es w _ w'
           Hwf Hflat Hproto Hev E).
Qed.

Lemma sample_uuid_fresh (n : nat) : fresh_ids sample_uuid n 1 = true.
Proof. destruct n as [|[|[|[|[|n]]]]]; reflexivity. Qed.

Lemma echoing_provider_changes_nothing_witness :
  exists w',
    Translate sample_uuid echo
      (JObj [("title",
              JObj [("original", JStr "Hi <b>you</b>");
                    ("translated", JStr "Hi <b>you</b>")]);
             ("items", JArr [JObj [("translated", JStr "${count} left")];
                             JNum 3])])
      "es" w0
    = (Ok (JObj [("title",
                  JObj [("original", JStr "Hi <b>you</b>");
                        ("translated", JStr "Hi <b>you</b>")]);
                 ("items",
                  JArr [JObj [("translated", JStr "${count} left")];
                        JNum 3])]), w').
Proof.
  apply (echoing_provider_changes_nothing sample_uuid echo "es" 1).
  - exact sample_uuid_fresh.
  - intros log text t H. now injection H as <-.
  - reflexivity.
  - reflexivity.
  - reflexivity.
  - cbn. repeat split.
    + exists [Plain "Hi "; Bold "you"]. repeat split. cbn. lia.
    + exists [Interp "count"; Plain " left"]. repeat split. cbn. lia.
Defined.

(** ** The language of the requests *)

Lemma sends_in_refl (lang : string) (w : world) : sends_in lang w w.
Proof. exists []. split; [reflexivity | constructor]. Qed.

Lemma sends_in_trans (lang : string) (w1 w2 w3 : world) :
  sends_in lang w1 w2 -> sends_in lang w2 w3 -> sends_in lang w1 w3.
Proof.
  intros (n1 & E1 & F1) (n2 & E2 & F2). exists (n2 ++ n1)%list. split.
  - now rewrite E2, E1, app_assoc.
  - apply Forall_app. now split.
Qed.

Section Language.

Variable uuidv4 : nat -> string.
Variable fetch : list request -> string -> string -> fetch_outcome.
Variable lang : string.

Lemma speaks_ret {A} (a : A) : speaks lang (ret a).
Proof. intros w r w' [= <- <-]. apply sends_in_refl. Qed.

Lemma speaks_throw {A} (e : exn) : speaks lang (@throw A e).
Proof. intros w r w' [= <- <-]. apply sends_in_refl. Qed.

Lemma speaks_bind {A B} (m : M A) (k : A -> M B) :
  speaks lang m -> (forall a, speaks lang (k a)) ->
  speaks lang (x <- m ;; k x).
Proof.
  intros Hm Hk w r w'. unfold bind.
  destruct (m w) as [[a|e|] w1] eqn:E; specialize (Hm _ _ _ E).
  - intros H. eapply sends_in_trans; [exact Hm | eapply Hk; exact H].
  - now intros [= <- <-].
  - now intros [= <- <-].
Qed.

Lemma speaks_try_catch {A} (b : M A) (h : exn -> M A) :
  speaks lang b -> (forall e, speaks lang (h e)) ->
  speaks lang (try_catch b h).
Proof.
  intros Hb Hh w r w'. unfold try_catch.
  destruct (b w) as [[a|e|] w1] eqn:E; specialize (Hb _ _ _ E).
  - now intros [= <- <-].
  - intros H. eapply sends_in_trans; [exact Hb | eapply Hh; exact H].
  - now intros [= <- <-].
Qed.

Lemma speaks_promise_all {A} (ps : list (M A)) :
  (forall p, In p ps -> speaks lang p) -> speaks lang (promise_all ps).
Proof.
  induction ps as [|p ps IH]; intros Hps; cbn [promise_all].
  - apply speaks_ret.
  - assert (speaks lang (promise_all ps)) as Hrest
        by (apply IH; intros q Hq; apply Hps; now right).
    intros w r w'.
    destruct (p w) as [[a|e|] w1] eqn:E;
      assert (Hp := Hps p (or_introl eq_refl) _ _ _ E).
    + intros H. eapply sends_in_trans; [exact Hp|].
      eapply (speaks_bind (promise_all ps) (fun l => ret (a :: l)));
        [exact Hrest | intros l; apply speaks_ret | exact H].
    + intros [= <- <-]. eapply sends_in_trans; [exact Hp|].
      eapply Hrest. apply surjective_pairing.
    + now intros [= <- <-].
Qed.

Lemma speaks_preprocessText (s : string) :
  speaks lang (preprocessText uuidv4 s).
Proof.
  intros w r w' H.
  destruct (preprocess_ok uuidv4 s w) as (t & ph & w1 & E & R).
  rewrite E in H. injection H as _ <-.
  exists []. split; [exact R | constructor].
Qed.

Lemma speaks_translateText (text : string) :
  speaks lang (translateText fetch text lang).
Proof.
  intros w r w' H.
  destruct (translateText_log fetch text lang w r w' H) as [E|(E & _)].
  - exists []. split; [exact E | constructor].
  - exists [mkRequest text lang]. split; [exact E|].
    constructor; [reflexivity | constructor].
Qed.

Lemma speaks_translate_entry (self : json -> M json) (k : string)
    (v : json) (td : Obj.t json) :
  (forall x, speaks lang (self x)) ->
  speaks lang (translate_entry uuidv4 fetch self lang k v td).
Proof.
  intros Hself. unfold translate_entry.
  apply speaks_try_catch; [|intros e; apply speaks_ret].
  destruct (String.eqb k "original"); [apply speaks_ret|].
  assert (forall items,
             speaks lang
               (items' <- promise_all
                            (map (fun item =>
                                    if is_object item then self item
                                    else ret item) items) ;;
                ret (Obj.assign k (JArr items') td))) as Harr.
  { intros items. apply speaks_bind; [|intros a; apply speaks_ret].
    apply speaks_promise_all. intros p Hp.
    apply in_map_iff in Hp as (x & <- & _).
    destruct (is_object x); [apply Hself | apply speaks_ret]. }
  assert (forall es,
             speaks lang
               (value' <- self (JObj es) ;; ret (Obj.assign k value' td)))
    as Hobj.
  { intros es.
    apply speaks_bind; [apply Hself | intros a; apply speaks_ret]. }
  destruct (String.eqb k "translated"), v;
    try apply speaks_ret; try apply Harr; try apply Hobj.
  apply speaks_bind; [apply speaks_preprocessText|].
  intros [text ph]. destruct (negb (String.eqb text "")); [|apply speaks_ret].
  apply speaks_bind; [apply speaks_translateText | intros a; apply speaks_ret].
Qed.

Lemma speaks_for_entries
    (f : string -> json -> Obj.t json -> M (Obj.t json))
    (es : list (string * json)) :
  (forall k v td, speaks lang (f k v td)) ->
  forall td, speaks lang (for_entries f es td).
Proof.
  intros Hf. induction es as [|[k v] es IH]; intros td; cbn [for_entries].
  - apply speaks_ret.
  - apply speaks_bind; [apply Hf | intros td'; apply IH].
Qed.

(** The target language is handed down unchanged through the recursion. *)
Lemma speaks_translateNestedJson (fuel : nat) :
  forall d, speaks lang (translateNestedJson uuidv4 fetch fuel d lang).
Proof.
  induction fuel as [|fuel IH]; intros d; cbn [translateNestedJson].
  - intros w r w' [= <- <-]. apply sends_in_refl.
  - apply speaks_bind.
    + destruct d; cbn [Object_entries];
        first [apply speaks_ret | apply speaks_throw].
    + intros es. apply speaks_bind; [|intros td; apply speaks_ret].
      apply speaks_for_entries. intros k v td.
      apply speaks_translate_entry. exact IH.
Qed.

End Language.

(** X16.  A click on the Translate button keeps the input and the selected
    language, and every request that the run sends is for the language
    selected when the button was clicked, at every depth of the
    document. *)
Theorem click_requests_selected_language (uuidv4 : nat -> string)
    (fetch : list request -> string -> string -> fetch_outcome)
    (parse : string -> parse_outcome) (c c' : component) (w w' : world) :
  clickTranslate uuidv4 fetch parse c w = (c', w') ->
  inputJson c' = inputJson c
  /\ targetLanguage c' = targetLanguage c
  /\ exists new,
       requests w' = (new ++ requests w)%list
       /\ Forall (fun q => req_lang q = targetLanguage c) new.
Proof.
  unfold clickTranslate.
  destruct (String.eqb (inputJson c) "" || isProcessing (view c)).
  { intros [= <- <-]. repeat split. apply sends_in_refl. }
  unfold processTranslations.
  assert (H : speaks (targetLanguage c)
                (data <- JSON_parse (parse (inputJson c)) ;;
                 Translate uuidv4 fetch data (targetLanguage c))).
  { apply speaks_bind.
    - destruct (parse (inputJson c)); cbn [JSON_parse];
        [apply speaks_throw | apply speaks_ret].
    - intros d. apply speaks_translateNestedJson. }
  destruct ((data <- JSON_parse (parse (inputJson c)) ;;
             Translate uuidv4 fetch data (targetLanguage c)) w)
    as [[d|[m|]|] w1] eqn:E; specialize (H _ _ _ E);
    intros [= <- <-]; repeat split; exact H.
Qed.

Lemma click_requests_selected_language_witness :
  inputJson
    (mkComponent "d" "fr"
       (mkPage (Some (JObj [("translated", JStr "Hi")])) None false))
  = inputJson (mkComponent "d" "fr" page0)
  /\ targetLanguage
       (mkComponent "d" "fr"
          (mkPage (Some (JObj [("translated", JStr "Hi")])) None false))
     = targetLanguage (mkComponent "d" "fr" page0)
  /\ exists new,
       requests (mkWorld 0 [mkRequest "Hi" "fr"])
       = (new ++ requests w0)%list
       /\ Forall
            (fun q => req_lang q
                      = targetLanguage (mkComponent "d" "fr" page0)) new.
Proof.
  exact (click_requests_selected_language sample_uuid echo
           (fun _ => Parsed (JObj [("translated", JStr "Hi")]))
           (mkComponent "d" "fr" page0)
           (mkComponent "d" "fr"
              (mkPage (Some (JObj [("translated", JStr "Hi")])) None false))
           w0 (mkWorld 0 [mkRequest "Hi" "fr"]) eq_refl).
Defined.

(** ** A document that is an array *)

Lemma similar_keys (leaf : string -> string -> bool)
    (es out : list (string * json)) :
  similar leaf (JObj es) (JObj out) = true -> map fst out = map fst es.
Proof.
  revert out. induction es as [|[k x] es IH]; intros [|[k' y] out] H;
    try discriminate H; [reflexivity|].
  rewrite similar_obj_cons in H.
  apply andb_true_iff in H as [H Hrest].
  apply andb_true_iff in H as [Hk _]. apply String.eqb_eq in Hk.
  cbn [map fst]. f_equal; [now symmetry | now apply IH].
Qed.

Lemma indexed_fst (items : list json) :
  forall i,
    map fst (indexed i items) = map Str.of_nat (seq i (List.length items)).
Proof.
  induction items as [|x xs IH]; intros i; cbn [indexed map fst seq
                                                  List.length];
    [reflexivity|].
  now rewrite IH.
Qed.

(** X17.  An array is not refused: [translateNestedJson] treats it as the
    object of its items under their indices, and returns an object of
    that shape, with the keys ["0"], ["1"], ... in this order; the
    output is never an array.  (The items have distinct keys in every
    object, no array directly inside a traversed array, and no property
    named ["__proto__"] in a traversed object.) *)
Theorem array_document_becomes_object (uuidv4 : nat -> string)
    (fetch : list request -> string -> string -> fetch_outcome)
    (lang : string) (items : list json) (w : world) :
  forallb wf_json items = true ->
  flat_arrays (JObj (indexed 0 items)) = true ->
  no_proto (JObj (indexed 0 items)) = true ->
  exists out w',
    Translate uuidv4 fetch (JArr items) lang w = (Ok (JObj out), w')
    /\ map fst out = map Str.of_nat (seq 0 (List.length items))
    /\ same_shape (JObj (indexed 0 items)) (JObj out) = true.
Proof.
  intros Hwf Hflat Hproto.
  destruct (Translate_total uuidv4 fetch (JArr items) lang w)
    as (out & w' & E); [discriminate|].
  exists out, w'. split; [exact E|].
  assert (Hwf' : wf_json (JObj (indexed 0 items)) = true).
  { cbn [wf_json]. apply andb_true_iff. split.
    - apply distinct_NoDup, indexed_NoDup.
    - apply forallb_forall. intros [k v] Hin. cbn [snd].
      rewrite forallb_forall in Hwf. apply Hwf.
      eapply indexed_in; exact Hin. }
  assert (Hshape : same_shape (JObj (indexed 0 items)) (JObj out) = true).
  { unfold same_shape, Translate in *.
    change (translateNestedJson uuidv4 fetch
              (S (json_depth (JArr items))) (JObj (indexed 0 items)) lang w
            = (Ok (JObj out), w')) in E.
    eapply (translate_similar (fun _ _ => true)); try eassumption;
      reflexivity. }
  split; [|exact Hshape].
  rewrite <- indexed_fst. exact (similar_keys _ _ _ Hshape).
Qed.

Lemma array_document_becomes_object_witness :
  exists out w',
    Translate sample_uuid echo
      (JArr [JObj [("translated", JStr "Hi")]; JNum 2]) "es" w0
    = (Ok (JObj out), w')
    /\ map fst out = map Str.of_nat (seq 0 2)
    /\ same_shape
         (JObj (indexed 0 [JObj [("translated", JStr "Hi")]; JNum 2]))
         (JObj out) = true.
Proof.
  apply (array_document_becomes_object sample_uuid echo "es"
           [JObj [("translated", JStr "Hi")]; JNum 2] w0); reflexivity.
Defined.

(** ** The number of requests *)

Lemma to_translate_cons (k : string) (v : json)
    (es : list (string * json)) :
  to_translate (JObj ((k, v) :: es))
  = (entry_strings k v ++ to_translate (JObj es))%list.
Proof. reflexivity. Qed.

Lemma sends_exactly_ret {A} (a : A) : sends_exactly 0 (ret a).
Proof. intros w. exists a, [], w. now repeat split. Qed.

Lemma sends_exactly_bind {A B} (n p : nat) (m : M A) (k : A -> M B) :
  sends_exactly n m -> (forall a, sends_exactly p (k a)) ->
  sends_exactly (n + p) (x <- m ;; k x).
Proof.
  intros Hm Hk w. destruct (Hm w) as (a & new & w1 & E & R & L).
  destruct (Hk a w1) as (b & new' & w2 & E' & R' & L').
  exists b, (new' ++ new)%list, w2. unfold bind. rewrite E. repeat split.
  - exact E'.
  - now rewrite R', R, app_assoc.
  - rewrite length_app. lia.
Qed.

Lemma sends_exactly_try_catch {A} (n : nat) (b : M A) (h : exn -> M A) :
  sends_exactly n b -> sends_exactly n (try_catch b h).
Proof.
  intros Hb w. destruct (Hb w) as (a & new & w1 & E & R & L).
  exists a, new, w1. unfold try_catch. now rewrite E.
Qed.

Lemma sends_exactly_promise_all {A B} (f : B -> M A) (c : B -> list string)
    (items : list B) :
  (forall x, In x items -> sends_exactly (List.length (c x)) (f x)) ->
  sends_exactly (List.length (flat_map c items)) (promise_all (map f items)).
Proof.
  induction items as [|x xs IH]; intros Hf; cbn [map promise_all flat_map].
  - apply sends_exactly_ret.
  - intros w.
    destruct (Hf x (or_introl eq_refl) w) as (a & new & w1 & E & R & L).
    destruct (IH (fun y Hy => Hf y (or_intror Hy)) w1)
      as (l & new' & w2 & E' & R' & L').
    exists (a :: l), (new' ++ new)%list, w2. rewrite E. unfold bind, ret.
    rewrite E'. repeat split.
    + now rewrite R', R, app_assoc.
    + rewrite !length_app. lia.
Qed.

Section Count.

Variable uuidv4 : nat -> string.
Variable fetch : list request -> string -> string -> fetch_outcome.
Variable lang : string.

Hypothesis lang_given : lang <> "".

(** With a text and a language, [translateText] sends its request
    whatever comes of it. *)
Lemma translateText_sends (text : string) (w : world) :
  text <> "" ->
  exists r,
    translateText fetch text lang w
    = (r, mkWorld (next_id w) (mkRequest text lang :: requests w))
    /\ r <> Exhausted.
Proof.
  intros Ht. unfold translateText.
  apply String.eqb_neq in Ht. apply String.eqb_neq in lang_given as Hl.
  rewrite Ht, Hl. cbn [orb].
  unfold try_catch, bind, send, throw, ret.
  destruct (fetch (requests w) text lang) as [[m|]|[st m|t]];
    eexists; (split; [reflexivity | discriminate]).
Qed.

(** The turn of the loop for a string to translate sends one request. *)
Lemma string_entry_sends_one (self : json -> M json) (s : string)
    (td : Obj.t json) :
  s <> "" ->
  sends_exactly 1
    (translate_entry uuidv4 fetch self lang "translated" (JStr s) td).
Proof.
  intros Hs w.
  destruct (preprocess_ok uuidv4 s w) as (text & ph & wa & Hp & Hr).
  assert (Hne := preprocess_nonempty _ _ _ _ _ _ Hp Hs).
  destruct (translateText_sends text wa Hne) as (r & Ht & Hr').
  destruct r as [t|e|]; [| |now contradiction Hr'].
  - eexists _, [mkRequest text lang], _. split; [|split].
    + exact (translated_leaf_entry uuidv4 fetch lang self s text t ph td
               w wa _ Hp Hne Ht).
    + cbn [requests app]. now rewrite Hr.
    + reflexivity.
  - eexists _, [mkRequest text lang], _. split; [|split].
    + exact (failed_leaf_entry uuidv4 fetch lang self s text ph td
               w wa _ e Hp Ht).
    + cbn [requests app]. now rewrite Hr.
    + reflexivity.
Qed.

(** One turn of the loop sends one request for each string to translate
    in the value, when the recursive call does. *)
Lemma entry_sends (self : json -> M json) (k : string) (v : json)
    (td : Obj.t json) :
  (forall es, json_depth (JObj es) <= json_depth v ->
     flat_arrays (JObj es) = true ->
     sends_exactly (List.length (to_translate (JObj es))) (self (JObj es))) ->
  String.eqb k "original" = true
  \/ match v with
     | JArr items =>
         forallb (fun item =>
                    match item with
                    | JArr _ => false
                    | JObj _ => flat_arrays item
                    | _ => true
                    end) items = true
     | JObj _ => flat_arrays v = true
     | _ => True
     end ->
  sends_exactly (List.length (entry_strings k v))
    (translate_entry uuidv4 fetch self lang k v td).
Proof.
  intros Hself Hflat. unfold entry_strings.
  destruct (String.eqb k "original") eqn:Eo.
  { unfold translate_entry. rewrite Eo.
    apply sends_exactly_try_catch, sends_exactly_ret. }
  destruct Hflat as [Hflat|Hflat]; [discriminate|].
  assert (Harr : forall items,
             v = JArr items ->
             sends_exactly
               (List.length
                  (flat_map (fun item => match item with
                                         | JObj _ => to_translate item
                                         | _ => []
                                         end) items))
               (try_catch
                  (items' <- promise_all
                               (map (fun item =>
                                       if is_object item then self item
                                       else ret item) items) ;;
                   ret (Obj.assign k (JArr items') td))
                  (fun _ => ret (Obj.assign k v td)))).
  { intros items ->. apply sends_exactly_try_catch.
    rewrite <- (Nat.add_0_r (List.length _)).
    apply sends_exactly_bind; [|intros a; apply sends_exactly_ret].
    apply sends_exactly_promise_all. intros x Hx.
    rewrite forallb_forall in Hflat. specialize (Hflat x Hx).
    destruct x as [| | | | |es0]; cbn [is_object];
      try apply sends_exactly_ret; [discriminate|].
    apply Hself; [|exact Hflat].
    apply depth_item in Hx. lia. }
  assert (Hobj : forall es0,
             v = JObj es0 ->
             sends_exactly (List.length (to_translate v))
               (try_catch
                  (value' <- self v ;; ret (Obj.assign k value' td))
                  (fun _ => ret (Obj.assign k v td)))).
  { intros es0 ->. apply sends_exactly_try_catch.
    rewrite <- (Nat.add_0_r (List.length _)).
    apply sends_exactly_bind; [|intros a; apply sends_exactly_ret].
    apply Hself; [lia | exact Hflat]. }
  destruct (String.eqb k "translated") eqn:Et.
  - apply String.eqb_eq in Et. subst k.
    destruct v as [|b|n|s|items|es0];
      try (unfold translate_entry; cbn [String.eqb Ascii.eqb Bool.eqb];
           apply sends_exactly_try_catch, sends_exactly_ret).
    + destruct (String.eqb s "") eqn:Es.
      * apply String.eqb_eq in Es. subst s.
        intros w. exists (Obj.set "translated" (JStr "") td), [], w.
        now repeat split.
      * apply String.eqb_neq in Es. now apply string_entry_sends_one.
    + unfold translate_entry. cbn [String.eqb Ascii.eqb Bool.eqb].
      now apply Harr.
    + unfold translate_entry. cbn [String.eqb Ascii.eqb Bool.eqb].
      now apply (Hobj es0).
  - unfold translate_entry. rewrite Eo, Et.
    destruct v as [|b|n|s|items|es0];
      try apply sends_exactly_try_catch, sends_exactly_ret.
    + now apply Harr.
    + now apply (Hobj es0).
Qed.

Lemma for_entries_sends (self : json -> M json)
    (es : list (string * json)) :
  (forall k v td, In (k, v) es ->
     sends_exactly (List.length (entry_strings k v))
       (translate_entry uuidv4 fetch self lang k v td)) ->
  forall td,
    sends_exactly (List.length (to_translate (JObj es)))
      (for_entries (translate_entry uuidv4 fetch self lang) es td).
Proof.
  induction es as [|[k v] es IH]; intros Hbody td; cbn [for_entries].
  - apply sends_exactly_ret.
  - rewrite to_translate_cons, length_app.
    apply sends_exactly_bind; [apply Hbody; now left|].
    intros td'. apply IH. intros k' v' td0 Hin. apply Hbody. now right.
Qed.

Lemma translate_sends (fuel : nat) :
  forall es, json_depth (JObj es) < fuel ->
    flat_arrays (JObj es) = true ->
    sends_exactly (List.length (to_translate (JObj es)))
      (translateNestedJson uuidv4 fetch fuel (JObj es) lang).
Proof.
  induction fuel as [|fuel IH]; intros es Hfuel Hflat; [lia|].
  rewrite translate_step. cbn [Object_entries].
  change (sends_exactly (List.length (to_translate (JObj es)))
            (translatedData <-
               for_entries
                 (translate_entry uuidv4 fetch
                    (fun item =>
                       translateNestedJson uuidv4 fetch fuel item lang) lang)
                 es [] ;;
             ret (JObj translatedData))).
  rewrite <- (Nat.add_0_r (List.length _)).
  apply sends_exactly_bind; [|intros a; apply sends_exactly_ret].
  apply for_entries_sends. intros k v td Hin.
  apply entry_sends.
  - intros es0 Hd Hf. apply IH; [|exact Hf].
    apply depth_entry in Hin. lia.
  - cbn [flat_arrays] in Hflat. rewrite forallb_forall in Hflat.
    specialize (Hflat _ Hin). cbn [fst snd] in Hflat.
    apply orb_true_iff in Hflat as [Ho|Hv]; [now left | right].
    destruct v; auto.
Qed.

End Count.

(** X18.  One request for each string to translate: with a target language, a
    run on an object in which no traversed array has an array among its
    items returns, and sends exactly as many requests as the object has
    non-empty strings under keys ["translated"] outside the values stored
    under ["original"], whatever the provider answers. *)
Theorem one_request_per_string (uuidv4 : nat -> string)
    (fetch : list request -> string -> string -> fetch_outcome)
    (lang : string) (es : list (string * json)) (w : world) :
  lang <> "" ->
  flat_arrays (JObj es) = true ->
  exists out new w',
    Translate uuidv4 fetch (JObj es) lang w = (Ok out, w')
    /\ requests w' = (new ++ requests w)%list
    /\ List.length new = List.length (to_translate (JObj es)).
Proof.
  intros Hl Hflat. unfold Translate.
  apply (translate_sends uuidv4 fetch lang Hl); [lia | exact Hflat].
Qed.

Lemma one_request_per_string_witness :
  exists out new w',
    Translate sample_uuid flaky
      (JObj [("title", JObj [("original", JStr "Hello");
                             ("translated", JStr "Hello")]);
             ("items", JArr [JObj [("translated", JStr "Bye")];
                             JObj [("translated", JStr "")]])])
      "es" w0
    = (Ok out, w')
    /\ requests w' = (new ++ requests w0)%list
    /\ List.length new = 2.
Proof.
  apply (one_request_per_string sample_uuid flaky "es"
           [("title", JObj [("original", JStr "Hello");
                            ("translated", JStr "Hello")]);
            ("items", JArr [JObj [("translated", JStr "Bye")];
                            JObj [("translated", JStr "")]])] w0);
    [discriminate | reflexivity].
Defined.
